(** * mcp-central-agent: connection lifecycle and multiplexing engine

    A shallow embedding of the three core classes of the agent

      - [AgentTunnel]     (tunnel.ts)        the control channel,
      - [LocalClient]     (local-client.ts)  one downstream connection,
      - [McpCentralAgent] (agent.ts)         the orchestrator,

    together with the properties of the specification that concern them.

    The program is asynchronous JavaScript running on one thread.  Every
    [async] method is embedded as the code it runs synchronously up to its
    first [await], plus one resumption function per suspension point; the
    value an awaited promise settles with is supplied by the environment
    as the argument of the resumption.  Calls on collaborators (status and
    tool callbacks, transport and timer operations, tunnel sends) are
    recorded, in program order, in the list every operation returns. *)

From Stdlib Require Import ZArith Lia Sorted.
From stdpp Require Import base strings list gmap sets sorting.

Local Open Scope string_scope.
Local Open Scope list_scope.

(** ** JavaScript values *)

(** What [unknown] and [Record<string, unknown>] range over. *)
#[warnings="-register-all"]
Inductive JSValue :=
| JUndefined
| JNull
| JBool (b : bool)
| JNumber (z : Z)
| JString (s : string)
| JArray (xs : list JSValue)
| JObject (fields : list (string * JSValue)).

(** A value caught by [catch (err)]: an [Error] carrying a [message], or
    anything else, given by its [String(err)]. *)
Inductive Thrown :=
| ErrorObject (message : string)
| NotAnError (to_string : string).

(** [err instanceof Error ? err.message : String(err)] *)
Definition error_message (err : Thrown) : string :=
  match err with
  | ErrorObject message => message
  | NotAnError s => s
  end.

(** A [Tool] of the MCP SDK is a JavaScript object; it is read by
    property name only. *)
Abbreviation Tool := (gmap string JSValue).

(** [t.k]: reading a property that is absent yields [undefined]. *)
Definition prop (t : Tool) (k : string) : JSValue :=
  default JUndefined (t !! k).

(** ** Endpoint configuration (local-client.ts) *)

Inductive TransportKind := stdio | streamable_http | sse.

Record EndpointConfig := {
  id : string;
  name : string;
  namespace : string;
  transport : TransportKind;
  url : option string;
  command : option string;
  args : list string;
  env : gmap string string;
  headers : list (string * string);
  isEnabled : bool
}.

Inductive LocalClientStatus := disconnected | connecting | connected | error.

#[global] Instance LocalClientStatus_eq_dec : EqDecision LocalClientStatus.
Proof. solve_decision. Defined.

(** The string a status is at run time. *)
Definition status_string (s : LocalClientStatus) : string :=
  match s with
  | disconnected => "disconnected"
  | connecting => "connecting"
  | connected => "connected"
  | error => "error"
  end.

(** ** Methods

    A method of an object of type [S] whose collaborators are called with
    the calls [O]: a function from the object to the object it leaves and
    the calls it made, oldest first. *)
Definition Method (S O : Type) : Type := S -> S * list O.

Definition skip {S O} : Method S O := fun s => (s, []).
Definition modify {S O} (f : S -> S) : Method S O := fun s => (f s, []).
Definition call {S O} (x : O) : Method S O := fun s => (s, [x]).
Definition seq {S O} (f g : Method S O) : Method S O := fun s =>
  let (s1, out1) := f s in
  let (s2, out2) := g s1 in
  (s2, out1 ++ out2).

Declare Scope method_scope.
Delimit Scope method_scope with M.
Notation "f ;; g" := (seq f g)
  (at level 100, g at level 200, right associativity) : method_scope.

(** [for (const x of xs) body(x)] *)
Fixpoint foreach {A S O} (xs : list A) (body : A -> Method S O) : Method S O :=
  match xs with
  | [] => skip
  | x :: xs => (body x ;; foreach xs body)%M
  end.

(** ** The control channel (tunnel.ts) *)

Module AgentTunnel.

(** An event handed to [socket.emit]. *)
Inductive Emitted :=
| toolsAnnounce (endpointId : string) (tools : list Tool)
| toolResult_result (callId : string) (result : JSValue)
| toolResult_error (callId : string) (error : string)
| statusUpdate (endpointId : string) (status : LocalClientStatus)
               (error : option string).

(** [_socket]: [None] is [null]; a socket is the events emitted on it,
    oldest first. *)
Record t := { _socket : option (list Emitted) }.

(** [this._socket?.emit(...)] *)
Definition emit (ev : Emitted) (tn : t) : t :=
  match _socket tn with
  | None => tn
  | Some sent => {| _socket := Some (sent ++ [ev]) |}
  end.

(** The object literal [{ name: t.name, description: t.description,
    inputSchema: t.inputSchema }]. *)
Definition trim (tl : Tool) : Tool :=
  <["name" := prop tl "name"]>
    (<["description" := prop tl "description"]>
       (<["inputSchema" := prop tl "inputSchema"]> ∅)).

Definition announceTools (endpointId : string) (tools : list Tool) : t -> t :=
  emit (toolsAnnounce endpointId (trim <$> tools)).

Definition sendToolResult (callId : string) (result : JSValue) : t -> t :=
  emit (toolResult_result callId result).

Definition sendToolError (callId : string) (err : string) : t -> t :=
  emit (toolResult_error callId err).

Definition sendStatusUpdate (endpointId : string) (status : LocalClientStatus)
    (err : option string) : t -> t :=
  emit (statusUpdate endpointId status err).

(** [disconnect()]: [this._socket?.disconnect(); this._socket = null]. *)
Definition disconnect (tn : t) : t := {| _socket := None |}.

(** The events emitted by [f] on a tunnel whose socket had emitted
    [sent]. *)
Definition emitted_by (f : t -> t) (sent : list Emitted) : list Emitted :=
  match _socket (f {| _socket := Some sent |}) with
  | None => []
  | Some sent' => drop (length sent) sent'
  end.

(** The calls the orchestrator makes on its tunnel. *)
Inductive Call :=
| call_announceTools (endpointId : string) (tools : list Tool)
| call_sendToolResult (callId : string) (result : JSValue)
| call_sendToolError (callId : string) (error : string)
| call_sendStatusUpdate (endpointId : string) (status : LocalClientStatus)
                        (error : option string)
| call_disconnect.

Definition perform (x : Call) : t -> t :=
  match x with
  | call_announceTools endpointId tools => announceTools endpointId tools
  | call_sendToolResult callId result => sendToolResult callId result
  | call_sendToolError callId err => sendToolError callId err
  | call_sendStatusUpdate endpointId status err =>
      sendStatusUpdate endpointId status err
  | call_disconnect => disconnect
  end.

End AgentTunnel.

(** ** What the host gives the program

    [process.env], and the constructor of the standard [URL] class, which
    throws a [TypeError] on a string that is not a URL ([None]). *)
Class Host := {
  process_env : gmap string string;
  new_URL : string -> option string
}.

(** The object literal [{ ...a, ...b }]: the properties of [a] and those
    of [b], with the value [b] has where both have one. *)
Definition spread (a b : gmap string string) : gmap string string := b ∪ a.

Arguments spread : simpl never.

(** [!s] for [s : string | null]: [null] and the empty string are falsy. *)
Definition falsy (s : option string) : bool :=
  match s with
  | None => true
  | Some s => bool_decide (s = "")
  end.

(** ** One downstream connection (local-client.ts) *)

Module LocalClient.

(** The transport objects of the SDK, by their constructor arguments. *)
Inductive Transport :=
| StdioClientTransport (command : string) (args : list string)
                       (env : gmap string string)
| StreamableHTTPClientTransport (url : string) (headers : list (string * string))
| SSEClientTransport (url : string) (headers : list (string * string)).

(** A [Client] of the SDK, as held in [_client]: its name and the
    transport [client.connect] succeeded on. *)
Record Client := { clientName : string; connectedOver : Transport }.

(** Calls the class makes on its collaborators. *)
Inductive Call :=
| onStatusChanged (status : LocalClientStatus) (error : option string)
| onToolsChanged (tools : list Tool)
| client_connect (tr : Transport)
| client_listTools
| client_close
| transport_close (tr : Transport)
| setTimeout (delay : Z)
| clearTimeout (timer : nat).

(** Where a [connect()] is suspended, with the local variables that are
    live there. *)
Inductive Suspension :=
| at_connectHttp (err : Thrown)
    (* connect, l.93: await this._connectHttp(client), which threw err
       before its first await *)
| at_connect (tr : Transport)
    (* connect, l.96: await client.connect(transport) *)
| at_http_post (parsedUrl : string) (reqInit : list (string * string))
    (* _connectHttp, l.246: await client.connect(streamableTransport) *)
| at_http_post_cleanup (parsedUrl : string) (reqInit : list (string * string))
    (* _connectHttp, l.256: await client.close().catch(...) *)
| at_http_sse (parsedUrl : string) (reqInit : list (string * string))
    (* _connectHttp, l.267: await client.connect(sseTransport) *)
| at_http_sse_cleanup (err : Thrown)
    (* _connectHttp, l.274: await client.close().catch(...) *)
| at_listTools (tr : Transport).
    (* connect, l.103: await client.listTools() *)

(** What an awaited promise settles with.  Only [listTools] resolves
    with a value that is read: [response.tools], possibly [undefined]. *)
Inductive Settled :=
| resolved (response_tools : option (list Tool))
| rejected (err : Thrown).

(** The two observers installed on a transport. *)
Inductive Handler := onerror | onclose.

#[global] Instance Handler_eq_dec : EqDecision Handler.
Proof. solve_decision. Defined.

(** The fields of the class, followed by what the run time holds for the
    object: the suspended [connect()] if any, the number of
    [disconnect()] calls suspended at [await this._client.close()], the
    observers installed on transports (transports are numbered as they
    are watched), the timers that are set with their delays, and the
    next free number for timers and transports. *)
Record t := mk {
  endpointId : string;
  config : EndpointConfig;
  _client : option Client;
  _status : LocalClientStatus;
  _tools : list Tool;
  _destroyed : bool;
  _connecting : bool;
  _reconnectAttempt : nat;
  _reconnectTimer : option nat;
  suspended : option Suspension;
  closing : nat;
  handlers : list (nat * Handler);
  timers : list (nat * Z);
  allocated : nat
}.

Definition set_client (v : option Client) (c : t) : t :=
  mk (endpointId c) (config c) v (_status c) (_tools c) (_destroyed c) (_connecting c) (_reconnectAttempt c) (_reconnectTimer c) (suspended c) (closing c) (handlers c) (timers c) (allocated c).
Definition set_status (v : LocalClientStatus) (c : t) : t :=
  mk (endpointId c) (config c) (_client c) v (_tools c) (_destroyed c) (_connecting c) (_reconnectAttempt c) (_reconnectTimer c) (suspended c) (closing c) (handlers c) (timers c) (allocated c).
Definition set_tools (v : list Tool) (c : t) : t :=
  mk (endpointId c) (config c) (_client c) (_status c) v (_destroyed c) (_connecting c) (_reconnectAttempt c) (_reconnectTimer c) (suspended c) (closing c) (handlers c) (timers c) (allocated c).
Definition set_destroyed (v : bool) (c : t) : t :=
  mk (endpointId c) (config c) (_client c) (_status c) (_tools c) v (_connecting c) (_reconnectAttempt c) (_reconnectTimer c) (suspended c) (closing c) (handlers c) (timers c) (allocated c).
Definition set_connecting (v : bool) (c : t) : t :=
  mk (endpointId c) (config c) (_client c) (_status c) (_tools c) (_destroyed c) v (_reconnectAttempt c) (_reconnectTimer c) (suspended c) (closing c) (handlers c) (timers c) (allocated c).
Definition set_reconnectAttempt (v : nat) (c : t) : t :=
  mk (endpointId c) (config c) (_client c) (_status c) (_tools c) (_destroyed c) (_connecting c) v (_reconnectTimer c) (suspended c) (closing c) (handlers c) (timers c) (allocated c).
Definition set_reconnectTimer (v : option nat) (c : t) : t :=
  mk (endpointId c) (config c) (_client c) (_status c) (_tools c) (_destroyed c) (_connecting c) (_reconnectAttempt c) v (suspended c) (closing c) (handlers c) (timers c) (allocated c).
Definition set_suspended (v : option Suspension) (c : t) : t :=
  mk (endpointId c) (config c) (_client c) (_status c) (_tools c) (_destroyed c) (_connecting c) (_reconnectAttempt c) (_reconnectTimer c) v (closing c) (handlers c) (timers c) (allocated c).
Definition set_closing (v : nat) (c : t) : t :=
  mk (endpointId c) (config c) (_client c) (_status c) (_tools c) (_destroyed c) (_connecting c) (_reconnectAttempt c) (_reconnectTimer c) (suspended c) v (handlers c) (timers c) (allocated c).
Definition set_handlers (v : list (nat * Handler)) (c : t) : t :=
  mk (endpointId c) (config c) (_client c) (_status c) (_tools c) (_destroyed c) (_connecting c) (_reconnectAttempt c) (_reconnectTimer c) (suspended c) (closing c) v (timers c) (allocated c).
Definition set_timers (v : list (nat * Z)) (c : t) : t :=
  mk (endpointId c) (config c) (_client c) (_status c) (_tools c) (_destroyed c) (_connecting c) (_reconnectAttempt c) (_reconnectTimer c) (suspended c) (closing c) (handlers c) v (allocated c).
Definition set_allocated (v : nat) (c : t) : t :=
  mk (endpointId c) (config c) (_client c) (_status c) (_tools c) (_destroyed c) (_connecting c) (_reconnectAttempt c) (_reconnectTimer c) (suspended c) (closing c) (handlers c) (timers c) v.

(** [new LocalClient(config, callbacks)] *)
Definition create (config : EndpointConfig) : t :=
  mk (id config) config None disconnected [] false false 0 None
     None 0 [] [] 0.

Definition M := Method t Call.

Local Open Scope method_scope.

Definition RECONNECT_DELAYS : list Z := [1000; 2000; 5000; 10000; 30000]%Z.
Definition MAX_RECONNECT_DELAY : Z := 60000.

(** [RECONNECT_DELAYS[Math.min(attempt, RECONNECT_DELAYS.length - 1)]
      ?? MAX_RECONNECT_DELAY] *)
Definition reconnect_delay (attempt : nat) : Z :=
  nth (Nat.min attempt (length RECONNECT_DELAYS - 1)) RECONNECT_DELAYS
      MAX_RECONNECT_DELAY.

Definition _setStatus (status : LocalClientStatus) (err : option string) : M :=
  modify (set_status status) ;; call (onStatusChanged status err).

Definition _scheduleReconnect : M := fun c =>
  if _destroyed c then skip c
  else
    let delay := reconnect_delay (_reconnectAttempt c) in
    let timer := allocated c in
    (modify (set_reconnectAttempt (S (_reconnectAttempt c))) ;;
     call (setTimeout delay) ;;
     modify (set_allocated (S timer)) ;;
     modify (set_timers (timers c ++ [(timer, delay)])) ;;
     modify (set_reconnectTimer (Some timer))) c.

Section WithHost.
Context `{Host}.

(** [_createTransport()]: the transport, or what it throws.  The final
    [throw] of the source is unreachable, [transport] having one of
    the three values of its type. *)
Definition _createTransport (c : t) : Thrown + Transport :=
  let cfg := config c in
  match transport cfg with
  | stdio =>
      match command cfg with
      | Some cmd =>
          if falsy (command cfg)
          then inl (ErrorObject
                 ("stdio endpoint " +:+ endpointId c +:+ " has no command"))
          else inr (StdioClientTransport cmd (args cfg)
                      (spread process_env (env cfg)))
      | None => inl (ErrorObject
                 ("stdio endpoint " +:+ endpointId c +:+ " has no command"))
      end
  | streamable_http =>
      match url cfg with
      | Some u =>
          if falsy (url cfg)
          then inl (ErrorObject
                 ("streamable-http endpoint " +:+ endpointId c +:+ " has no URL"))
          else match new_URL u with
               | Some parsed => inr (StreamableHTTPClientTransport parsed (headers cfg))
               | None => inl (ErrorObject "Invalid URL")
               end
      | None => inl (ErrorObject
                 ("streamable-http endpoint " +:+ endpointId c +:+ " has no URL"))
      end
  | sse =>
      match url cfg with
      | Some u =>
          if falsy (url cfg)
          then inl (ErrorObject ("sse endpoint " +:+ endpointId c +:+ " has no URL"))
          else match new_URL u with
               | Some parsed => inr (SSEClientTransport parsed (headers cfg))
               | None => inl (ErrorObject "Invalid URL")
               end
      | None => inl (ErrorObject ("sse endpoint " +:+ endpointId c +:+ " has no URL"))
      end
  end.

(** Leaving [connect()] through [finally]. *)
Definition connect_finally : M :=
  modify (set_connecting false) ;; modify (set_suspended None).

(** The [catch (err)] block of [connect()], then [finally]. *)
Definition connect_catch (err : Thrown) : M :=
  _setStatus error (Some (error_message err)) ;;
  (fun c => if negb (_destroyed c) then _scheduleReconnect c else skip c) ;;
  connect_finally.

Definition suspend (s : Suspension) : M := modify (set_suspended (Some s)).

(** [await this._connectHttp(client)] (l.93), up to the first [await].
    The function is [async]: what it throws before its own first [await]
    rejects the promise it returns, and [connect()], which awaits that
    promise, is suspended; the rejection reaches its [catch] when it
    resumes. *)
Definition _connectHttp : M := fun c =>
  let cfg := config c in
  match url cfg with
  | Some u =>
      if falsy (url cfg)
      then suspend (at_connectHttp (ErrorObject
             ("streamable-http endpoint " +:+ endpointId c +:+ " has no URL"))) c
      else match new_URL u with
           | Some parsedUrl =>
               (call (client_connect
                        (StreamableHTTPClientTransport parsedUrl (headers cfg))) ;;
                suspend (at_http_post parsedUrl (headers cfg))) c
           | None => suspend (at_connectHttp (ErrorObject "Invalid URL")) c
           end
  | None => suspend (at_connectHttp (ErrorObject
             ("streamable-http endpoint " +:+ endpointId c +:+ " has no URL"))) c
  end.

(** [connect()] up to its first [await]. *)
Definition connect : M := fun c =>
  if _destroyed c || _connecting c then skip c
  else
    (modify (set_connecting true) ;;
     _setStatus connecting None ;;
     (fun c =>
        match transport (config c) with
        | streamable_http => _connectHttp c
        | _ =>
            match _createTransport c with
            | inl err => connect_catch err c
            | inr tr => (call (client_connect tr) ;; suspend (at_connect tr)) c
            end
        end)) c.

(** [connect()] from the point where a transport is connected
    (l.99-103), up to [await client.listTools()]. *)
Definition established (tr : Transport) : M :=
  (fun c => modify (set_client (Some
     {| clientName := "mcp-central-agent:" +:+ namespace (config c);
        connectedOver := tr |})) c) ;;
  modify (set_reconnectAttempt 0) ;;
  call client_listTools ;;
  suspend (at_listTools tr).

(** Installing [_onError] and [_onClose] on the transport (l.137-138). *)
Definition watch : M := fun c =>
  let n := allocated c in
  (modify (set_allocated (S n)) ;;
   modify (set_handlers (handlers c ++ [(n, onerror); (n, onclose)]))) c.

(** The suspended [connect()] goes on with what its promise settled
    with, up to its next [await] or its end. *)
Definition connect_resume (r : Settled) : M := fun c =>
  match suspended c with
  | None => skip c
  | Some (at_connectHttp err) => connect_catch err c
  | Some (at_connect tr) =>
      match r with
      | resolved _ => established tr c
      | rejected err => connect_catch err c
      end
  | Some (at_http_post parsedUrl reqInit) =>
      match r with
      | resolved _ =>
          established (StreamableHTTPClientTransport parsedUrl reqInit) c
      | rejected _ =>
          (call (transport_close (StreamableHTTPClientTransport parsedUrl reqInit)) ;;
           call client_close ;;
           suspend (at_http_post_cleanup parsedUrl reqInit)) c
      end
  | Some (at_http_post_cleanup parsedUrl reqInit) =>
      (call (client_connect (SSEClientTransport parsedUrl reqInit)) ;;
       suspend (at_http_sse parsedUrl reqInit)) c
  | Some (at_http_sse parsedUrl reqInit) =>
      match r with
      | resolved _ => established (SSEClientTransport parsedUrl reqInit) c
      | rejected err =>
          (call (transport_close (SSEClientTransport parsedUrl reqInit)) ;;
           call client_close ;;
           suspend (at_http_sse_cleanup err)) c
      end
  | Some (at_http_sse_cleanup err) => connect_catch err c
  | Some (at_listTools tr) =>
      match r with
      | resolved response_tools =>
          (modify (set_tools (default [] response_tools)) ;;
           _setStatus connected None ;;
           (fun c => call (onToolsChanged (_tools c)) c) ;;
           watch ;;
           connect_finally) c
      | rejected err => connect_catch err c
      end
  end.

(** [_onError(err)], when it is installed on transport [n]; [message]
    is [err?.message]. *)
Definition _onError (n : nat) (message : option string) : M := fun c =>
  if bool_decide ((n, onerror) ∈ handlers c) then
    (modify (set_handlers (filter (.≠ (n, onerror)) (handlers c))) ;;
     (fun c =>
        if negb (_destroyed c) && bool_decide (_status c = connected) then
          (modify (set_tools []) ;;
           _setStatus error (Some (default "Transport error" message)) ;;
           _scheduleReconnect) c
        else skip c)) c
  else skip c.

(** [_onClose()], when it is installed on transport [n]. *)
Definition _onClose (n : nat) : M := fun c =>
  if bool_decide ((n, onclose) ∈ handlers c) then
    (modify (set_handlers (filter (.≠ (n, onclose)) (handlers c))) ;;
     (fun c =>
        if negb (_destroyed c) && bool_decide (_status c = connected) then
          (modify (set_tools []) ;;
           _setStatus error (Some "Transport closed unexpectedly") ;;
           _scheduleReconnect) c
        else skip c)) c
  else skip c.

(** The callback given to [setTimeout] (l.294-297), when [timer] is
    set. *)
Definition timer_callback (timer : nat) : M := fun c =>
  if bool_decide (timer ∈ (timers c).*1) then
    (modify (set_timers (filter (fun p => p.1 ≠ timer) (timers c))) ;;
     modify (set_reconnectTimer None) ;;
     connect) c
  else skip c.

(** [disconnect()] up to [await this._client.close()], or to its end
    when there is no client. *)
Definition disconnect : M :=
  modify (set_destroyed true) ;;
  (fun c =>
     match _reconnectTimer c with
     | Some timer =>
         (call (clearTimeout timer) ;;
          modify (set_timers (filter (fun p => p.1 ≠ timer) (timers c))) ;;
          modify (set_reconnectTimer None)) c
     | None => skip c
     end) ;;
  (fun c =>
     match _client c with
     | Some _ => (call client_close ;; modify (set_closing (S (closing c)))) c
     | None => _setStatus disconnected None c
     end).

(** A suspended [disconnect()] goes on after [close()] settled, either
    way ([.catch(() => {})]). *)
Definition disconnect_resume : M := fun c =>
  match closing c with
  | 0 => skip c
  | S n =>
      (modify (set_closing n) ;;
       modify (set_client None) ;;
       _setStatus disconnected None) c
  end.

(** [await client.disconnect()] with nothing happening to the object in
  between: [disconnect()] run to its end. *)
Definition disconnect_to_end : M := fun c =>
match _client c with
| Some _ => (disconnect ;; disconnect_resume) c
| None => disconnect c
end.

(** [callTool(toolName, args)] up to its [await]: it throws, or has
    called [this._client.callTool] and waits for it. *)
Inductive CallTool :=
| throws (err : Thrown)
| awaits_client_callTool (client : Client) (toolName : string)
                         (args : list (string * JSValue)).

Definition callTool (toolName : string) (args : list (string * JSValue))
    (c : t) : CallTool :=
  match _client c with
  | None => throws (ErrorObject
      ("LocalClient for endpoint " +:+ endpointId c +:+ " is not connected"))
  | Some client => awaits_client_callTool client toolName args
  end.

(** *** The object over time *)

(** What the environment does to the object. *)
Inductive Signal :=
| settles (r : Settled)        (* the promise connect() awaits *)
| close_settles                (* the close() a disconnect() awaits *)
| timer_fires (timer : nat)
| transport_errors (n : nat) (message : option string)
| transport_closes (n : nat).

Definition signal (s : Signal) : M :=
  match s with
  | settles r => connect_resume r
  | close_settles => disconnect_resume
  | timer_fires timer => timer_callback timer
  | transport_errors n message => _onError n message
  | transport_closes n => _onClose n
  end.

(** What happens to the object: its owner calls a method, or the
    environment signals. *)
Inductive Event :=
| call_connect
| call_disconnect
| from_env (s : Signal).

Definition step (ev : Event) : M :=
  match ev with
  | call_connect => connect
  | call_disconnect => disconnect
  | from_env s => signal s
  end.

Fixpoint run (evs : list Event) : M :=
  match evs with
  | [] => skip
  | ev :: evs => step ev ;; run evs
  end.

(** Projections of a list of calls. *)
Definition delays (out : list Call) : list Z :=
  omap (fun x => match x with setTimeout d => Some d | _ => None end) out.

Definition statuses (out : list Call) : list LocalClientStatus :=
  omap (fun x => match x with onStatusChanged s _ => Some s | _ => None end) out.

(** The event makes the suspended [connect()] pass l.99-100: a transport
    is connected. *)
Definition establishes (ev : Event) (c : t) : bool :=
  match ev, suspended c with
  | from_env (settles (resolved _)), Some (at_connect _)
  | from_env (settles (resolved _)), Some (at_http_post _ _)
  | from_env (settles (resolved _)), Some (at_http_sse _ _) => true
  | _, _ => false
  end.



(** No event of [evs], run from [c], connects a transport. *)
Fixpoint never_established (evs : list Event) (c : t) : bool :=
  match evs with
  | [] => true
  | ev :: evs => negb (establishes ev c) && never_established evs (step ev c).1
  end.

(** What holds of an object whatever happened to it since it was
    constructed: the flag [_connecting] is set exactly while a [connect()]
    is suspended; nothing is closing an object that is not destroyed; an
    object that is not destroyed and has no client is neither connected
    nor discovering tools. *)
Definition invariant (c : t) : Prop :=
  (suspended c <> None <-> _connecting c = true) /\
  (_destroyed c = false -> closing c = 0) /\
  (_destroyed c = false -> _client c = None ->
     _status c <> connected /\ forall tr, suspended c <> Some (at_listTools tr)).

End WithHost.

End LocalClient.

(** Proof steps for the methods of [LocalClient]. *)
Module LocalClientTactics.
Import LocalClient.

(** Unfolds the methods down to the record. *)
Ltac methods :=
  cbv [step signal connect connect_resume connect_catch connect_finally
       established watch suspend _connectHttp _createTransport
       disconnect disconnect_resume disconnect_to_end timer_callback
       _onError _onClose _scheduleReconnect _setStatus callTool falsy
       seq modify call skip
       set_client set_status set_tools set_destroyed set_connecting
       set_reconnectAttempt set_reconnectTimer set_suspended set_closing
       set_handlers set_timers set_allocated
       endpointId config _client _status _tools _destroyed _connecting
       _reconnectAttempt _reconnectTimer suspended closing handlers timers
       allocated negb orb andb fst snd] in *.

(** Splits on whatever a method branches on. *)
Ltac branches :=
  repeat first
    [ progress simpl in *
    | case_bool_decide
    | match goal with
      | |- context [match ?x with _ => _ end] =>
          lazymatch x with
          | context [match _ with _ => _ end] => fail
          | _ => destruct x eqn:?
          end
      end ].

End LocalClientTactics.


(** ** The orchestrator (agent.ts) *)

(** A JavaScript [Map] with string keys, as its entries in insertion
    order. *)
Module Map.

Abbreviation t V := (list (string * V)).

Fixpoint get {V} (k : string) (m : t V) : option V :=
  match m with
  | [] => None
  | (k', v) :: m => if decide (k' = k) then Some v else get k m
  end.

Definition has {V} (k : string) (m : t V) : bool :=
  match get k m with Some _ => true | None => false end.

(** [set] keeps the position of a key that is present and appends one
    that is not. *)
Fixpoint set {V} (k : string) (v : V) (m : t V) : t V :=
  match m with
  | [] => [(k, v)]
  | (k', v') :: m => if decide (k' = k) then (k, v) :: m else (k', v') :: set k v m
  end.

Fixpoint delete {V} (k : string) (m : t V) : t V :=
  match m with
  | [] => []
  | (k', v') :: m => if decide (k' = k) then m else (k', v') :: delete k m
  end.

Definition keys {V} (m : t V) : list string := m.*1.

End Map.

Module McpCentralAgent.

Record ToolCallPayload := {
  callId : string;
  endpointId : string;
  toolName : string;
  args : list (string * JSValue)
}.

(** [_clients], and the [LocalClient] objects constructed so far: the map
    holds references (indices) into [objects].  An object dropped from the
    map stays in [objects]: its suspended methods, timers and observers
    still run, and its callbacks still call the tunnel. *)
Record t := {
  _clients : Map.t nat;
  objects : list LocalClient.t
}.

Definition M := Method t AgentTunnel.Call.

Local Open Scope method_scope.

(** [new McpCentralAgent(config)] *)
Definition create : t := {| _clients := []; objects := [] |}.

Definition set_clients (f : Map.t nat -> Map.t nat) (a : t) : t :=
  {| _clients := f (_clients a); objects := objects a |}.

(** The callbacks [_addEndpoint] gives to the client of [endpoint]
    (l.83-90).  The calls a client makes on its SDK client, transports and
    timers are not calls on the tunnel. *)
Definition callbacks (endpoint : EndpointConfig) (x : LocalClient.Call)
    : list AgentTunnel.Call :=
  match x with
  | LocalClient.onToolsChanged tools =>
      [AgentTunnel.call_announceTools (id endpoint) tools]
  | LocalClient.onStatusChanged status err =>
      [AgentTunnel.call_sendStatusUpdate (id endpoint) status err]
  | _ => []
  end.

(** A method of the object at [ref] runs, its callbacks calling the
    tunnel. *)
Definition on_client (ref : nat) (m : LocalClient.M) : M := fun a =>
  match objects a !! ref with
  | None => skip a
  | Some c =>
      let (c', out) := m c in
      ({| _clients := _clients a; objects := <[ref := c']> (objects a) |},
       out ≫= callbacks (LocalClient.config c))
  end.

Section WithHost.
Context `{Host}.

Definition _removeEndpoint (endpointId : string) : M := fun a =>
  match Map.get endpointId (_clients a) with
  | Some client =>
      (on_client client LocalClient.disconnect ;;
       modify (set_clients (Map.delete endpointId))) a
  | None => skip a
  end.

Definition _addEndpoint (endpoint : EndpointConfig) : M := fun a =>
  if negb (isEnabled endpoint) then skip a
  else
    ((fun a =>
        match Map.get (id endpoint) (_clients a) with
        | Some existing =>
            (on_client existing LocalClient.disconnect ;;
             modify (set_clients (Map.delete (id endpoint)))) a
        | None => skip a
        end) ;;
     (fun a =>
        let client := length (objects a) in
        (modify (fun a => {| _clients := _clients a;
                             objects := objects a ++ [LocalClient.create endpoint] |}) ;;
         modify (set_clients (Map.set (id endpoint) client)) ;;
         on_client client LocalClient.connect) a)) a.

(** The first loop runs over the live key iterator of the map and deletes
    at most the key it is at, which is a loop over the keys the map had
    when it started. *)
Definition _syncEndpoints (endpoints : list EndpointConfig) : M :=
  let incoming := id <$> endpoints in
  (fun a =>
     foreach (Map.keys (_clients a)) (fun id =>
       if bool_decide (id ∈ incoming) then skip else _removeEndpoint id) a) ;;
  foreach endpoints (fun ep =>
    if isEnabled ep then
      (fun a => if Map.has (id ep) (_clients a) then skip a else _addEndpoint ep a)
    else skip).

Definition _toggleEndpoint (endpointId : string) (isEnabled : bool) : M := fun a =>
  let client := Map.get endpointId (_clients a) in
  if negb isEnabled then
    match client with
    | Some client =>
        (on_client client LocalClient.disconnect ;;
         modify (set_clients (Map.delete endpointId)) ;;
         call (AgentTunnel.call_sendStatusUpdate endpointId disconnected None)) a
    | None => skip a
    end
  else
    match client with
    | None => call (AgentTunnel.call_sendStatusUpdate endpointId connecting None) a
    | Some _ => skip a
    end.

Definition _updateEndpoint (endpoint : EndpointConfig) : M :=
  _removeEndpoint (id endpoint) ;;
  (if isEnabled endpoint then _addEndpoint endpoint else skip).

Definition _refreshEndpoint (endpointId : string) : M := fun a =>
  match Map.get endpointId (_clients a) with
  | Some client =>
      match objects a !! client with
      | Some c =>
          (on_client client LocalClient.disconnect ;;
           modify (set_clients (Map.delete endpointId)) ;;
           _addEndpoint (LocalClient.config c)) a
      | None => skip a
      end
  | None => skip a
  end.

(** [_handleToolCall(payload)] up to its [await]: it has answered, or has
    called [client.callTool], which called the SDK client, and waits. *)
Inductive ToolCall :=
| answered (out : list AgentTunnel.Call)
| awaits_callTool (client : LocalClient.Client) (toolName : string)
                  (args : list (string * JSValue)).

Definition _handleToolCall (payload : ToolCallPayload) (a : t) : ToolCall :=
  match Map.get (endpointId payload) (_clients a) ≫= (objects a !!.) with
  | None =>
      answered [AgentTunnel.call_sendToolError (callId payload)
                  ("No local client for endpoint " +:+ endpointId payload)]
  | Some client =>
      if bool_decide (LocalClient._status client ≠ connected) then
        answered [AgentTunnel.call_sendToolError (callId payload)
                    ("Endpoint " +:+ endpointId payload +:+
                     " is not connected (status: " +:+
                     status_string (LocalClient._status client) +:+ ")")]
      else
        match LocalClient.callTool (toolName payload) (args payload) client with
        | LocalClient.throws err =>
            answered [AgentTunnel.call_sendToolError (callId payload)
                        (error_message err)]
        | LocalClient.awaits_client_callTool cl toolName args =>
            awaits_callTool cl toolName args
        end
  end.

(** [_handleToolCall(payload)] after [client.callTool] settled: with a
    result, or with what it threw. *)
Definition _handleToolCall_resume (payload : ToolCallPayload)
    (r : Thrown + JSValue) : list AgentTunnel.Call :=
  match r with
  | inr result => [AgentTunnel.call_sendToolResult (callId payload) result]
  | inl err => [AgentTunnel.call_sendToolError (callId payload) (error_message err)]
  end.

(** *** The orchestrator over time *)

Inductive Event :=
| onEndpoints (endpoints : list EndpointConfig)
| onEndpointAdd (endpoint : EndpointConfig)
| onEndpointRemove (endpointId : string)
| onEndpointToggle (endpointId : string) (isEnabled : bool)
| onEndpointUpdate (endpoint : EndpointConfig)
| onEndpointRefresh (endpointId : string)
| client_signal (ref : nat) (s : LocalClient.Signal).

Definition step (ev : Event) : M :=
  match ev with
  | onEndpoints endpoints => _syncEndpoints endpoints
  | onEndpointAdd endpoint => _addEndpoint endpoint
  | onEndpointRemove endpointId => _removeEndpoint endpointId
  | onEndpointToggle endpointId isEnabled => _toggleEndpoint endpointId isEnabled
  | onEndpointUpdate endpoint => _updateEndpoint endpoint
  | onEndpointRefresh endpointId => _refreshEndpoint endpointId
  | client_signal ref s => on_client ref (LocalClient.signal s)
  end.

Fixpoint run (evs : list Event) : M :=
  match evs with
  | [] => skip
  | ev :: evs => step ev ;; run evs
  end.

(** The ids the map tracks. *)
Definition tracked (a : t) : list string := Map.keys (_clients a).

(** The status updates among calls on the tunnel. *)
Definition status_updates (out : list AgentTunnel.Call)
    : list (string * LocalClientStatus) :=
  omap (fun x =>
    match x with
    | AgentTunnel.call_sendStatusUpdate i s _ => Some (i, s)
    | _ => None
    end) out.

End WithHost.

(** The statements "client.disconnect().catch(() => {});
    this._clients.delete(endpointId)" of l.103-104, 79-80, 113-114 and
    138-139, for the object [client] tracked under [endpointId]. *)
Definition dropped (endpointId : string) (client : nat) : M :=
  (on_client client LocalClient.disconnect ;;
   modify (set_clients (Map.delete endpointId)))%M.

(** The statements of l.83-97: a client is constructed for [endpoint],
    tracked under its id, and asked to connect. *)
Definition added `{Host} (endpoint : EndpointConfig) : M := fun a =>
  let client := length (objects a) in
  (modify (fun a => {| _clients := _clients a;
                       objects := objects a ++ [LocalClient.create endpoint] |}) ;;
   modify (set_clients (Map.set (id endpoint) client)) ;;
   on_client client LocalClient.connect)%M a.

(** What holds of the orchestrator whatever happened since it was
    constructed: no id and no object is tracked twice; a tracked object
    exists, was constructed from an enabled descriptor of the id it is
    tracked under, and is not destroyed; and every object satisfies
    [LocalClient.invariant]. *)
Definition invariant (a : t) : Prop :=
  NoDup (Map.keys (_clients a)) /\
  NoDup (_clients a).*2 /\
  (forall k ref, (k, ref) ∈ _clients a ->
     exists c, objects a !! ref = Some c /\
       id (LocalClient.config c) = k /\
       isEnabled (LocalClient.config c) = true /\
       LocalClient._destroyed c = false) /\
  Forall LocalClient.invariant (objects a).

(** *** The tracked ids according to the specification

    "the ids that are both present and enabled in the most recent
    full-replace plus subsequent add events minus removed/disabled ones";
    an update removes the id and adds it again if the descriptor is
    enabled; a toggle to enabled and a refresh bring no descriptor and add
    nothing. *)
Definition spec_tracked_step (ids : gset string) (ev : Event) : gset string :=
  match ev with
  | onEndpoints endpoints => list_to_set (id <$> filter (fun ep => isEnabled ep = true) endpoints)
  | onEndpointAdd endpoint => if isEnabled endpoint then {[id endpoint]} ∪ ids else ids
  | onEndpointRemove endpointId => ids ∖ {[endpointId]}
  | onEndpointToggle endpointId isEnabled =>
      if isEnabled then ids else ids ∖ {[endpointId]}
  | onEndpointUpdate endpoint =>
      if isEnabled endpoint then {[id endpoint]} ∪ ids else ids ∖ {[id endpoint]}
  | onEndpointRefresh _ => ids
  | client_signal _ _ => ids
  end.

Definition spec_tracked_from (ids : gset string) (evs : list Event) : gset string :=
  foldl spec_tracked_step ids evs.

Definition spec_tracked (evs : list Event) : gset string :=
  spec_tracked_from ∅ evs.

(** The event is not a full replace that lists a disabled descriptor. *)
Definition replaces_enabled_only (ev : Event) : Prop :=
  match ev with
  | onEndpoints endpoints => Forall (fun ep => isEnabled ep = true) endpoints
  | _ => True
  end.

End McpCentralAgent.

(** ** [stop()] (agent.ts l.37-44)

    [stop()] is [async]: it is suspended at [await client.disconnect()],
    once for each client its loop comes to, with the tunnel still open;
    the handlers of the orchestrator and the events of its clients run in
    between, and so may further calls of [stop()].

    The loop runs over the live iterator of the map.  Such an iterator
    goes on, from the entry it is at, with the entries that were appended
    to the map after that one and are still in it.  The map gets its
    entries from [_addEndpoint] only, each with a new object, whose
    reference is larger than every earlier one: the entries that come
    after the entry of [client] are the entries with a larger reference
    than [client]. *)
Module Stop.

(** A suspended [stop()]: the entry [[id, client]] its loop is at, and
    whether the [client.disconnect()] it awaits is itself suspended, at
    [await this._client.close()]. *)
Record Suspended := {
  at_id : string;
  at_client : nat;
  awaits_close : bool
}.

(** The orchestrator and the calls of [stop()] that are suspended. *)
Record t := {
  agent : McpCentralAgent.t;
  stops : list Suspended
}.

Definition M := Method t AgentTunnel.Call.

Local Open Scope method_scope.

Definition create : t := {| agent := McpCentralAgent.create; stops := [] |}.

Definition set_stops (f : list Suspended -> list Suspended) (s : t) : t :=
  {| agent := agent s; stops := f (stops s) |}.

(** A method of the orchestrator runs. *)
Definition on_agent (m : McpCentralAgent.M) : M := fun s =>
  let (a, out) := m (agent s) in
  ({| agent := a; stops := stops s |}, out).

(** [await client.disconnect()] for the entry [[id, client]] the iterator
    yielded: [disconnect()] runs up to its [await], or to its end when the
    client holds no SDK client, and [stop()] is suspended; [keep] says
    where. *)
Definition await_disconnect (id : string) (client : nat)
    (keep : Suspended -> list Suspended -> list Suspended) : M := fun s =>
  let waits :=
    match McpCentralAgent.objects (agent s) !! client with
    | Some c => bool_decide (LocalClient._client c <> None)
    | None => false
    end in
  (on_agent (McpCentralAgent.on_client client LocalClient.disconnect) ;;
   modify (set_stops (keep {| at_id := id; at_client := client;
                              awaits_close := waits |}))) s.

(** [stop()] up to its first [await], or to its end when the map is
    empty. *)
Definition stop : M := fun s =>
  match head (McpCentralAgent._clients (agent s)) with
  | Some (id, client) => await_disconnect id client (fun f l => l ++ [f]) s
  | None => call AgentTunnel.call_disconnect s
  end.

(** The [close()] settles that the [disconnect()] awaits which the
    [i]-th suspended [stop()] awaits: that [disconnect()] goes on to its
    end. *)
Definition disconnect_returns (i : nat) : M := fun s =>
  match stops s !! i with
  | Some f =>
      if awaits_close f then
        (on_agent (McpCentralAgent.on_client (at_client f)
                     LocalClient.disconnect_resume) ;;
         modify (set_stops (<[i := {| at_id := at_id f; at_client := at_client f;
                                      awaits_close := false |}]>))) s
      else skip s
  | None => skip s
  end.

(** The [i]-th suspended [stop()] goes on, the [disconnect()] it awaits
    having returned: it deletes the id it is at, and goes to the next
    entry of the iterator, up to its next [await] or to its end. *)
Definition stop_resume (i : nat) : M := fun s =>
  match stops s !! i with
  | Some f =>
      if awaits_close f then skip s
      else
        (on_agent (modify (McpCentralAgent.set_clients (Map.delete (at_id f)))) ;;
         (fun s =>
            match head (filter (fun kv => at_client f < kv.2)
                          (McpCentralAgent._clients (agent s))) with
            | Some (id, client) =>
                await_disconnect id client (fun f' l => <[i := f']> l) s
            | None =>
                (modify (set_stops (delete i)) ;;
                 call AgentTunnel.call_disconnect) s
            end)) s
  | None => skip s
  end.

(** *** The orchestrator over time, [stop()] included *)

Inductive Event :=
| handles (ev : McpCentralAgent.Event)
| call_stop
| close_settles (i : nat)
| resumes (i : nat).

Definition step `{Host} (ev : Event) : M :=
  match ev with
  | handles ev => on_agent (McpCentralAgent.step ev)
  | call_stop => stop
  | close_settles i => disconnect_returns i
  | resumes i => stop_resume i
  end.

Fixpoint run `{Host} (evs : list Event) : M :=
  match evs with
  | [] => skip
  | ev :: evs => step ev ;; run evs
  end.

(** A [stop()] with nothing happening in between: what it awaits settles
    and it resumes at once, until it returns.  It is the [i]-th suspended
    call; [n] bounds the clients it comes to. *)
Fixpoint finish (n i : nat) : M :=
  match n with
  | 0 => skip
  | S n => disconnect_returns i ;; stop_resume i ;; finish n i
  end.

Definition stop_alone : M := fun s =>
  (stop ;; finish (length (McpCentralAgent._clients (agent s)))
                  (length (stops s))) s.

(** The entry a suspended [stop()] is at. *)
Definition site (f : Suspended) : string * nat := (at_id f, at_client f).

(** The references of the map increase along its entries. *)
Definition increasing (m : Map.t nat) : Prop :=
  StronglySorted (fun kv kv' : string * nat => kv.2 < kv'.2) m.

(** What holds of the orchestrator [a] while calls of [stop()] are
    suspended at the entries [sites]: no id is tracked twice; the
    references of the map increase; a tracked object exists, was
    constructed from an enabled descriptor of the id it is tracked under,
    and is destroyed only if a suspended [stop()] is at it; the client a
    suspended [stop()] is at is destroyed, and every entry of the map up
    to it is the entry it is at. *)
Definition invariant_at (sites : list (string * nat)) (a : McpCentralAgent.t)
    : Prop :=
  NoDup (Map.keys (McpCentralAgent._clients a)) /\
  increasing (McpCentralAgent._clients a) /\
  (forall k ref, (k, ref) ∈ McpCentralAgent._clients a ->
     exists c, McpCentralAgent.objects a !! ref = Some c /\
       id (LocalClient.config c) = k /\
       isEnabled (LocalClient.config c) = true /\
       (LocalClient._destroyed c = true -> exists k', (k', ref) ∈ sites)) /\
  (forall k' r, (k', r) ∈ sites ->
     (exists c, McpCentralAgent.objects a !! r = Some c /\
        LocalClient._destroyed c = true) /\
     (forall k ref, (k, ref) ∈ McpCentralAgent._clients a ->
        ref <= r -> k = k' /\ ref = r)).

Definition invariant (s : t) : Prop :=
  invariant_at (site <$> stops s) (agent s).

(** What a [disconnect()] that ran to its end leaves of an object. *)
Definition gone (c : LocalClient.t) : Prop :=
  LocalClient._destroyed c = true /\ LocalClient._status c = disconnected /\
  LocalClient._client c = None.

End Stop.

(** ** Concrete data for the examples *)

Module Examples.

(** A host with an empty environment whose [URL] accepts every string. *)
Definition host : Host := {| process_env := ∅; new_URL := fun s => Some s |}.

Definition endpoint (i : string) (kind : TransportKind) (enabled : bool)
    : EndpointConfig :=
  {| id := i; name := i; namespace := "ns"; transport := kind;
     url := Some "http://localhost:3000/mcp"; command := Some "server";
     args := []; env := ∅; headers := []; isEnabled := enabled |}.

Definition boom : Thrown := ErrorObject "boom".

Definition echo_call : McpCentralAgent.ToolCallPayload :=
  {| McpCentralAgent.callId := "call-1"; McpCentralAgent.endpointId := "x";
     McpCentralAgent.toolName := "echo"; McpCentralAgent.args := [] |}.

End Examples.


(** ** The rest of the three classes *)

(** [AgentTunnel.connect()], l.40-42: the address the socket is opened
    on. *)
Module AgentTunnelConnect.

(** [serverUrl.replace(/\/$/, "")]: the pattern matches one slash at the
    very end of the string. *)
Fixpoint strip_trailing_slash (s : string) : string :=
  match s with
  | EmptyString => EmptyString
  | String c rest =>
      match rest with
      | EmptyString => if bool_decide (s = "/") then EmptyString else s
      | String _ _ => String c (strip_trailing_slash rest)
      end
  end.

(** [`${url}/agent-tunnel`] *)
Definition namespace_url (serverUrl : string) : string :=
  strip_trailing_slash serverUrl +:+ "/agent-tunnel".

End AgentTunnelConnect.

(** Vocabulary for the properties of [LocalClient]. *)
Module LocalClientCases.
Import LocalClient.

(** The descriptor lacks the field its transport needs: the [!command]
    and [!url] tests of [_createTransport] and [_connectHttp]. *)
Definition incomplete (cfg : EndpointConfig) : bool :=
  match transport cfg with
  | stdio => falsy (command cfg)
  | streamable_http | sse => falsy (url cfg)
  end.

(** The field the transport of the descriptor needs. *)
Definition needed_field (cfg : EndpointConfig) : option string :=
  match transport cfg with
  | stdio => command cfg
  | streamable_http | sse => url cfg
  end.

(** The message of the [Error] thrown for such a descriptor. *)
Definition incomplete_message (cfg : EndpointConfig) : string :=
  match transport cfg with
  | stdio => "stdio endpoint " +:+ id cfg +:+ " has no command"
  | streamable_http => "streamable-http endpoint " +:+ id cfg +:+ " has no URL"
  | sse => "sse endpoint " +:+ id cfg +:+ " has no URL"
  end.

(** The transport [connect()] first connects the client over, for a
    descriptor whose field is [field] and parses to [parsed] when it is a
    url. *)
Definition first_transport `{Host} (cfg : EndpointConfig) (field parsed : string)
    : Transport :=
  match transport cfg with
  | stdio => StdioClientTransport field (args cfg) (spread process_env (env cfg))
  | streamable_http => StreamableHTTPClientTransport parsed (headers cfg)
  | sse => SSEClientTransport parsed (headers cfg)
  end.

(** What holds of an object on which [connect()] is called once, when it
    is constructed, as the orchestrator does: at most one timer is set,
    [_reconnectTimer] holds it, and then the object is in [error], not
    connecting and not destroyed; the object is not connected while it is
    connecting; and unless it is destroyed it has tools only when it is
    connected. *)
Definition owned (c : t) : Prop :=
  invariant c /\
  ((timers c = [] /\ _reconnectTimer c = None) \/
   (exists timer delay,
      timers c = [(timer, delay)] /\ _reconnectTimer c = Some timer /\
      _status c = error /\ _connecting c = false /\ _destroyed c = false)) /\
  (_connecting c = true -> _status c <> connected) /\
  (_destroyed c = false -> _status c <> connected -> _tools c = []).

(** The event is the observer [h] being called by its transport. *)
Definition fires (h : nat * Handler) (ev : Event) : bool :=
  match ev, h.2 with
  | from_env (transport_errors n _), onerror => bool_decide (n = h.1)
  | from_env (transport_closes n), onclose => bool_decide (n = h.1)
  | _, _ => false
  end.

(** The timer [_reconnectTimer] holds fires. *)
Definition pending_timer_fires `{Host} : M := fun c =>
  match _reconnectTimer c with
  | Some timer => timer_callback timer c
  | None => skip c
  end.

(** One retry: the timer fires, and the [connect()] its callback calls
    resumes with [r] if it is suspended. *)
Definition retry `{Host} (r : Settled) : M :=
  (pending_timer_fires ;; connect_resume r)%M.

(** [n] retries in a row. *)
Fixpoint retries `{Host} (r : Settled) (n : nat) : M :=
  match n with
  | 0 => skip
  | S n => (retry r ;; retries r n)%M
  end.

End LocalClientCases.

(** Vocabulary for the properties of [McpCentralAgent]. *)
Module McpCentralAgentCases.
Import McpCentralAgent.

(** The state a method leaves is related by [R] to the state it started
    from. *)
Definition respects (R : t -> t -> Prop) (m : M) : Prop :=
  forall a, R a (m a).1.

(** If [P] holds of every object of [a], it holds of every object of
    [a']. *)
Definition keeps (P : LocalClient.t -> Prop) (a a' : t) : Prop :=
  Forall P (objects a) -> Forall P (objects a').

(** Every object of [a] is an object of [a'], under the same reference,
    with the same descriptor, and destroyed if it was. *)
Definition extends (a a' : t) : Prop :=
  forall ref c, objects a !! ref = Some c ->
    exists c', objects a' !! ref = Some c' /\
      LocalClient.config c' = LocalClient.config c /\
      (LocalClient._destroyed c = true -> LocalClient._destroyed c' = true).

(** The endpoint id an event names, if it names one. *)
Definition subject (ev : Event) : option string :=
  match ev with
  | onEndpoints _ => None
  | onEndpointAdd endpoint => Some (id endpoint)
  | onEndpointRemove endpointId => Some endpointId
  | onEndpointToggle endpointId _ => Some endpointId
  | onEndpointUpdate endpoint => Some (id endpoint)
  | onEndpointRefresh endpointId => Some endpointId
  | client_signal _ _ => None
  end.

(** The object a tool call for [endpointId] is routed to:
    [this._clients.get(endpointId)]. *)
Definition routed (endpointId : string) (a : t) : option LocalClient.t :=
  Map.get endpointId (_clients a) ≫= (objects a !!.).

End McpCentralAgentCases.

(** The orchestrator with its tunnel: what the orchestrator calls on the
    tunnel is performed on it. *)
Module System.

Record t := {
  orchestrator : Stop.t;
  tunnel : AgentTunnel.t
}.

Definition deliver (out : list AgentTunnel.Call) (tn : AgentTunnel.t)
    : AgentTunnel.t :=
  foldl (fun tn x => AgentTunnel.perform x tn) tn out.

Definition handle (m : Stop.M) (s : t) : t :=
  let (o, out) := m (orchestrator s) in
  {| orchestrator := o; tunnel := deliver out (tunnel s) |}.

Definition run `{Host} (evs : list Stop.Event) : t -> t :=
  handle (Stop.run evs).

End System.

(** Further data for the examples. *)
Module MoreData.

(** A stdio descriptor without command. *)
Definition no_command (i : string) : EndpointConfig :=
  {| id := i; name := i; namespace := "ns"; transport := stdio;
     url := None; command := None;
     args := []; env := ∅; headers := []; isEnabled := true |}.

(** A streamable-http descriptor without url. *)
Definition no_url (i : string) : EndpointConfig :=
  {| id := i; name := i; namespace := "ns"; transport := streamable_http;
     url := None; command := None;
     args := []; env := ∅; headers := []; isEnabled := true |}.

Definition call_for (i : string) : McpCentralAgent.ToolCallPayload :=
  {| McpCentralAgent.callId := "call-2"; McpCentralAgent.endpointId := i;
     McpCentralAgent.toolName := "echo"; McpCentralAgent.args := [] |}.

End MoreData.

(** * Properties *)

(** ** Methods *)

Lemma seq_fst {S O} (f g : Method S O) (s : S) :
  (seq f g s).1 = (g (f s).1).1.
Proof. unfold seq. destruct (f s) as [s1 o1]. simpl. by destruct (g s1). Qed.

Lemma seq_snd {S O} (f g : Method S O) (s : S) :
  (seq f g s).2 = (f s).2 ++ (g (f s).1).2.
Proof. unfold seq. destruct (f s) as [s1 o1]. simpl. by destruct (g s1). Qed.

Lemma seq_assoc {S O} (f g h : Method S O) (s : S) :
  seq (seq f g) h s = seq f (seq g h) s.
Proof.
  unfold seq. destruct (f s) as [s1 o1], (g s1) as [s2 o2], (h s2) as [s3 o3].
  by rewrite app_assoc.
Qed.

(** ** The control channel *)

Module AgentTunnelProofs.
Import AgentTunnel.

Lemma trim_lookup (tl : Tool) (k : string) :
trim tl !! k =
  if decide (k = "name") then Some (prop tl "name")
  else if decide (k = "description") then Some (prop tl "description")
  else if decide (k = "inputSchema") then Some (prop tl "inputSchema")
  else None.
Proof.
unfold trim.
repeat (rewrite lookup_insert; case_decide; subst; [by repeat case_decide|]).
rewrite lookup_empty. by repeat case_decide.
Qed.

Lemma trim_dom (tl : Tool) :
dom (trim tl) = ({["name"; "description"; "inputSchema"]} : gset string).
Proof. unfold trim. rewrite !dom_insert_L, dom_empty_L. set_solver. Qed.

(** C9.  Whatever the endpoint id, the tools and what the socket emitted
    before, [announceTools] emits one [toolsAnnounce] event for that
    endpoint, carrying one object per tool, in order, each with exactly the
    three properties [name], [description] and [inputSchema], read from the
    tool; without a socket it emits nothing. *)
Theorem C9_announceTools_trims (endpointId : string) (tools : list Tool)
    (sent : list Emitted) :
  exists trimmed : list Tool,
    emitted_by (announceTools endpointId tools) sent
      = [toolsAnnounce endpointId trimmed] /\
    Forall2 (fun tl tl' =>
      dom tl' = ({["name"; "description"; "inputSchema"]} : gset string) /\
      tl' !! "name" = Some (prop tl "name") /\
      tl' !! "description" = Some (prop tl "description") /\
      tl' !! "inputSchema" = Some (prop tl "inputSchema")) tools trimmed /\
    _socket (announceTools endpointId tools {| _socket := None |}) = None.
Proof.
  exists (trim <$> tools). split; [|split; [|done]].
  - unfold emitted_by, announceTools, emit. simpl. by rewrite drop_app_length.
  - apply Forall2_fmap_r, Forall_Forall2_diag, Forall_forall.
    intros tl _. simpl. rewrite trim_dom, !trim_lookup. done.
Qed.

End AgentTunnelProofs.

(** ** One downstream connection *)

Module LocalClientProofs.
Import LocalClient LocalClientTactics.

(** *** The reconnect schedule *)

Lemma reconnect_delay_from_4 (n : nat) : reconnect_delay (4 + n) = 30000%Z.
Proof.
  unfold reconnect_delay. simpl length.
  by replace (Nat.min (4 + n) (5 - 1)) with 4 by lia.
Qed.

Lemma reconnect_delay_S (n : nat) :
  (reconnect_delay n <= reconnect_delay (S n))%Z.
Proof.
  destruct n as [|[|[|[|n]]]]; try (vm_compute; congruence).
  change (S (S (S (S (S n))))) with (4 + S n).
  change (S (S (S (S n)))) with (4 + n).
  by rewrite !reconnect_delay_from_4.
Qed.

Lemma reconnect_delay_mono (n m : nat) :
  n <= m -> (reconnect_delay n <= reconnect_delay m)%Z.
Proof.
  induction 1 as [|m _ IH]; [lia|].
  etrans; [apply IH | apply reconnect_delay_S].
Qed.

Lemma reconnect_delay_bound (n : nat) : (reconnect_delay n <= 30000)%Z.
Proof.
  destruct (decide (n <= 4)) as [?|?].
  - etrans; [by apply reconnect_delay_mono|]. vm_compute. congruence.
  - replace n with (4 + (n - 4)) by lia. by rewrite reconnect_delay_from_4.
Qed.

Lemma reconnect_delay_index (n : nat) :
  RECONNECT_DELAYS !! Nat.min n 4 = Some (reconnect_delay n).
Proof.
  destruct (decide (n <= 4)) as [?|?].
  - by destruct n as [|[|[|[|[|n]]]]]; [..|lia].
  - replace n with (4 + (n - 4)) at 2 by lia. rewrite reconnect_delay_from_4.
    by replace (Nat.min n 4) with 4 by lia.
Qed.

Section WithHost.
Context `{Host}.

Lemma run_app (evs1 evs2 : list Event) (c : t) :
  run (evs1 ++ evs2) c =
    let (c1, out1) := run evs1 c in
    let (c2, out2) := run evs2 c1 in
    (c2, out1 ++ out2).
Proof.
  revert c. induction evs1 as [|ev evs1 IH]; intros c; simpl.
  - unfold skip. by destruct (run evs2 c).
  - unfold seq. destruct (step ev c) as [c0 out0]. rewrite IH.
    destruct (run evs1 c0) as [c1 out1], (run evs2 c1) as [c2 out2].
    by rewrite app_assoc.
Qed.

Lemma delays_app (out1 out2 : list Call) :
  delays (out1 ++ out2) = delays out1 ++ delays out2.
Proof. apply omap_app. Qed.

(** [_scheduleReconnect] on an object that is not destroyed: the delay is
    the entry of the schedule at the attempt, and the attempt goes up by
    one. *)
Lemma _scheduleReconnect_spec (c : t) :
  _destroyed c = false ->
  (_scheduleReconnect c).2 = [setTimeout (reconnect_delay (_reconnectAttempt c))] /\
  _reconnectAttempt (_scheduleReconnect c).1 = S (_reconnectAttempt c) /\
  _reconnectTimer (_scheduleReconnect c).1 = Some (allocated c).
Proof. destruct c; methods; intros ->; done. Qed.

(** Every event either sets no timer, the attempt staying as it is unless
    the event connects a transport, which resets it; or sets one timer,
    with the delay of the attempt, which then goes up by one. *)
Lemma step_attempt (ev : Event) (c : t) :
  (delays (step ev c).2 = [] /\
   _reconnectAttempt (step ev c).1 =
     if establishes ev c then 0 else _reconnectAttempt c) \/
  (establishes ev c = false /\
   delays (step ev c).2 = [reconnect_delay (_reconnectAttempt c)] /\
   _reconnectAttempt (step ev c).1 = S (_reconnectAttempt c)).
Proof.
  destruct c, ev as [| |[[?|?]| | | |]]; unfold establishes; methods;
    branches; auto.
Qed.

(** *** What holds of every object *)

Lemma create_invariant (cfg : EndpointConfig) : invariant (create cfg).
Proof. unfold invariant. simpl. naive_solver. Qed.

Lemma step_invariant (ev : Event) (c : t) :
  invariant c -> invariant (step ev c).1.
Proof.
  destruct c, ev as [| |[[?|?]| | | |]]; unfold invariant; methods;
    intros (Hflag & Hclosing & Hclient); branches;
    repeat split; intros; simplify_eq; try (intuition congruence).
Qed.

Lemma run_invariant (evs : list Event) (c : t) :
  invariant c -> invariant (run evs c).1.
Proof.
  revert c. induction evs as [|ev evs IH]; intros c Hc; [done|].
  simpl. rewrite seq_fst. by apply IH, step_invariant.
Qed.

Lemma step_config (ev : Event) (c : t) :
  endpointId (step ev c).1 = endpointId c /\ config (step ev c).1 = config c.
Proof.
  destruct c, ev as [| |[[?|?]| | | |]]; methods; branches; auto.
Qed.

Lemma run_config (evs : list Event) (c : t) :
  endpointId (run evs c).1 = endpointId c /\ config (run evs c).1 = config c.
Proof.
  revert c. induction evs as [|ev evs IH]; intros c; [done|].
  simpl. rewrite seq_fst. destruct (IH (step ev c).1) as [-> ->].
  apply step_config.
Qed.

(** *** A destroyed object *)

Lemma connect_destroyed (c : t) : _destroyed c = true -> connect c = (c, []).
Proof. intros Hd. unfold connect. by rewrite Hd. Qed.

(** On a destroyed object no event clears the flag or sets a timer. *)
Lemma step_destroyed (ev : Event) (c : t) :
  _destroyed c = true ->
  _destroyed (step ev c).1 = true /\ delays (step ev c).2 = [].
Proof.
  destruct c, ev as [| |[[?|?]| | | |]]; methods; intros ->; branches; auto.
Qed.

Lemma run_destroyed (evs : list Event) (c : t) :
  _destroyed c = true ->
  _destroyed (run evs c).1 = true /\ delays (run evs c).2 = [].
Proof.
  revert c. induction evs as [|ev evs IH]; intros c Hc; [done|].
  simpl. rewrite seq_fst, seq_snd, delays_app.
  destruct (step_destroyed ev c Hc) as [Hd ->].
  by destruct (IH _ Hd) as [-> ->].
Qed.

(** *** Delays over a run *)

Lemma run_delays_bound (evs : list Event) (c : t) :
  Forall (fun d => (d <= 30000)%Z) (delays (run evs c).2).
Proof.
  revert c. induction evs as [|ev evs IH]; intros c; [by constructor|].
  simpl. rewrite seq_snd, delays_app. apply Forall_app. split; [|apply IH].
  destruct (step_attempt ev c) as [[-> _]|(_ & -> & _)]; [by constructor|].
  repeat constructor. apply reconnect_delay_bound.
Qed.

Lemma run_delays_sorted (evs : list Event) (c : t) :
  never_established evs c = true ->
  Sorted Z.le (delays (run evs c).2) /\
  Forall (fun d => (reconnect_delay (_reconnectAttempt c) <= d)%Z)
         (delays (run evs c).2).
Proof.
  revert c. induction evs as [|ev evs IH]; intros c Hne; [by split; constructor|].
  simpl in Hne. apply andb_true_iff in Hne as [Hev Hne].
  apply negb_true_iff in Hev.
  simpl. rewrite seq_snd, delays_app.
  destruct (IH _ Hne) as [Hsorted Hfrom].
  destruct (step_attempt ev c) as [[-> Ha]|(_ & -> & Ha)].
  - rewrite Hev in Ha. by rewrite Ha in Hfrom.
  - rewrite Ha in Hfrom. simpl.
    assert (Forall (fun d => (reconnect_delay (_reconnectAttempt c) <= d)%Z)
              (delays (run evs (step ev c).1).2)) as Hfrom'.
    { eapply Forall_impl; [exact Hfrom|]. simpl. intros d Hd.
      etrans; [apply reconnect_delay_S|exact Hd]. }
    split.
    + constructor; [done|]. destruct Hfrom'; by constructor.
    + by constructor.
Qed.

(** *** The client handle *)


(** *** [disconnect()] *)

(** After a [disconnect()] has run to its end, one more [disconnect()]
    leaves the object as it is and calls [onStatusChanged] once more. *)
Lemma disconnect_again (c : t) :
  let c1 := (disconnect_to_end c).1 in
  statuses (disconnect_to_end c).2 = [disconnected] /\
  disconnect c1 = (c1, [onStatusChanged disconnected None]).
Proof. destruct c; methods; branches; auto. Qed.

(** *** The claims about one connection *)

(** C10.  While the flag [_connecting] is set, [connect()] returns at once:
    it leaves the whole object as it is, so the status, the tool list, the
    client handle and the reconnect counter too, and calls nothing. *)
Theorem C10_connect_while_connecting (c : t) :
  _connecting c = true ->
  connect c = (c, []) /\
  _status (connect c).1 = _status c /\
  _tools (connect c).1 = _tools c /\
  _client (connect c).1 = _client c /\
  _reconnectAttempt (connect c).1 = _reconnectAttempt c.
Proof.
  intros Hc. assert (connect c = (c, [])) as ->; [|done].
  unfold connect. rewrite Hc. by destruct (_destroyed c).
Qed.

(** The flag is set exactly while a [connect()] is in progress. *)
Lemma connecting_while_suspended (cfg : EndpointConfig) (evs : list Event) :
  let c := (run evs (create cfg)).1 in
  suspended c <> None <-> _connecting c = true.
Proof. apply run_invariant, create_invariant. Qed.

(** C4, as the code has it.  Each scheduling takes the delay at index
    [min(reconnectAttempt, 4)] of the schedule and then increments
    [reconnectAttempt]; no delay of any run exceeds 30 seconds; over a run
    in which no transport is connected the delays are non-decreasing; and
    the event that connects a transport resets [reconnectAttempt] to 0,
    before tool discovery, whether or not discovery then succeeds. *)
Theorem C4_reconnect_delays (c : t) (evs : list Event) :
  (_destroyed c = false ->
     (_scheduleReconnect c).2 = [setTimeout (reconnect_delay (_reconnectAttempt c))] /\
     RECONNECT_DELAYS !! Nat.min (_reconnectAttempt c) 4
       = Some (reconnect_delay (_reconnectAttempt c)) /\
     _reconnectAttempt (_scheduleReconnect c).1 = S (_reconnectAttempt c)) /\
  Forall (fun d => (d <= 30000)%Z) (delays (run evs c).2) /\
  (never_established evs c = true -> Sorted Z.le (delays (run evs c).2)) /\
  (forall ev, establishes ev c = true ->
     _reconnectAttempt (step ev c).1 = 0 /\ delays (step ev c).2 = []).
Proof.
  split; [|split; [|split]].
  - intros Hd. destruct (_scheduleReconnect_spec c Hd) as (? & ? & _).
    auto using reconnect_delay_index.
  - apply run_delays_bound.
  - intros Hne. by apply run_delays_sorted.
  - intros ev Hev.
    destruct (step_attempt ev c) as [[? Ha]|(He & _)]; [|congruence].
    by rewrite Ha, Hev.
Qed.

(** C5.  A [connect()] of a streamable-http endpoint whose url is set and
    parses first connects the client over a streamable HTTP transport; if
    that fails, it closes that transport and the client and connects it
    over an SSE transport with the same url and headers; if that succeeds
    and tools are listed, the object is connected and holds the client of
    the SSE transport; if it fails too, the object goes to [error] with
    the message of the second failure and schedules a reconnect. *)
Theorem C5_http_stream_fallback (c : t) (u parsedUrl : string) :
  transport (config c) = streamable_http ->
  url (config c) = Some u -> u <> "" -> new_URL u = Some parsedUrl ->
  _destroyed c = false -> _connecting c = false ->
  let post := StreamableHTTPClientTransport parsedUrl (headers (config c)) in
  let get := SSEClientTransport parsedUrl (headers (config c)) in
  (connect c).2 = [onStatusChanged connecting None; client_connect post] /\
  (forall e1 r,
     (run [call_connect; from_env (settles (rejected e1)); from_env (settles r)] c).2
     = [onStatusChanged connecting None; client_connect post;
        transport_close post; client_close; client_connect get]) /\
  (forall e1 r r' response_tools,
     let fallback :=
       run [call_connect; from_env (settles (rejected e1)); from_env (settles r);
            from_env (settles (resolved r'));
            from_env (settles (resolved response_tools))] c in
     fallback.2
     = [onStatusChanged connecting None; client_connect post;
        transport_close post; client_close; client_connect get;
        client_listTools; onStatusChanged connected None;
        onToolsChanged (default [] response_tools)] /\
     _status fallback.1 = connected /\
     _client fallback.1
     = Some {| clientName := "mcp-central-agent:" +:+ namespace (config c);
               connectedOver := get |}) /\
  (forall e1 r e2 r',
     let failed :=
       run [call_connect; from_env (settles (rejected e1)); from_env (settles r);
            from_env (settles (rejected e2)); from_env (settles r')] c in
     failed.2
     = [onStatusChanged connecting None; client_connect post;
        transport_close post; client_close; client_connect get;
        transport_close get; client_close;
        onStatusChanged error (Some (error_message e2));
        setTimeout (reconnect_delay (_reconnectAttempt c))] /\
     _status failed.1 = error).
Proof.
  destruct c as [? cfg ? ? ? destroyed connecting_flag ? ? ? ? ? ? ?]. simpl.
  intros Htr Hurl Hu Hparse -> ->.
  unfold run. methods. rewrite Htr, Hurl. simpl.
  rewrite bool_decide_eq_false_2, Hparse by done. simpl.
  repeat split; intros; by repeat case_match.
Qed.



End WithHost.

End LocalClientProofs.

(** ** Instances on concrete connections *)

Module LocalClientExamples.
Import LocalClient LocalClientProofs Examples.

Lemma C10_connect_while_connecting_witness :
  let c := (@connect host (create (endpoint "a" stdio true))).1 in
  _connecting c = true /\ @connect host c = (c, []).
Proof.
  intros c. split; [reflexivity|].
  destruct (@C10_connect_while_connecting host c) as [Hsame _];
    [reflexivity|exact Hsame].
Defined.

(** C3, at the input where it fails: a [connect()] is suspended at
    [client.connect] when [disconnect()] runs.  The object is then
    destroyed and disconnected; when the transport connects and the tools
    are listed, the suspended [connect()] sets it to [connected], and had
    the connection failed, to [error]. *)
Theorem C3_suspended_connect_leaves_disconnected :
  let c1 := (@run host [call_connect; call_disconnect]
               (create (endpoint "a" stdio true))).1 in
  let c2 := @run host [from_env (settles (resolved None));
                       from_env (settles (resolved (Some [])))] c1 in
  let c2' := @run host [from_env (settles (rejected boom))] c1 in
  (_destroyed c1 = true /\ _status c1 = disconnected) /\
  (_destroyed c2.1 = true /\ _status c2.1 = connected /\
   c2.2 = [client_listTools; onStatusChanged connected None; onToolsChanged []]) /\
  (_destroyed c2'.1 = true /\ _status c2'.1 = error /\
   c2'.2 = [onStatusChanged error (Some "boom")]).
Proof. vm_compute. done. Qed.

(** Three connects fail in a row, the third at tool discovery, after its
    transport connected: the delays are 1s, 2s and 1s again. *)
Lemma C4_delay_decreases :
  let out := (@run host
    [call_connect; from_env (settles (rejected boom));
     from_env (timer_fires 0); from_env (settles (rejected boom));
     from_env (timer_fires 1); from_env (settles (resolved None));
     from_env (settles (rejected boom))]
    (create (endpoint "a" stdio true))).2 in
  statuses out = [connecting; error; connecting; error; connecting; error] /\
  delays out = [1000; 2000; 1000]%Z /\
  ~ Sorted Z.le (delays out).
Proof.
  vm_compute. split; [done|]. split; [done|].
  intros Hs. inversion Hs as [|? ? Hs' _]. inversion Hs' as [|? ? _ Hhd].
  inversion Hhd as [|? ? Hle]. by apply Hle.
Qed.

Lemma C4_reconnect_delays_witness :
  let c := create (endpoint "a" stdio true) in
  let evs := [call_connect; from_env (settles (rejected boom));
              from_env (timer_fires 0); from_env (settles (rejected boom))] in
  @never_established host evs c = true /\
  delays (@run host evs c).2 = [1000; 2000]%Z /\
  Sorted Z.le (delays (@run host evs c).2).
Proof.
  intros c evs. split; [reflexivity|]. split; [reflexivity|].
  destruct (@C4_reconnect_delays host c evs) as (_ & _ & Hsorted & _).
  apply Hsorted. reflexivity.
Defined.

Lemma C5_http_stream_fallback_witness :
  let c := create (endpoint "h" streamable_http true) in
  _status (@run host
    [call_connect; from_env (settles (rejected boom));
     from_env (settles (resolved None)); from_env (settles (resolved None));
     from_env (settles (resolved (Some [])))] c).1 = connected.
Proof.
  intros c.
  destruct (@C5_http_stream_fallback host c
              "http://localhost:3000/mcp" "http://localhost:3000/mcp")
    as (_ & _ & Hfallback & _); [reflexivity || discriminate..|].
  apply (Hfallback boom (resolved None) None (Some [])).
Defined.


(** A [connect()] is in flight when [disconnect()] is called; when its
    transport connects, the destroyed object stores the client, and
    [callTool] calls it. *)
Lemma C6_callTool_after_disconnect :
  let c := (@run host
    [call_connect; call_disconnect; from_env (settles (resolved None))]
    (create (endpoint "a" stdio true))).1 in
  _destroyed c = true /\
  callTool "echo" [] c
  = awaits_client_callTool
      {| clientName := "mcp-central-agent:ns";
         connectedOver := StdioClientTransport "server" [] ∅ |} "echo" [].
Proof. vm_compute. done. Qed.


End LocalClientExamples.

(** ** The orchestrator *)

Module MapProofs.

Lemma filter_all {A} (P : A -> Prop) `{forall x, Decision (P x)} (l : list A) :
  Forall P l -> filter P l = l.
Proof.
  induction 1 as [|x l Hx _ IH]; [done|].
  by rewrite filter_cons_True, IH.
Qed.

Lemma get_None {V} (k : string) (m : Map.t V) :
  Map.get k m = None <-> k ∉ Map.keys m.
Proof.
  unfold Map.keys. induction m as [|[k' v] m IH]; simpl.
  - split; [intros _; apply not_elem_of_nil|done].
  - rewrite not_elem_of_cons. case_decide; naive_solver.
Qed.

Lemma get_Some {V} (k : string) (v : V) (m : Map.t V) :
  NoDup (Map.keys m) -> Map.get k m = Some v <-> (k, v) ∈ m.
Proof.
  unfold Map.keys. induction m as [|[k' v'] m IH]; simpl; intros Hnd.
  - split; [done|]. by intros ?%elem_of_nil.
  - apply NoDup_cons in Hnd as [Hk' Hnd]. rewrite elem_of_cons.
    case_decide as Hk; subst.
    + split; [naive_solver|]. intros [?|Hin]; [naive_solver|].
      destruct Hk'. apply list_elem_of_fmap. by exists (k, v).
    + rewrite (IH Hnd). naive_solver.
Qed.

Lemma delete_filter {V} (k : string) (m : Map.t V) :
  NoDup (Map.keys m) -> Map.delete k m = filter (fun kv => kv.1 ≠ k) m.
Proof.
  unfold Map.keys. induction m as [|[k' v'] m IH]; intros Hnd; [done|].
  rewrite fmap_cons in Hnd. apply NoDup_cons in Hnd as [Hk' Hnd].
  rewrite filter_cons. cbn [Map.delete fst]. case_decide as Hk; subst.
  - rewrite decide_False by (intros Hne; by apply Hne).
    symmetry. apply filter_all, Forall_forall. intros [k1 v1] Hin Heq.
    simpl in Heq. subst k1.
    destruct Hk'. apply list_elem_of_fmap. by exists (k, v1).
  - rewrite decide_True by done. by rewrite IH.
Qed.

Lemma set_fresh {V} (k : string) (v : V) (m : Map.t V) :
  k ∉ Map.keys m -> Map.set k v m = m ++ [(k, v)].
Proof.
  unfold Map.keys. induction m as [|[k' v'] m IH]; simpl; [done|].
  rewrite not_elem_of_cons. intros [Hk Hm].
  rewrite decide_False by done. by rewrite IH.
Qed.

End MapProofs.

Module McpCentralAgentProofs.
Import McpCentralAgent LocalClientTactics.

Lemma NoDup_fmap_filter {A B} (f : A -> B) (P : A -> Prop)
    `{forall x, Decision (P x)} (l : list A) :
  NoDup (f <$> l) -> NoDup (f <$> filter P l).
Proof.
  induction l as [|x l IH]; [done|].
  rewrite fmap_cons. intros [Hx Hl]%NoDup_cons.
  rewrite filter_cons. case_decide; [|by apply IH].
  rewrite fmap_cons. apply NoDup_cons. split; [|by apply IH].
  intros (y & Hy & Hin%list_elem_of_filter)%list_elem_of_fmap.
  apply Hx, list_elem_of_fmap. exists y. naive_solver.
Qed.

(** The calls of a [disconnect()] that reach the tunnel: one status
    update when the object has no client, none before [close()] settles
    when it has one. *)
Lemma disconnect_callbacks `{Host} (cfg : EndpointConfig) (c : LocalClient.t) :
  (LocalClient.disconnect c).2 ≫= callbacks cfg =
    match LocalClient._client c with
    | None => [AgentTunnel.call_sendStatusUpdate (id cfg) disconnected None]
    | Some _ => []
    end.
Proof. destruct c. methods. branches; done. Qed.

Lemma disconnect_resume_callbacks `{Host} (cfg : EndpointConfig) (c : LocalClient.t) :
  LocalClient._client c <> None ->
  (LocalClient.disconnect_resume (LocalClient.disconnect c).1).2 ≫= callbacks cfg
  = [AgentTunnel.call_sendStatusUpdate (id cfg) disconnected None].
Proof.
  destruct c. methods. intros Hc.
  branches; done.
Qed.

Lemma disconnect_destroyed `{Host} (c : LocalClient.t) :
  LocalClient._destroyed (LocalClient.disconnect c).1 = true.
Proof. destruct c. methods. branches; done. Qed.

(** Signals and [connect()] leave the flag [_destroyed] as it is. *)
Lemma signal_destroyed `{Host} (s : LocalClient.Signal) (c : LocalClient.t) :
  LocalClient._destroyed (LocalClient.signal s c).1 = LocalClient._destroyed c.
Proof.
  destruct c, s as [[?|?]| | | |]; methods;
    branches; done.
Qed.

Lemma connect_keeps_destroyed `{Host} (c : LocalClient.t) :
  LocalClient._destroyed (LocalClient.connect c).1 = LocalClient._destroyed c.
Proof. destruct c. methods. branches; done. Qed.

Section WithHost.
Context `{Host}.

Local Open Scope method_scope.

Lemma on_client_spec (ref : nat) (m : LocalClient.M) (a : t) (c : LocalClient.t) :
  objects a !! ref = Some c ->
  on_client ref m a =
    ({| _clients := _clients a; objects := <[ref := (m c).1]> (objects a) |},
     (m c).2 ≫= callbacks (LocalClient.config c)).
Proof. unfold on_client. intros ->. by destruct (m c). Qed.

Lemma invariant_lookup (a : t) (k : string) (ref : nat) :
  invariant a -> Map.get k (_clients a) = Some ref ->
  exists c, objects a !! ref = Some c /\
    id (LocalClient.config c) = k /\
    isEnabled (LocalClient.config c) = true /\
    LocalClient._destroyed c = false /\
    LocalClient.invariant c.
Proof.
  intros (Hk & _ & Hobj & Hinv) Hget. apply MapProofs.get_Some in Hget; [|done].
  destruct (Hobj _ _ Hget) as (c & Hc & ? & ? & ?). exists c.
  repeat (split; [done|]). eapply Forall_lookup_1; eauto.
Qed.

Lemma NoDup_fmap_snd_inj {A B} (l : list (A * B)) (x1 x2 : A) (y : B) :
  NoDup l.*2 -> (x1, y) ∈ l -> (x2, y) ∈ l -> x1 = x2.
Proof.
  induction l as [|[x y'] l IH]; [by intros _ ?%elem_of_nil|].
  rewrite fmap_cons. intros [Hy Hl]%NoDup_cons.
  rewrite !elem_of_cons. intros [?|H1] [?|H2]; simplify_eq; auto.
  - destruct Hy. apply list_elem_of_fmap. by exists (x2, y').
  - destruct Hy. apply list_elem_of_fmap. by exists (x1, y').
Qed.

Lemma dropped_spec (k : string) (ref : nat) (a : t) (c : LocalClient.t) :
  invariant a -> Map.get k (_clients a) = Some ref -> objects a !! ref = Some c ->
  invariant (dropped k ref a).1 /\
  _clients (dropped k ref a).1 = filter (fun kv => kv.1 ≠ k) (_clients a) /\
  objects (dropped k ref a).1 = <[ref := (LocalClient.disconnect c).1]> (objects a) /\
  (dropped k ref a).2 =
    match LocalClient._client c with
    | None => [AgentTunnel.call_sendStatusUpdate k disconnected None]
    | Some _ => []
    end.
Proof.
  intros Hinv Hget Hc.
  destruct (invariant_lookup a k ref Hinv Hget) as (c' & Hc' & Hid & _).
  assert (c' = c) as -> by congruence.
  destruct Hinv as (Hk & Hr & Hobj & Hinv).
  unfold dropped, seq. rewrite (on_client_spec _ _ _ _ Hc), disconnect_callbacks.
  unfold modify, set_clients. simpl. rewrite app_nil_r, Hid.
  rewrite MapProofs.delete_filter by done.
  split; [|done]. unfold invariant. simpl. split; [|split; [|split]].
  - by apply NoDup_fmap_filter.
  - by apply NoDup_fmap_filter.
  - intros k' ref' [Hne Hin]%list_elem_of_filter. simpl in Hne.
    destruct (Hobj _ _ Hin) as (c1 & Hc1 & ?). exists c1. split; [|done].
    rewrite list_lookup_insert_ne; [done|]. intros <-.
    apply MapProofs.get_Some in Hget; [|done].
    apply Hne. by eapply (NoDup_fmap_snd_inj (_clients a)).
  - apply Forall_insert; [done|].
    apply (LocalClientProofs.step_invariant LocalClient.call_disconnect).
    eapply Forall_lookup_1; eauto.
Qed.

Lemma keys_filter_ne (k k' : string) (m : Map.t nat) :
  k' ∈ Map.keys (filter (fun kv => kv.1 ≠ k) m) <-> k' ∈ Map.keys m /\ k' ≠ k.
Proof.
  unfold Map.keys. rewrite !list_elem_of_fmap. split.
  - intros ([k1 v] & -> & [Hne Hin]%list_elem_of_filter). split; [|done].
    by exists (k1, v).
  - intros [([k1 v] & -> & Hin) Hne]. exists (k1, v). split; [done|].
    by apply list_elem_of_filter.
Qed.

Lemma added_spec (ep : EndpointConfig) (a : t) :
  invariant a -> id ep ∉ tracked a -> isEnabled ep = true ->
  invariant (added ep a).1 /\
  _clients (added ep a).1 = _clients a ++ [(id ep, length (objects a))] /\
  (added ep a).2 = (LocalClient.connect (LocalClient.create ep)).2 ≫= callbacks ep.
Proof.
  intros (Hk & Hr & Hobj & Hinv) Hfresh Hen.
  assert (forall k ref, (k, ref) ∈ _clients a -> ref < length (objects a)) as Hlt.
  { intros k ref (c & Hc & _)%Hobj. by eapply lookup_lt_Some. }
  unfold added, seq, modify, set_clients. simpl.
  erewrite on_client_spec; [|apply (list_lookup_middle _ []); done]. simpl.
  rewrite MapProofs.set_fresh by done.
  split; [|done]. unfold invariant. simpl.
  pose proof (LocalClientProofs.step_config LocalClient.call_connect
                (LocalClient.create ep)) as [_ Hcfg]. simpl in Hcfg.
  split; [|split; [|split]].
  - unfold Map.keys. rewrite fmap_app. apply NoDup_app. split; [done|].
    split; [|apply NoDup_singleton].
    intros k Hin ->%list_elem_of_singleton. by apply Hfresh.
  - rewrite fmap_app. apply NoDup_app. split; [done|].
    split; [|apply NoDup_singleton].
    intros ref ([k ref'] & Heq & Hin)%list_elem_of_fmap Hnew%list_elem_of_singleton.
    apply Hlt in Hin. simpl in Heq, Hnew. lia.
  - intros k ref [Hin|Hin%list_elem_of_singleton]%elem_of_app.
    + destruct (Hobj _ _ Hin) as (c & Hc & ?). exists c. split; [|done].
      apply Hlt in Hin.
      rewrite list_lookup_insert_ne by lia. by rewrite lookup_app_l.
    + simplify_eq. eexists. split.
      { apply list_lookup_insert_eq. rewrite length_app. simpl. lia. }
      rewrite Hcfg, connect_keeps_destroyed. done.
  - apply Forall_insert.
    + apply Forall_app. split; [done|].
      constructor; [apply LocalClientProofs.create_invariant|constructor].
    + apply (LocalClientProofs.step_invariant LocalClient.call_connect),
        LocalClientProofs.create_invariant.
Qed.

(** A method that keeps the configuration, the flag [_destroyed] and the
    invariant of the object keeps the invariant of the orchestrator. *)
Lemma on_client_invariant (ref : nat) (m : LocalClient.M) (a : t) :
  (forall c, LocalClient.config (m c).1 = LocalClient.config c /\
             LocalClient._destroyed (m c).1 = LocalClient._destroyed c /\
             (LocalClient.invariant c -> LocalClient.invariant (m c).1)) ->
  invariant a ->
  invariant (on_client ref m a).1 /\ _clients (on_client ref m a).1 = _clients a.
Proof.
  intros Hm (Hk & Hr & Hobj & Hinv). unfold on_client.
  destruct (objects a !! ref) as [c|] eqn:Hc; [|done].
  destruct (Hm c) as (Hcfg & Hd & Hi). destruct (m c) as [c' out]. simpl in *.
  split; [|done]. unfold invariant. simpl. repeat (split; [done|]). split.
  - intros k ref' Hin. destruct (Hobj _ _ Hin) as (c1 & Hc1 & ?).
    destruct (decide (ref = ref')) as [<-|Hne].
    + exists c'. rewrite list_lookup_insert_eq by by eapply lookup_lt_Some.
      assert (c1 = c) as -> by congruence. by rewrite Hcfg, Hd.
    + exists c1. by rewrite list_lookup_insert_ne.
  - apply Forall_insert; [done|]. apply Hi. eapply Forall_lookup_1; eauto.
Qed.

(** *** The handlers: invariant and tracked ids *)

Lemma _removeEndpoint_spec (k : string) (a : t) :
  invariant a ->
  invariant (_removeEndpoint k a).1 /\
  forall k', k' ∈ tracked (_removeEndpoint k a).1 <-> k' ∈ tracked a /\ k' ≠ k.
Proof.
  intros Hinv. unfold _removeEndpoint.
  destruct (Map.get k (_clients a)) as [ref|] eqn:Hget.
  - destruct (invariant_lookup _ _ _ Hinv Hget) as (c & Hc & _).
    destruct (dropped_spec k ref a c Hinv Hget Hc) as (Hinv' & Hclients & _).
    split; [done|]. intros k'. unfold tracked. fold (dropped k ref a).
    rewrite Hclients. apply keys_filter_ne.
  - split; [done|]. intros k'. simpl. apply MapProofs.get_None in Hget.
    unfold tracked. naive_solver.
Qed.

(** [_addEndpoint] of an enabled descriptor replaces what is tracked
    under its id, as [_removeEndpoint] does, and adds a client. *)
Lemma _addEndpoint_enabled (ep : EndpointConfig) (a : t) :
  isEnabled ep = true ->
  _addEndpoint ep a = (_removeEndpoint (id ep) ;; added ep) a.
Proof. intros Hen. unfold _addEndpoint. by rewrite Hen. Qed.

Lemma _addEndpoint_spec (ep : EndpointConfig) (a : t) :
  invariant a ->
  invariant (_addEndpoint ep a).1 /\
  forall k', k' ∈ tracked (_addEndpoint ep a).1 <->
    k' ∈ tracked a \/ (isEnabled ep = true /\ k' = id ep).
Proof.
  intros Hinv. destruct (isEnabled ep) eqn:Hen.
  - rewrite _addEndpoint_enabled, seq_fst by done.
    destruct (_removeEndpoint_spec (id ep) a Hinv) as [Hinv1 Hk1].
    set (a1 := (_removeEndpoint (id ep) a).1) in *.
    assert (id ep ∉ tracked a1) as Hfresh by (rewrite Hk1; naive_solver).
    destruct (added_spec ep a1 Hinv1 Hfresh Hen) as (Hinv2 & Hclients & _).
    split; [done|]. intros k'. unfold tracked at 1. rewrite Hclients.
    unfold Map.keys. rewrite fmap_app, elem_of_app. fold (Map.keys (_clients a1)).
    fold (tracked a1). rewrite Hk1. simpl. rewrite list_elem_of_singleton.
    destruct (decide (k' = id ep)); naive_solver.
  - unfold _addEndpoint. rewrite Hen. simpl. naive_solver.
Qed.

Lemma _toggleEndpoint_spec (k : string) (enabled : bool) (a : t) :
  invariant a ->
  invariant (_toggleEndpoint k enabled a).1 /\
  forall k', k' ∈ tracked (_toggleEndpoint k enabled a).1 <->
    k' ∈ tracked a /\ (enabled = true \/ k' ≠ k).
Proof.
  intros Hinv. unfold _toggleEndpoint.
  destruct enabled; simpl.
  - destruct (Map.get k (_clients a)); simpl; naive_solver.
  - destruct (Map.get k (_clients a)) as [ref|] eqn:Hget.
    + destruct (invariant_lookup _ _ _ Hinv Hget) as (c & Hc & _).
      destruct (dropped_spec k ref a c Hinv Hget Hc) as (Hinv' & Hclients & _).
      rewrite <-(seq_assoc _ _ _ a). rewrite seq_fst. fold (dropped k ref).
      simpl. split; [done|]. intros k'. unfold tracked.
      rewrite Hclients, keys_filter_ne. naive_solver.
    + apply MapProofs.get_None in Hget. unfold tracked. simpl. naive_solver.
Qed.

Lemma _updateEndpoint_spec (ep : EndpointConfig) (a : t) :
  invariant a ->
  invariant (_updateEndpoint ep a).1 /\
  forall k', k' ∈ tracked (_updateEndpoint ep a).1 <->
    (k' ∈ tracked a /\ k' ≠ id ep) \/ (isEnabled ep = true /\ k' = id ep).
Proof.
  intros Hinv. unfold _updateEndpoint. rewrite seq_fst.
  destruct (_removeEndpoint_spec (id ep) a Hinv) as [Hinv1 Hk1].
  destruct (isEnabled ep) eqn:Hen.
  - destruct (_addEndpoint_spec ep _ Hinv1) as [Hinv2 Hk2].
    split; [done|]. intros k'. rewrite Hk2, Hk1, Hen. naive_solver.
  - split; [done|]. intros k'. simpl. rewrite Hk1. naive_solver.
Qed.

Lemma _refreshEndpoint_spec (k : string) (a : t) :
  invariant a ->
  invariant (_refreshEndpoint k a).1 /\
  forall k', k' ∈ tracked (_refreshEndpoint k a).1 <-> k' ∈ tracked a.
Proof.
  intros Hinv. unfold _refreshEndpoint.
  destruct (Map.get k (_clients a)) as [ref|] eqn:Hget; [|done].
  destruct (invariant_lookup _ _ _ Hinv Hget) as (c & Hc & Hid & Hen & _).
  rewrite Hc.
  destruct (dropped_spec k ref a c Hinv Hget Hc) as (Hinv' & Hclients & _).
  rewrite <-(seq_assoc _ _ _ a). rewrite seq_fst. fold (dropped k ref).
  destruct (_addEndpoint_spec (LocalClient.config c) _ Hinv') as [Hinv2 Hk2].
  split; [done|]. intros k'. rewrite Hk2. unfold tracked at 1.
  rewrite Hclients, keys_filter_ne, Hen, Hid.
  apply MapProofs.get_Some, (list_elem_of_fmap_2 fst) in Hget;
    [|by destruct Hinv].
  fold (Map.keys (_clients a)) in Hget. fold (tracked a) in Hget. simpl in Hget.
  destruct (decide (k' = k)); naive_solver.
Qed.

Lemma client_signal_spec (ref : nat) (s : LocalClient.Signal) (a : t) :
  invariant a ->
  invariant (on_client ref (LocalClient.signal s) a).1 /\
  tracked (on_client ref (LocalClient.signal s) a).1 = tracked a.
Proof.
  intros Hinv.
  destruct (on_client_invariant ref (LocalClient.signal s) a) as [Hinv' Hclients];
    [|done|by unfold tracked; rewrite Hclients].
  intros c. split; [|split].
  - apply (LocalClientProofs.step_config (LocalClient.from_env s)).
  - apply signal_destroyed.
  - apply (LocalClientProofs.step_invariant (LocalClient.from_env s)).
Qed.

Lemma sync_remove_loop (incoming ks : list string) (a : t) :
  invariant a ->
  let a' := (foreach ks (fun id =>
               if bool_decide (id ∈ incoming) then skip
               else _removeEndpoint id) a).1 in
  invariant a' /\
  forall k', k' ∈ tracked a' <-> k' ∈ tracked a /\ (k' ∈ incoming \/ k' ∉ ks).
Proof.
  revert a. induction ks as [|k ks IH]; intros a Hinv; simpl.
  - split; [done|]. intros k'. pose proof (not_elem_of_nil k'). naive_solver.
  - rewrite seq_fst. case_bool_decide as Hk.
    + destruct (IH a Hinv) as [Hinv' Hk']. split; [done|]. intros k'.
      rewrite (Hk' k'), not_elem_of_cons.
      destruct (decide (k' = k)); naive_solver.
    + destruct (_removeEndpoint_spec k a Hinv) as [Hinv1 Hk1].
      destruct (IH _ Hinv1) as [Hinv' Hk']. split; [done|]. intros k'.
      rewrite (Hk' k'), Hk1, not_elem_of_cons. naive_solver.
Qed.

Lemma sync_add_loop (eps : list EndpointConfig) (a : t) :
  invariant a ->
  let a' := (foreach eps (fun ep =>
               if isEnabled ep then
                 (fun a => if Map.has (id ep) (_clients a) then skip a
                           else _addEndpoint ep a)
               else skip) a).1 in
  invariant a' /\
  forall k', k' ∈ tracked a' <->
    k' ∈ tracked a \/ exists ep, ep ∈ eps /\ isEnabled ep = true /\ id ep = k'.
Proof.
  revert a. induction eps as [|ep eps IH]; intros a Hinv; simpl.
  - split; [done|]. intros k'. split; [auto|].
    intros [?|(ep & ?%elem_of_nil & _)]; done.
  - rewrite seq_fst.
    assert (forall a1 : t, invariant a1 ->
      (forall k', k' ∈ tracked a1 <->
         k' ∈ tracked a \/ (isEnabled ep = true /\ id ep = k')) ->
      let a' := (foreach eps (fun ep =>
               if isEnabled ep then
                 (fun a => if Map.has (id ep) (_clients a) then skip a
                           else _addEndpoint ep a)
               else skip) a1).1 in
      invariant a' /\
      forall k', k' ∈ tracked a' <->
        k' ∈ tracked a \/
        exists ep0, ep0 ∈ ep :: eps /\ isEnabled ep0 = true /\ id ep0 = k') as Hgo.
    { intros a1 Hinv1 Hk1. destruct (IH a1 Hinv1) as [Hinv' Hk'].
      split; [done|]. intros k'. rewrite (Hk' k'), Hk1.
      setoid_rewrite elem_of_cons. naive_solver. }
    destruct (isEnabled ep) eqn:Hen.
    + unfold Map.has.
      destruct (Map.get (id ep) (_clients a)) as [ref|] eqn:Hget.
      * apply Hgo; [done|]. intros k'. split; [auto|]. intros [?|[_ <-]]; [done|].
        destruct Hinv as [Hnd _].
        apply MapProofs.get_Some, (list_elem_of_fmap_2 fst) in Hget; done.
      * destruct (_addEndpoint_spec ep a Hinv) as [Hinv1 Hk1].
        apply Hgo; [done|]. intros k'. rewrite Hk1, Hen. naive_solver.
    + apply Hgo; [done|]. intros k'. naive_solver.
Qed.

Lemma _syncEndpoints_spec (eps : list EndpointConfig) (a : t) :
  invariant a ->
  invariant (_syncEndpoints eps a).1 /\
  forall k', k' ∈ tracked (_syncEndpoints eps a).1 <->
    (k' ∈ tracked a /\ k' ∈ id <$> eps) \/
    exists ep, ep ∈ eps /\ isEnabled ep = true /\ id ep = k'.
Proof.
  intros Hinv. unfold _syncEndpoints. rewrite seq_fst.
  destruct (sync_remove_loop (id <$> eps) (Map.keys (_clients a)) a Hinv)
    as [Hinv1 Hk1].
  destruct (sync_add_loop eps _ Hinv1) as [Hinv2 Hk2].
  split; [done|]. intros k'. rewrite (Hk2 k'), (Hk1 k'). unfold tracked.
  naive_solver.
Qed.

(** *** The invariant over time *)

Lemma agent_create_invariant : invariant create.
Proof.
  unfold invariant, create. simpl. repeat split; try constructor.
  by intros k ref ?%elem_of_nil.
Qed.

Lemma agent_step_invariant (ev : Event) (a : t) : invariant a -> invariant (step ev a).1.
Proof.
  intros Hinv. destruct ev; simpl.
  - by apply _syncEndpoints_spec.
  - by apply _addEndpoint_spec.
  - by apply _removeEndpoint_spec.
  - by apply _toggleEndpoint_spec.
  - by apply _updateEndpoint_spec.
  - by apply _refreshEndpoint_spec.
  - by apply client_signal_spec.
Qed.

Lemma agent_run_invariant (evs : list Event) (a : t) :
  invariant a -> invariant (run evs a).1.
Proof.
  revert a. induction evs as [|ev evs IH]; intros a Hinv; [done|].
  simpl. rewrite seq_fst. by apply IH, agent_step_invariant.
Qed.

(** *** The tracked ids against the specification *)

(** Every event but a full replace changes the tracked ids as the
    specification says; a full replace keeps the tracked ids it lists and
    adds those it lists as enabled. *)
Lemma step_tracked (ev : Event) (a : t) :
  invariant a -> replaces_enabled_only ev ->
  list_to_set (tracked (step ev a).1)
  = spec_tracked_step (list_to_set (tracked a)) ev.
Proof.
  intros Hinv Hev. apply set_eq. intros k'. rewrite elem_of_list_to_set.
  destruct ev as [eps|ep|k|k enabled|ep|k|ref s]; simpl.
  - destruct (_syncEndpoints_spec eps a Hinv) as [_ ->].
    simpl in Hev. rewrite Forall_forall in Hev.
    rewrite elem_of_list_to_set, !list_elem_of_fmap.
    setoid_rewrite list_elem_of_filter. naive_solver.
  - destruct (_addEndpoint_spec ep a Hinv) as [_ ->].
    destruct (isEnabled ep);
      rewrite ?elem_of_union, ?elem_of_singleton, elem_of_list_to_set;
      intuition congruence.
  - destruct (_removeEndpoint_spec k a Hinv) as [_ ->]. set_solver.
  - destruct (_toggleEndpoint_spec k enabled a Hinv) as [_ ->].
    destruct enabled;
      rewrite ?elem_of_difference, ?elem_of_singleton, elem_of_list_to_set.
    + split; [by intros [? _]|]. intros ?. split; [done|by left].
    + split; [by intros [? [?|?]]|]. intros [? ?]. split; [done|by right].
  - destruct (_updateEndpoint_spec ep a Hinv) as [_ ->].
    destruct (isEnabled ep), (decide (k' = id ep));
      rewrite ?elem_of_union, ?elem_of_difference, ?elem_of_singleton,
        elem_of_list_to_set;
      intuition congruence.
  - destruct (_refreshEndpoint_spec k a Hinv) as [_ ->]. set_solver.
  - destruct (client_signal_spec ref s a Hinv) as [_ ->]. set_solver.
Qed.

(** Over events whose full replaces list enabled descriptors only, the
    tracked ids are those of the specification. *)
Lemma run_tracked (evs : list Event) (a : t) :
  invariant a -> Forall replaces_enabled_only evs ->
  list_to_set (tracked (run evs a).1)
  = spec_tracked_from (list_to_set (tracked a)) evs.
Proof.
  revert a. induction evs as [|ev evs IH]; intros a Hinv Hevs; [done|].
  apply Forall_cons in Hevs as [Hev Hevs].
  simpl. rewrite seq_fst, IH by auto using agent_step_invariant.
  unfold spec_tracked_from. simpl. by rewrite step_tracked.
Qed.

Lemma tracked_NoDup (evs : list Event) : NoDup (tracked (run evs create).1).
Proof. apply (agent_run_invariant evs create agent_create_invariant). Qed.

(** *** The claims about the orchestrator *)

(** C2.  In every state the orchestrator can reach, a tool call for an id
    that is not tracked is answered at once with the error "No local
    client for endpoint <id>"; one for a tracked client whose status is
    not [connected] is answered at once with an error that names the
    status; one for a connected client calls the client, and when that
    call settles its result, or the message of what it threw, is sent
    under the [callId] of the request: one answer in each case. *)
Theorem C2_tool_call_routing (evs : list Event) (payload : ToolCallPayload) :
  let a := (run evs create).1 in
  (endpointId payload ∉ tracked a ->
     _handleToolCall payload a = answered
       [AgentTunnel.call_sendToolError (callId payload)
          ("No local client for endpoint " +:+ endpointId payload)]) /\
  (forall ref c,
     Map.get (endpointId payload) (_clients a) = Some ref ->
     objects a !! ref = Some c ->
     (LocalClient._status c <> connected ->
        _handleToolCall payload a = answered
          [AgentTunnel.call_sendToolError (callId payload)
             ("Endpoint " +:+ endpointId payload +:+
              " is not connected (status: " +:+
              status_string (LocalClient._status c) +:+ ")")]) /\
     (LocalClient._status c = connected ->
        exists client, LocalClient._client c = Some client /\
          _handleToolCall payload a
          = awaits_callTool client (toolName payload) (args payload))) /\
  (forall result,
     _handleToolCall_resume payload (inr result)
     = [AgentTunnel.call_sendToolResult (callId payload) result]) /\
  (forall err,
     _handleToolCall_resume payload (inl err)
     = [AgentTunnel.call_sendToolError (callId payload) (error_message err)]).
Proof.
  intros a.
  assert (invariant a) as Hinv by apply agent_run_invariant, agent_create_invariant.
  split; [|split; [|done]].
  - intros Hun%MapProofs.get_None. unfold _handleToolCall. by rewrite Hun.
  - intros ref c Hget Hc. unfold _handleToolCall. rewrite Hget. simpl. rewrite Hc.
    split; intros Hs.
    + by rewrite bool_decide_eq_true_2.
    + rewrite bool_decide_eq_false_2 by auto.
      destruct (invariant_lookup a _ _ Hinv Hget) as (c' & Hc' & _ & _ & Hd & Hci).
      assert (c' = c) as -> by congruence.
      destruct Hci as (_ & _ & Hclient). unfold LocalClient.callTool.
      destruct (LocalClient._client c) as [client|] eqn:Hcl; [by exists client|].
      by destruct (Hclient Hd eq_refl).
Qed.

(** C8, as the code has it.  In every state the orchestrator can reach:
    a disable toggle for a tracked id drops the entry and destroys the
    client, whose [disconnect()] sends "disconnected" through its status
    callback, at once when it holds no SDK client and when [close()]
    settles when it holds one, and the handler itself sends "disconnected"
    once more: two status updates for the id in all; for an id that is not
    tracked a disable toggle does nothing, and an enable toggle sends
    "connecting" once and changes neither the map nor any object. *)
Theorem C8_toggle (evs : list Event) (k : string) :
  let a := (run evs create).1 in
  (forall ref c,
     Map.get k (_clients a) = Some ref -> objects a !! ref = Some c ->
     let r := _toggleEndpoint k false a in
     (forall k', k' ∈ tracked r.1 <-> k' ∈ tracked a /\ k' ≠ k) /\
     objects r.1 !! ref = Some (LocalClient.disconnect c).1 /\
     LocalClient._destroyed (LocalClient.disconnect c).1 = true /\
     r.2 = match LocalClient._client c with
           | None => [AgentTunnel.call_sendStatusUpdate k disconnected None]
           | Some _ => []
           end ++ [AgentTunnel.call_sendStatusUpdate k disconnected None] /\
     (LocalClient._client c <> None ->
        (on_client ref LocalClient.disconnect_resume r.1).2
        = [AgentTunnel.call_sendStatusUpdate k disconnected None])) /\
  (k ∉ tracked a -> _toggleEndpoint k false a = (a, [])) /\
  (k ∉ tracked a ->
     _toggleEndpoint k true a
     = (a, [AgentTunnel.call_sendStatusUpdate k connecting None])).
Proof.
  intros a.
  assert (invariant a) as Hinv by apply agent_run_invariant, agent_create_invariant.
  split; [|split].
  - intros ref c Hget Hc r.
    destruct (invariant_lookup a _ _ Hinv Hget) as (c' & Hc' & Hid & _).
    assert (c' = c) as -> by congruence.
    destruct (dropped_spec k ref a c Hinv Hget Hc) as (_ & Hclients & Hobjs & Hout).
    assert (r = (dropped k ref ;;
                 call (AgentTunnel.call_sendStatusUpdate k disconnected None))%M a)
      as Hr.
    { unfold r, _toggleEndpoint. simpl. rewrite Hget.
      by rewrite <-(seq_assoc _ _ _ a). }
    assert (r.1 = (dropped k ref a).1) as Hr1 by by rewrite Hr, seq_fst.
    assert (objects r.1 !! ref = Some (LocalClient.disconnect c).1) as Hobj.
    { rewrite Hr1, Hobjs. apply list_lookup_insert_eq. by eapply lookup_lt_Some. }
    split; [|split; [done|split; [apply disconnect_destroyed|split]]].
    + intros k'. unfold tracked. rewrite Hr1, Hclients. apply keys_filter_ne.
    + by rewrite Hr, seq_snd, Hout.
    + intros Hclient. rewrite (on_client_spec _ _ _ _ Hobj). simpl.
      pose proof (LocalClientProofs.step_config LocalClient.call_disconnect c)
        as [_ Hcfg]. simpl in Hcfg.
      by rewrite disconnect_resume_callbacks, Hcfg, Hid.
  - intros Hun%MapProofs.get_None. unfold _toggleEndpoint. by rewrite Hun.
  - intros Hun%MapProofs.get_None. unfold _toggleEndpoint. by rewrite Hun.
Qed.

End WithHost.

End McpCentralAgentProofs.

(** ** Instances on concrete orchestrators *)

Module McpCentralAgentExamples.
Import McpCentralAgent McpCentralAgentProofs Examples.

(** C1, at the input where it fails: "a" is tracked, then a full replace
    lists "a" as disabled.  The id is listed, so the first loop keeps it;
    the descriptor is disabled, so the second loop skips it: "a" stays
    tracked, with its client untouched, while the ids that are present
    and enabled in the replace are none. *)
Theorem C1_full_replace_keeps_disabled :
  let evs := [onEndpoints [endpoint "a" stdio true];
              onEndpoints [endpoint "a" stdio false]] in
  let a := (@run host evs create).1 in
  tracked a = ["a"] /\
  (LocalClient._destroyed <$> objects a) = [false] /\
  spec_tracked evs = ∅.
Proof. split; [reflexivity|]. split; reflexivity. Qed.

Lemma C2_tool_call_routing_witness :
  let evs := [onEndpoints [endpoint "x" stdio true];
              client_signal 0 (LocalClient.settles (LocalClient.resolved None));
              client_signal 0 (LocalClient.settles (LocalClient.resolved (Some [])))] in
  let a := (@run host evs create).1 in
  Map.get "x" (_clients a) = Some 0 /\
  exists c client,
    objects a !! 0 = Some c /\ LocalClient._status c = connected /\
    LocalClient._client c = Some client /\
    _handleToolCall echo_call a = awaits_callTool client "echo" [].
Proof.
  intros evs a. split; [reflexivity|].
  destruct (@C2_tool_call_routing host evs echo_call) as (_ & Htracked & _).
  destruct (Htracked 0 _ eq_refl eq_refl) as [_ Hconnected].
  destruct (Hconnected eq_refl) as (client & Hclient & Hcall).
  eexists _, client. split; [reflexivity|]. split; [reflexivity|].
  split; [exact Hclient|exact Hcall].
Defined.

(** A second [disconnect()] calls the status callback again. *)
Lemma C7_second_disconnect_reports_again :
  let c1 := (LocalClient.disconnect_to_end
               (LocalClient.create (endpoint "a" stdio true))).1 in
  LocalClient.statuses (LocalClient.disconnect c1).2 = [disconnected] /\
  (LocalClient.disconnect c1).2 <> [].
Proof. split; [reflexivity|discriminate]. Qed.

(** A disable toggle of a tracked endpoint sends "disconnected" twice:
    within the handler when the client is still connecting, and once in
    the handler and once when [close()] settles when it is connected. *)
Lemma C8_toggle_disable_sends_two :
  let a := (@run host [onEndpoints [endpoint "x" stdio true]] create).1 in
  status_updates (_toggleEndpoint "x" false a).2
  = [("x", disconnected); ("x", disconnected)] /\
  let b := (@run host
    [onEndpoints [endpoint "x" stdio true];
     client_signal 0 (LocalClient.settles (LocalClient.resolved None));
     client_signal 0 (LocalClient.settles (LocalClient.resolved (Some [])))]
    create).1 in
  status_updates (@run host
    [onEndpointToggle "x" false; client_signal 0 LocalClient.close_settles] b).2
  = [("x", disconnected); ("x", disconnected)].
Proof. split; reflexivity. Qed.

Lemma C8_toggle_witness :
  let a := (@run host [onEndpoints [endpoint "x" stdio true]] create).1 in
  Map.get "x" (_clients a) = Some 0 /\
  "y" ∉ tracked a /\
  (_toggleEndpoint "x" false a).2
  = [AgentTunnel.call_sendStatusUpdate "x" disconnected None;
     AgentTunnel.call_sendStatusUpdate "x" disconnected None] /\
  _toggleEndpoint "y" true a
  = (a, [AgentTunnel.call_sendStatusUpdate "y" connecting None]).
Proof.
  intros a. split; [reflexivity|].
  assert ("y" ∉ tracked a) as Hy.
  { intros [?|?%elem_of_nil]%elem_of_cons; done. }
  split; [exact Hy|].
  destruct (@C8_toggle host [onEndpoints [endpoint "x" stdio true]] "x")
    as (Htracked & _ & _).
  destruct (Htracked 0 _ eq_refl eq_refl) as (_ & _ & _ & Hout & _).
  split; [exact Hout|].
  destruct (@C8_toggle host [onEndpoints [endpoint "x" stdio true]] "y")
    as (_ & _ & Henable).
  exact (Henable Hy).
Defined.

End McpCentralAgentExamples.

(** * Further properties *)

(** ** One downstream connection: the rest of the class *)

Module LocalClientMore.
Import LocalClient LocalClientTactics LocalClientCases LocalClientProofs.

Section WithHost.
Context `{Host}.

(** [connect()] on a descriptor that lacks the command or url its
    transport needs opens no transport: it reports [connecting], then
    [error] with the message naming the endpoint and the missing field,
    schedules a reconnect with the delay of the current attempt, and is no
    longer connecting.  For a stdio or sse endpoint all of this happens
    within the call, [_createTransport] throwing synchronously; for a
    streamable-http endpoint the call returns after [connecting],
    suspended at [await this._connectHttp(client)] with the flag set and
    no timer, and the rest follows when it resumes. *)
Theorem connect_incomplete (cfg : EndpointConfig) (evs : list Event) (r : Settled) :
  let c := (run evs (create cfg)).1 in
  incomplete cfg = true -> _destroyed c = false -> _connecting c = false ->
  let failed := run [call_connect; from_env (settles r)] c in
  (failed.2
   = [onStatusChanged connecting None;
      onStatusChanged error (Some (incomplete_message cfg));
      setTimeout (reconnect_delay (_reconnectAttempt c))] /\
   _status failed.1 = error /\
   _connecting failed.1 = false /\
   suspended failed.1 = None /\
   _client failed.1 = _client c /\
   _reconnectAttempt failed.1 = S (_reconnectAttempt c)) /\
  (transport cfg <> streamable_http -> connect c = failed) /\
  (transport cfg = streamable_http ->
     (connect c).2 = [onStatusChanged connecting None] /\
     _status (connect c).1 = connecting /\
     _connecting (connect c).1 = true /\
     suspended (connect c).1
     = Some (at_connectHttp (ErrorObject (incomplete_message cfg))) /\
     timers (connect c).1 = timers c /\
     _reconnectTimer (connect c).1 = _reconnectTimer c /\
     _reconnectAttempt (connect c).1 = _reconnectAttempt c).
Proof.
  intros c. destruct (run_config evs (create cfg)) as [Hid Hcfg].
  fold c in Hid, Hcfg. simpl in Hid, Hcfg. clearbody c.
  destruct c. simpl in *. subst.
  unfold incomplete, incomplete_message. intros Hinc -> ->.
  unfold run. methods.
  destruct (transport cfg), (command cfg), (url cfg); simpl in *;
    try discriminate; rewrite ?Hinc; simpl; repeat split; done.
Qed.

(** [connect()] on a descriptor that has the field its transport needs,
    with a url that parses, reports [connecting], connects the client over
    the transport of the descriptor's kind built from its fields, and
    waits, the flag [_connecting] set. *)
Theorem connect_complete (cfg : EndpointConfig) (evs : list Event)
    (field parsed : string) :
  let c := (run evs (create cfg)).1 in
  needed_field cfg = Some field -> field <> "" ->
  (transport cfg <> stdio -> new_URL field = Some parsed) ->
  _destroyed c = false -> _connecting c = false ->
  (connect c).2
  = [onStatusChanged connecting None;
     client_connect (first_transport cfg field parsed)] /\
  _status (connect c).1 = connecting /\
  _connecting (connect c).1 = true /\
  suspended (connect c).1 <> None.
Proof.
  intros c. destruct (run_config evs (create cfg)) as [Hid Hcfg].
  fold c in Hid, Hcfg. simpl in Hid, Hcfg. clearbody c.
  destruct c. simpl in *. subst.
  unfold needed_field, first_transport. intros Hfield Hne Hparse -> ->. methods.
  destruct (transport cfg); rewrite Hfield; simpl;
    rewrite bool_decide_eq_false_2 by done; rewrite ?Hparse by done; done.
Qed.

(** The status becomes [connected] only by being reported so. *)
Lemma step_connected (ev : Event) (c : t) :
  _status (step ev c).1 = connected ->
  _status c = connected \/ connected ∈ statuses (step ev c).2.
Proof.
  destruct c, ev as [| |[[?|?]| | | |]]; methods; branches; intros;
    simplify_eq; auto; right; set_solver.
Qed.

Lemma run_not_connected (evs : list Event) (c : t) :
  _status c <> connected -> connected ∉ statuses (run evs c).2 ->
  _status (run evs c).1 <> connected.
Proof.
  revert c. induction evs as [|ev evs IH]; intros c Hc Hout; [done|].
  simpl in *. rewrite seq_fst. rewrite seq_snd in Hout.
  unfold statuses in Hout. rewrite omap_app in Hout.
  apply not_elem_of_app in Hout as [Hev Hevs].
  apply IH; [|done]. intros Hs. by destruct (step_connected ev c Hs).
Qed.

(** An observer stays installed through every event but its own
    firing. *)
Lemma step_handlers (ev : Event) (c : t) (h : nat * Handler) :
  h ∈ handlers c -> fires h ev = false -> h ∈ handlers (step ev c).1.
Proof.
  destruct h as [m [|]], c, ev as [| |[[?|?]| | | |]]; unfold fires; methods;
    intros Hin Hev; branches; try done;
    try (apply elem_of_app; by left);
    apply list_elem_of_filter; (split; [|done]); congruence.
Qed.

Lemma run_handlers (evs : list Event) (c : t) (h : nat * Handler) :
  h ∈ handlers c -> Forall (fun ev => fires h ev = false) evs ->
  h ∈ handlers (run evs c).1.
Proof.
  revert c. induction evs as [|ev evs IH]; intros c Hin Hevs; [done|].
  apply Forall_cons in Hevs as [Hev Hevs].
  simpl. rewrite seq_fst. apply IH; [by apply step_handlers|done].
Qed.

(** Each observer uninstalls itself when it fires, and only itself.  An
    observer that fired is gone: firing it again does nothing.  If both
    observers of a transport fire one after the other, in either order,
    at most one reconnect is scheduled; more generally, on an object that
    is not connected, and as long as it is not reported connected again,
    an observer that fires calls nothing.  But an observer stays
    installed until it fires, through a reconnect too: nothing else
    removes it; if it fires when the object is connected again, it reacts
    as to a new fault, and a reconnect is scheduled once more. *)
Theorem observers_one_shot (c : t) (evs : list Event) (n n' : nat)
    (message message' : option string) :
  length (delays (run [from_env (transport_errors n message);
                       from_env (transport_closes n')] c).2) <= 1 /\
  length (delays (run [from_env (transport_closes n');
                       from_env (transport_errors n message)] c).2) <= 1 /\
  _onError n message' (_onError n message c).1 = ((_onError n message c).1, []) /\
  _onClose n (_onClose n c).1 = ((_onClose n c).1, []) /\
  (_status c <> connected -> connected ∉ statuses (run evs c).2 ->
     (_onClose n' (run evs c).1).2 = [] /\
     (_onError n' message (run evs c).1).2 = []) /\
  (forall h, h ∈ handlers c -> Forall (fun ev => fires h ev = false) evs ->
     h ∈ handlers (run evs c).1) /\
  (forall h, h ∈ handlers c -> Forall (fun ev => fires h ev = false) evs ->
     let c' := (run evs c).1 in
     _destroyed c' = false -> _status c' = connected ->
     delays (match h.2 with
             | onerror => _onError h.1 message c'
             | onclose => _onClose h.1 c'
             end).2 = [reconnect_delay (_reconnectAttempt c')]).
Proof.
  assert (forall (h : nat * Handler) (l : list (nat * Handler)),
            h ∉ filter (.≠ h) l) as Hgone.
  { intros h l [Hne _]%list_elem_of_filter. by apply Hne. }
  split; [|split; [|split; [|split; [|split; [|split]]]]].
  - destruct c. unfold run. methods. branches; simpl; lia.
  - destruct c. unfold run. methods. branches; simpl; lia.
  - assert ((n, onerror) ∉ handlers (_onError n message c).1) as Hout.
    { destruct c. unfold _onError. methods.
      case_bool_decide; [|done]. branches; apply Hgone. }
    unfold _onError at 1. by rewrite bool_decide_eq_false_2.
  - assert ((n, onclose) ∉ handlers (_onClose n c).1) as Hout.
    { destruct c. unfold _onClose. methods.
      case_bool_decide; [|done]. branches; apply Hgone. }
    unfold _onClose at 1. by rewrite bool_decide_eq_false_2.
  - intros Hc Hout. pose proof (run_not_connected evs c Hc Hout) as Hs.
    destruct (run evs c).1. simpl in Hs. unfold _onClose, _onError. methods.
    split; branches; done.
  - intros h. apply run_handlers.
  - intros [m kind] Hin Hevs c' Hd Hs.
    pose proof (run_handlers evs c _ Hin Hevs) as Hin'. fold c' in Hin'.
    destruct c'. simpl in *. subst. unfold _onError, _onClose.
    destruct kind; methods; by rewrite bool_decide_eq_true_2.
Qed.

(** [disconnect()] cancels the timer [_reconnectTimer] holds: it clears
    it, forgets it, and if the cancelled timer were still to fire nothing
    would happen; and on a destroyed object a timer that fires, whichever
    it is, calls nothing and leaves the status as it is. *)
Theorem disconnect_cancels_timer (c : t) (timer other : nat) :
  (_reconnectTimer c = Some timer ->
     clearTimeout timer ∈ (disconnect c).2 /\
     timer ∉ (timers (disconnect c).1).*1 /\
     _reconnectTimer (disconnect c).1 = None /\
     timer_callback timer (disconnect c).1 = ((disconnect c).1, [])) /\
  (_destroyed c = true ->
     (timer_callback other c).2 = [] /\
     _status (timer_callback other c).1 = _status c /\
     _destroyed (timer_callback other c).1 = true).
Proof.
  assert (forall l : list (nat * Z), timer ∉ (filter (fun p => p.1 ≠ timer) l).*1)
    as Hgone.
  { intros l ([t d] & -> & [Hne _]%list_elem_of_filter)%list_elem_of_fmap.
    by apply Hne. }
  split.
  - destruct c. simpl. intros ->. unfold disconnect. methods.
    destruct _client0; simpl; (split; [set_solver|]); (split; [apply Hgone|]);
      (split; [done|]); unfold timer_callback; methods;
      by rewrite bool_decide_eq_false_2 by apply Hgone.
  - destruct c. simpl. intros ->. unfold timer_callback. methods.
    branches; done.
Qed.

(** A [disconnect()] that runs to its end leaves the object destroyed and
    disconnected, without client and without timer; it reports
    [disconnected] once, and closes the SDK client exactly when the object
    held one. *)
Theorem disconnect_to_end_post (c : t) :
  let r := disconnect_to_end c in
  _destroyed r.1 = true /\ _status r.1 = disconnected /\
  _client r.1 = None /\ _reconnectTimer r.1 = None /\
  statuses r.2 = [disconnected] /\
  (client_close ∈ r.2 <-> _client c <> None).
Proof.
  destruct c. methods.
  destruct _client0, _reconnectTimer0; simpl; do 5 (split; [done|]);
    set_solver.
Qed.

(** A [connect()] on such a descriptor, with its resumption. *)
Lemma connect_fails (c : t) (r : Settled) :
  incomplete (config c) = true -> _destroyed c = false -> _connecting c = false ->
  let failed := seq connect (connect_resume r) c in
  delays failed.2 = [reconnect_delay (_reconnectAttempt c)] /\
  Forall (fun x => forall tr, x <> client_connect tr) failed.2 /\
  config failed.1 = config c /\ _destroyed failed.1 = false /\
  _connecting failed.1 = false /\
  _reconnectAttempt failed.1 = S (_reconnectAttempt c) /\
  _reconnectTimer failed.1 = Some (allocated c) /\
  timers failed.1
  = timers c ++ [(allocated c, reconnect_delay (_reconnectAttempt c))].
Proof.
  destruct c. simpl. unfold incomplete. intros Hinc -> ->. methods.
  destruct (transport config0), (command config0), (url config0);
    simpl in *; try discriminate; rewrite ?Hinc; simpl;
    (split; [done|]); (split; [repeat constructor; discriminate|]); done.
Qed.

Lemma retry_once (c : t) (r : Settled) :
  incomplete (config c) = true -> _destroyed c = false -> _connecting c = false ->
  (exists timer, _reconnectTimer c = Some timer /\ timer ∈ (timers c).*1) ->
  delays (retry r c).2 = [reconnect_delay (_reconnectAttempt c)] /\
  Forall (fun x => forall tr, x <> client_connect tr) (retry r c).2 /\
  config (retry r c).1 = config c /\ _destroyed (retry r c).1 = false /\
  _connecting (retry r c).1 = false /\
  _reconnectAttempt (retry r c).1 = S (_reconnectAttempt c) /\
  (exists timer, _reconnectTimer (retry r c).1 = Some timer /\
     timer ∈ (timers (retry r c).1).*1).
Proof.
  intros Hinc Hd Hc (timer & Ht & Hin).
  set (c' := set_reconnectTimer None
               (set_timers (filter (fun p => p.1 ≠ timer) (timers c)) c)).
  assert (retry r c = seq connect (connect_resume r) c') as ->.
  { unfold retry, pending_timer_fires, timer_callback.
    unfold seq at 1. rewrite Ht, bool_decide_eq_true_2 by done.
    unfold seq at 1 2, modify. cbv beta iota. fold c'.
    unfold seq. destruct (connect c') as [c1 out1].
    by destruct (connect_resume r c1). }
  destruct (connect_fails c' r) as (Hdel & Hno & Hcfg & Hd' & Hc' & Ha & Htimer & Htimers);
    [by destruct c..|].
  assert (_reconnectAttempt c' = _reconnectAttempt c) as Hatt by by destruct c.
  assert (config c' = config c) as Hcfg' by by destruct c.
  rewrite Hatt in Hdel, Ha. rewrite Hcfg' in Hcfg.
  repeat (split; [done|]). exists (allocated c'). split; [done|].
  rewrite Htimers, fmap_app. set_solver.
Qed.

(** An endpoint whose descriptor lacks the field its transport needs is
    retried for ever and never reached: the first [connect()] and the one
    of each firing of the reconnect timer fail, within the call or, for a
    streamable-http endpoint, when the call resumes; no transport is ever
    opened, and the delays run through the schedule from its start. *)
Theorem retry_forever (cfg : EndpointConfig) (r : Settled) (n : nat) :
  incomplete cfg = true ->
  let out := (seq (seq connect (connect_resume r)) (retries r n) (create cfg)).2 in
  delays out = reconnect_delay <$> List.seq 0 (S n) /\
  Forall (fun x => forall tr, x <> client_connect tr) out.
Proof.
  intros Hinc out.
  assert (forall n c,
    incomplete (config c) = true -> _destroyed c = false -> _connecting c = false ->
    (exists timer, _reconnectTimer c = Some timer /\ timer ∈ (timers c).*1) ->
    delays (retries r n c).2 = reconnect_delay <$> List.seq (_reconnectAttempt c) n /\
    Forall (fun x => forall tr, x <> client_connect tr) (retries r n c).2) as Hloop.
  { clear. induction n as [|n IH]; intros c Hinc Hd Hc Ht; [by split|].
    destruct (retry_once c r Hinc Hd Hc Ht) as (Hdel & Hno & Hcfg & Hd' & Hc' & Ha & Ht').
    simpl. rewrite seq_snd, delays_app, Hdel.
    destruct (IH (retry r c).1) as [-> Hno'];
      [by rewrite Hcfg|done..|].
    rewrite Ha. split; [done|]. by apply Forall_app. }
  destruct (connect_fails (create cfg) r)
    as (Hdel & Hno & Hcfg & Hd & Hc & Ha & Htimer & Htimers); [done..|].
  unfold out. rewrite seq_snd, delays_app, Hdel.
  destruct (Hloop n (seq connect (connect_resume r) (create cfg)).1) as [-> Hno'];
    [by rewrite Hcfg|done..| |].
  - exists (allocated (create cfg)). split; [done|].
    rewrite Htimers, fmap_app. set_solver.
  - rewrite Ha. split; [done|]. by apply Forall_app.
Qed.

(** [{ ...a, ...b }] read at a property. *)
Lemma spread_lookup (a b : gmap string string) (k : string) :
  spread a b !! k = match b !! k with Some v => Some v | None => a !! k end.
Proof.
  unfold spread. rewrite lookup_union. by destruct (b !! k), (a !! k).
Qed.

(** A [connect()] whose transport connects and whose tools are listed:
    one transport is opened, the one of the descriptor's kind (for a
    streamable-http endpoint the POST transport, and no SSE transport);
    the object holds the client of that transport, has the tools of the
    response, or none if the response has no tool list, and [connected]
    is reported before the tools; the reconnect counter is back to 0 and
    both observers watch the transport.  The environment a stdio
    transport is given has, for each name, the value of the descriptor
    if it has one, and that of the process otherwise. *)
Theorem connect_succeeds (cfg : EndpointConfig) (evs : list Event)
    (field parsed : string) (x response_tools : option (list Tool)) :
  let c := (run evs (create cfg)).1 in
  needed_field cfg = Some field -> field <> "" ->
  (transport cfg <> stdio -> new_URL field = Some parsed) ->
  _destroyed c = false -> _connecting c = false ->
  let r := run [call_connect; from_env (settles (resolved x));
                from_env (settles (resolved response_tools))] c in
  r.2 = [onStatusChanged connecting None;
         client_connect (first_transport cfg field parsed);
         client_listTools;
         onStatusChanged connected None;
         onToolsChanged (default [] response_tools)] /\
  _status r.1 = connected /\
  _tools r.1 = default [] response_tools /\
  _client r.1 = Some {| clientName := "mcp-central-agent:" +:+ namespace cfg;
                        connectedOver := first_transport cfg field parsed |} /\
  _reconnectAttempt r.1 = 0 /\
  _connecting r.1 = false /\
  handlers r.1 = handlers c ++ [(allocated c, onerror); (allocated c, onclose)] /\
  (transport cfg = stdio ->
     exists e, first_transport cfg field parsed
               = StdioClientTransport field (args cfg) e /\
       forall k, e !! k = match env cfg !! k with
                          | Some v => Some v
                          | None => process_env !! k
                          end).
Proof.
  intros c. destruct (run_config evs (create cfg)) as [Hid Hcfg].
  fold c in Hid, Hcfg. simpl in Hid, Hcfg. clearbody c.
  destruct c. simpl in *. subst.
  unfold needed_field, first_transport. intros Hfield Hne Hparse -> ->.
  unfold run. methods.
  destruct (transport cfg); rewrite Hfield; simpl;
    rewrite bool_decide_eq_false_2 by done; rewrite ?Hparse by done;
    do 7 (split; [done|]); intros Htr; try discriminate.
  eexists. split; [done|]. apply spread_lookup.
Qed.

(** When an observer fires on an object that is connected and not
    destroyed, the tool list is cleared, [error] is reported with the
    message of the fault, and a reconnect is scheduled; the tools callback
    is not called and the client is kept.  On an object that is destroyed
    or not connected the observer only uninstalls itself. *)
Theorem observer_reaction (c : t) (n : nat) (message : option string) :
  ((n, onclose) ∈ handlers c -> _destroyed c = false -> _status c = connected ->
     (_onClose n c).2
     = [onStatusChanged error (Some "Transport closed unexpectedly");
        setTimeout (reconnect_delay (_reconnectAttempt c))] /\
     _tools (_onClose n c).1 = [] /\ _client (_onClose n c).1 = _client c) /\
  ((n, onerror) ∈ handlers c -> _destroyed c = false -> _status c = connected ->
     (_onError n message c).2
     = [onStatusChanged error (Some (default "Transport error" message));
        setTimeout (reconnect_delay (_reconnectAttempt c))] /\
     _tools (_onError n message c).1 = [] /\
     _client (_onError n message c).1 = _client c) /\
  (_destroyed c = true \/ _status c <> connected ->
     (_onClose n c).2 = [] /\ (_onError n message c).2 = [] /\
     _status (_onClose n c).1 = _status c /\
     _status (_onError n message c).1 = _status c /\
     _tools (_onClose n c).1 = _tools c /\
     _tools (_onError n message c).1 = _tools c).
Proof.
  destruct c. simpl. split; [|split].
  - intros Hin -> ->. unfold _onClose. methods.
    by rewrite bool_decide_eq_true_2.
  - intros Hin -> ->. unfold _onError. methods.
    by rewrite bool_decide_eq_true_2.
  - intros Hor. unfold _onClose, _onError. methods.
    destruct Hor as [->|Hs]; branches; done.
Qed.

(** *** An object whose owner calls [connect()] once *)

Lemma filter_only (timer : nat) (delay : Z) :
  filter (fun p : nat * Z => p.1 ≠ timer) [(timer, delay)] = [].
Proof. rewrite filter_cons_False; [done|]. simpl. intros Hne. by apply Hne. Qed.

Lemma owned_connect_create (cfg : EndpointConfig) :
  owned (connect (create cfg)).1.
Proof.
  split; [apply (step_invariant call_connect), create_invariant|].
  unfold create. methods. branches; simpl;
    (split; [first [by left | right; by eauto 10]|]); split; done.
Qed.

Lemma owned_disconnect (c : t) : owned c -> owned (disconnect c).1.
Proof.
  intros (Hinv & Htimers & Hconn & Htools).
  split; [by apply (step_invariant call_disconnect)|].
  destruct c. simpl in *.
  destruct Htimers as [[-> ->]|(timer & delay & -> & -> & -> & -> & ->)].
  - unfold disconnect. methods.
    destruct _client0; simpl; (split; [by left|]); split; done.
  - pose proof (filter_only timer delay) as Hf.
    unfold disconnect. methods. rewrite Hf.
    destruct _client0; simpl; (split; [by left|]); split; done.
Qed.

Lemma owned_signal (s : Signal) (c : t) : owned c -> owned (signal s c).1.
Proof.
  intros (Hinv & Htimers & Hconn & Htools).
  split; [by apply (step_invariant (from_env s))|].
  destruct Hinv as (Hflag & Hclosing & _).
  destruct c. simpl in *.
  destruct Htimers as [[-> ->]|(timer & delay & -> & -> & -> & -> & ->)].
  - destruct s as [[?|?]| |timer| |]; methods; branches;
      try (destruct _connecting0; [exfalso; by apply Hconn|]);
      (split; [first [by left | right; by eauto 10]|]);
      split; intros; simplify_eq; try done; try (by apply Hconn);
      try (by specialize (Hclosing eq_refl));
      apply Htools; try done; apply Hconn; try done; by apply Hflag.
  - assert (suspended0 = None) as ->.
    { destruct suspended0; [|done].
      assert (false = true) by (by apply Hflag). done. }
    destruct s as [[?|?]| |timer'| |];
      try (methods; simpl; split; [right; by eauto 10|]; split; done).
    + methods. rewrite (Hclosing eq_refl). simpl.
      split; [right; by eauto 10|]. split; done.
    + pose proof (filter_only timer delay) as Hf.
      unfold signal, timer_callback. simpl.
      destruct (bool_decide_reflect (timer' ∈ [timer])) as [Hin|Hin]; simpl;
        [|split; [right; by eauto 10|]; split; done].
      apply list_elem_of_singleton in Hin as ->. methods. rewrite Hf.
      branches; (split; [first [by left | right; by eauto 10]|]);
        split; intros; simplify_eq; try done; by apply Htools.
    + methods.
      case_bool_decide; simpl; (split; [right; by eauto 10|]); split; done.
    + methods.
      case_bool_decide; simpl; (split; [right; by eauto 10|]); split; done.
Qed.

End WithHost.

End LocalClientMore.

(** ** The orchestrator: the rest of the class *)

Module McpCentralAgentMore.
Import McpCentralAgent McpCentralAgentCases McpCentralAgentProofs LocalClientTactics.

Section WithHost.
Context `{Host}.

Local Open Scope method_scope.

(** *** Relations every handler respects *)

Lemma respects_seq (R : t -> t -> Prop) (f g : M) :
  Transitive R -> respects R f -> respects R g -> respects R (f ;; g).
Proof. intros ? Hf Hg a. rewrite seq_fst. etrans; [apply Hf|apply Hg]. Qed.

Lemma respects_foreach {A} (R : t -> t -> Prop) (xs : list A) (body : A -> M) :
  Reflexive R -> Transitive R ->
  (forall x, respects R (body x)) -> respects R (foreach xs body).
Proof.
  intros ? ? Hbody. induction xs as [|x xs IH]; [by intros a|].
  simpl. by apply respects_seq.
Qed.

Lemma added_objects (ep : EndpointConfig) (a : t) :
  objects (added ep a).1
  = objects a ++ [(LocalClient.connect (LocalClient.create ep)).1].
Proof.
  unfold added, seq, modify, set_clients. simpl.
  erewrite on_client_spec; [|apply (list_lookup_middle _ []); done]. simpl.
  rewrite insert_app_r_alt, Nat.sub_diag by done. done.
Qed.

(** A relation on states that is reflexive and transitive and that the
    four things a handler does to the state respect (disconnecting an
    object, signalling one, changing the map, adding a client) is
    respected by every event. *)
Lemma step_respects (R : t -> t -> Prop) :
  Reflexive R -> Transitive R ->
  (forall ref, respects R (on_client ref LocalClient.disconnect)) ->
  (forall ref s, respects R (on_client ref (LocalClient.signal s))) ->
  (forall f, respects R (modify (set_clients f))) ->
  (forall ep, respects R (added ep)) ->
  forall ev, respects R (step ev).
Proof.
  intros Hrefl Htrans Hdisc Hsig Hmap Hadd.
  assert (forall x, respects R (call x)) as Hcall by by intros x a.
  assert (respects R skip) as Hskip by by intros a.
  assert (forall k, respects R (_removeEndpoint k)) as Hremove.
  { intros k a. unfold _removeEndpoint. destruct (Map.get k (_clients a)).
    - by apply respects_seq.
    - apply Hskip. }
  assert (forall ep, respects R (_addEndpoint ep)) as Hadd'.
  { intros ep a. destruct (isEnabled ep) eqn:Hen.
    - rewrite _addEndpoint_enabled by done. by apply respects_seq.
    - unfold _addEndpoint. rewrite Hen. apply Hskip. }
  intros [eps|ep|k|k enabled|ep|k|ref s]; simpl.
  - unfold _syncEndpoints. apply respects_seq; [done|..].
    + intros a. apply respects_foreach; [done..|]. intros k.
      case_bool_decide; [apply Hskip|apply Hremove].
    + apply respects_foreach; [done..|]. intros ep.
      destruct (isEnabled ep); [|apply Hskip]. intros a.
      destruct (Map.has (id ep) (_clients a)); [apply Hskip|apply Hadd'].
  - apply Hadd'.
  - apply Hremove.
  - intros a. unfold _toggleEndpoint.
    destruct enabled, (Map.get k (_clients a)); simpl;
      try apply Hskip; try apply Hcall.
    apply respects_seq; [done..|]. by apply respects_seq.
  - unfold _updateEndpoint. apply respects_seq; [done..|].
    destruct (isEnabled ep); [apply Hadd'|apply Hskip].
  - intros a. unfold _refreshEndpoint.
    destruct (Map.get k (_clients a)) as [ref|]; [|apply Hskip].
    destruct (objects a !! ref); [|apply Hskip].
    apply respects_seq; [done..|]. by apply respects_seq.
  - apply Hsig.
Qed.

Lemma run_respects (R : t -> t -> Prop) :
  Reflexive R -> Transitive R ->
  (forall ev, respects R (step ev)) -> forall evs, respects R (run evs).
Proof.
  intros ? ? Hstep evs. induction evs as [|ev evs IH]; [by intros a|].
  simpl. by apply respects_seq.
Qed.

(** A relation on states that is reflexive and transitive, and that
    holds across a signal of an object, across the dropping of a tracked
    client and across [_addEndpoint], holds across every event. *)
Lemma step_units (R : t -> t -> Prop) :
  Reflexive R -> Transitive R ->
  (forall ref s, respects R (on_client ref (LocalClient.signal s))) ->
  (forall k ref a, Map.get k (_clients a) = Some ref -> R a (dropped k ref a).1) ->
  (forall ep, respects R (_addEndpoint ep)) ->
  forall ev, respects R (step ev).
Proof.
  intros Hrefl Htrans Hsig Hdrop Hadd.
  assert (respects R skip) as Hskip by by intros a.
  assert (forall k, respects R (_removeEndpoint k)) as Hremove.
  { intros k a. unfold _removeEndpoint.
    destruct (Map.get k (_clients a)) as [ref|] eqn:Hget; [|apply Hskip].
    by apply Hdrop. }
  intros [eps|ep|k|k enabled|ep|k|ref s]; simpl.
  - unfold _syncEndpoints. apply respects_seq; [done|..].
    + intros a. apply respects_foreach; [done..|]. intros k.
      case_bool_decide; [apply Hskip|apply Hremove].
    + apply respects_foreach; [done..|]. intros ep.
      destruct (isEnabled ep); [|apply Hskip]. intros a.
      destruct (Map.has (id ep) (_clients a)); [apply Hskip|apply Hadd].
  - apply Hadd.
  - apply Hremove.
  - intros a. unfold _toggleEndpoint.
    destruct enabled, (Map.get k (_clients a)) as [ref|] eqn:Hget; simpl;
      try apply Hskip; try done.
    rewrite <-(seq_assoc _ _ _ a), seq_fst. by apply Hdrop.
  - unfold _updateEndpoint. apply respects_seq; [done..|].
    destruct (isEnabled ep); [apply Hadd|apply Hskip].
  - intros a. unfold _refreshEndpoint.
    destruct (Map.get k (_clients a)) as [ref|] eqn:Hget; [|apply Hskip].
    destruct (objects a !! ref); [|apply Hskip].
    rewrite <-(seq_assoc _ _ _ a), seq_fst.
    etrans; [by apply Hdrop|apply Hadd].
  - apply Hsig.
Qed.

(** The calls of every event on the tunnel are calls of the callbacks of
    a client or status updates. *)
Lemma step_calls (P : AgentTunnel.Call -> Prop) :
  (forall ep x, Forall P (callbacks ep x)) ->
  (forall k st e, P (AgentTunnel.call_sendStatusUpdate k st e)) ->
  forall ev a, Forall P (step ev a).2.
Proof.
  intros Hcb Hsu.
  set (emits := fun m : M => forall a, Forall P (m a).2).
  assert (forall f g, emits f -> emits g -> emits (f ;; g)) as Hseq.
  { intros f g Hf Hg a. rewrite seq_snd. apply Forall_app. split; [apply Hf|apply Hg]. }
  assert (emits skip) as Hskip by (intros a; constructor).
  assert (forall f, emits (modify f)) as Hmod by (intros f a; constructor).
  assert (forall A (xs : list A) body, (forall x, emits (body x)) ->
            emits (foreach xs body)) as Hfor.
  { intros A xs body Hbody. induction xs as [|x xs IH]; [apply Hskip|].
    simpl. by apply Hseq. }
  assert (forall ref m, emits (on_client ref m)) as Hon.
  { intros ref m a. unfold on_client.
    destruct (objects a !! ref) as [c|]; [|constructor].
    destruct (m c) as [c' out]. simpl. apply Forall_bind.
    apply Forall_forall. intros x _. apply Hcb. }
  assert (forall k, emits (_removeEndpoint k)) as Hremove.
  { intros k a. unfold _removeEndpoint.
    destruct (Map.get k (_clients a)); [|apply Hskip]. by apply Hseq. }
  assert (forall ep, emits (_addEndpoint ep)) as Hadd.
  { intros ep a. unfold _addEndpoint. destruct (negb (isEnabled ep)); [apply Hskip|].
    apply Hseq.
    - intros b. destruct (Map.get (id ep) (_clients b)); [|apply Hskip].
      by apply Hseq.
    - intros b. apply Hseq; [apply Hmod|]. by apply Hseq. }
  intros [eps|ep|k|k enabled|ep|k|ref s]; simpl.
  - unfold _syncEndpoints. apply Hseq.
    + intros a. apply Hfor. intros k. case_bool_decide; [apply Hskip|apply Hremove].
    + apply Hfor. intros ep. destruct (isEnabled ep); [|apply Hskip].
      intros a. destruct (Map.has (id ep) (_clients a)); [apply Hskip|apply Hadd].
  - apply Hadd.
  - apply Hremove.
  - intros a. unfold _toggleEndpoint.
    destruct enabled, (Map.get k (_clients a)); simpl; try apply Hskip;
      try (repeat constructor; apply Hsu).
    apply Hseq; [apply Hon|]. apply Hseq; [apply Hmod|].
    intros b. repeat constructor. apply Hsu.
  - unfold _updateEndpoint. apply Hseq; [apply Hremove|].
    destruct (isEnabled ep); [apply Hadd|apply Hskip].
  - intros a. unfold _refreshEndpoint.
    destruct (Map.get k (_clients a)) as [ref|]; [|apply Hskip].
    destruct (objects a !! ref); [|apply Hskip].
    apply Hseq; [apply Hon|]. apply Hseq; [apply Hmod|apply Hadd].
  - apply Hon.
Qed.

Lemma keeps_reflexive (P : LocalClient.t -> Prop) : Reflexive (keeps P).
Proof. intros a Ha. exact Ha. Qed.

Lemma keeps_transitive (P : LocalClient.t -> Prop) : Transitive (keeps P).
Proof. intros a b c Hab Hbc Ha. by apply Hbc, Hab. Qed.

Lemma extends_reflexive : Reflexive extends.
Proof. intros a ref c Hc. by exists c. Qed.

Lemma extends_transitive : Transitive extends.
Proof.
  intros a b c Hab Hbc ref x Hx.
  destruct (Hab _ _ Hx) as (y & Hy & Hcfg & Hd).
  destruct (Hbc _ _ Hy) as (z & Hz & Hcfg' & Hd').
  exists z. split; [done|]. split; [congruence|auto].
Qed.

Lemma on_client_keeps (P : LocalClient.t -> Prop) (ref : nat) (m : LocalClient.M) :
  (forall c, P c -> P (m c).1) -> respects (keeps P) (on_client ref m).
Proof.
  intros Hm a Ha. unfold on_client.
  destruct (objects a !! ref) as [c|] eqn:Hc; [|done].
  pose proof (Hm c) as Hmc. destruct (m c) as [c' out]. simpl in *.
  apply Forall_insert; [done|]. apply Hmc. eapply Forall_lookup_1; eauto.
Qed.

Lemma on_client_extends (ref : nat) (m : LocalClient.M) :
  (forall c, LocalClient.config (m c).1 = LocalClient.config c /\
             (LocalClient._destroyed c = true ->
              LocalClient._destroyed (m c).1 = true)) ->
  respects extends (on_client ref m).
Proof.
  intros Hm a ref' x Hx. unfold on_client.
  destruct (objects a !! ref) as [c|] eqn:Hc; [|by exists x].
  pose proof (Hm c) as [Hcfg Hd]. destruct (m c) as [c' out]. simpl in *.
  destruct (decide (ref = ref')) as [<-|Hne].
  - exists c'. rewrite list_lookup_insert_eq by by eapply lookup_lt_Some.
    by assert (x = c) as -> by congruence.
  - exists x. by rewrite list_lookup_insert_ne.
Qed.

(** A property of objects that the first [connect()] establishes and that
    signals and [disconnect()] keep holds of every object of the
    orchestrator, whatever happened. *)
Lemma objects_Forall (P : LocalClient.t -> Prop) :
  (forall cfg, P (LocalClient.connect (LocalClient.create cfg)).1) ->
  (forall s c, P c -> P (LocalClient.signal s c).1) ->
  (forall c, P c -> P (LocalClient.disconnect c).1) ->
  forall evs, Forall P (objects (run evs create).1).
Proof.
  intros Hconnect Hsignal Hdisconnect evs.
  apply (run_respects (keeps P));
    [apply keeps_reflexive|apply keeps_transitive| |by constructor].
  apply step_respects;
    [apply keeps_reflexive|apply keeps_transitive|..]; try done.
  - intros ref. by apply on_client_keeps.
  - intros ref s. apply on_client_keeps, Hsignal.
  - by intros f a Ha.
  - intros ep a Ha. rewrite added_objects. apply Forall_app. split; [done|].
    by constructor.
Qed.

(** *** Objects *)

(** Every object of the orchestrator has at most one reconnect timer set,
    the one [_reconnectTimer] holds; and unless it is destroyed it has
    tools only while it is connected. *)
Theorem one_reconnect_timer (evs : list Event) (ref : nat) (c : LocalClient.t) :
  objects (run evs create).1 !! ref = Some c ->
  length (LocalClient.timers c) <= 1 /\
  (LocalClient.timers c).*1 = option_list (LocalClient._reconnectTimer c) /\
  (LocalClient._destroyed c = false -> LocalClient._status c <> connected ->
     LocalClient._tools c = []).
Proof.
  intros Hc.
  assert (LocalClientCases.owned c) as (_ & Htimers & _ & Htools).
  { eapply Forall_lookup_1; [|exact Hc].
    apply objects_Forall.
    - apply LocalClientMore.owned_connect_create.
    - apply LocalClientMore.owned_signal.
    - apply LocalClientMore.owned_disconnect. }
  split; [|split; [|done]].
  - destruct Htimers as [[-> _]|(? & ? & -> & _)]; simpl; lia.
  - by destruct Htimers as [[-> ->]|(? & ? & -> & -> & _)].
Qed.

(** No event removes an object, changes the descriptor an object was
    constructed from, or revives a destroyed object. *)
Theorem objects_persist (evs : list Event) (a : t) (ref : nat) (c : LocalClient.t) :
  objects a !! ref = Some c ->
  exists c', objects (run evs a).1 !! ref = Some c' /\
    LocalClient.config c' = LocalClient.config c /\
    (LocalClient._destroyed c = true -> LocalClient._destroyed c' = true).
Proof.
  revert ref c. change (extends a (run evs a).1).
  apply run_respects; [apply extends_reflexive|apply extends_transitive|].
  apply step_respects; [apply extends_reflexive|apply extends_transitive|..].
  - intros r. apply on_client_extends. intros c. split.
    + apply (LocalClientProofs.step_config LocalClient.call_disconnect).
    + intros _. apply disconnect_destroyed.
  - intros r s. apply on_client_extends. intros c. split.
    + apply (LocalClientProofs.step_config (LocalClient.from_env s)).
    + rewrite signal_destroyed. done.
  - intros f b r c Hc. by exists c.
  - intros ep b r c Hc. exists c. rewrite added_objects.
    rewrite lookup_app_l by by eapply lookup_lt_Some. done.
Qed.

(** *** The map *)

(** A full replace leaves tracked exactly the tracked ids it lists,
    enabled or not, and the ids it lists as enabled. *)
Theorem full_replace_tracked (evs : list Event) (eps : list EndpointConfig)
    (k : string) :
  let a := (run evs create).1 in
  k ∈ tracked (_syncEndpoints eps a).1 <->
    (k ∈ tracked a /\ k ∈ id <$> eps) \/
    (exists ep, ep ∈ eps /\ isEnabled ep = true /\ id ep = k).
Proof.
  intros a. apply _syncEndpoints_spec, agent_run_invariant, agent_create_invariant.
Qed.

(** After an event that removes an endpoint (a remove, a disable toggle,
    an update with a disabled descriptor) a tool call for its id is
    answered with "No local client for endpoint <id>"; and removing an id
    that is not tracked changes nothing and calls nothing. *)
Theorem removed_has_no_client (evs : list Event) (ev : Event)
    (payload : ToolCallPayload) :
  let a := (run evs create).1 in
  let k := endpointId payload in
  (ev = onEndpointRemove k \/ ev = onEndpointToggle k false \/
   exists ep, ev = onEndpointUpdate ep /\ id ep = k /\ isEnabled ep = false) ->
  _handleToolCall payload (step ev a).1
  = answered [AgentTunnel.call_sendToolError (callId payload)
                ("No local client for endpoint " +:+ k)].
Proof.
  intros a k Hev.
  assert (invariant a) as Hinv by apply agent_run_invariant, agent_create_invariant.
  assert (k ∉ tracked (step ev a).1) as Hun.
  { destruct Hev as [->|[->|(ep & -> & <- & Hen)]]; simpl.
    - destruct (_removeEndpoint_spec k a Hinv) as [_ ->]. naive_solver.
    - destruct (_toggleEndpoint_spec k false a Hinv) as [_ ->].
      intros (_ & [?|?]); done.
    - destruct (_updateEndpoint_spec ep a Hinv) as [_ ->]. rewrite Hen.
      intros [[_ ?]|[? _]]; done. }
  apply MapProofs.get_None in Hun. unfold _handleToolCall. fold k. by rewrite Hun.
Qed.

Lemma _removeEndpoint_untracked (k : string) (a : t) :
  Map.get k (_clients a) = None -> _removeEndpoint k a = (a, []).
Proof. intros Hget. unfold _removeEndpoint. by rewrite Hget. Qed.

(** An update is an add when its descriptor is enabled and a remove when
    it is disabled: the same state and the same calls on the tunnel. *)
Theorem update_is_add_or_remove (evs : list Event) (ep : EndpointConfig) :
  let a := (run evs create).1 in
  _updateEndpoint ep a
  = if isEnabled ep then _addEndpoint ep a else _removeEndpoint (id ep) a.
Proof.
  intros a.
  assert (invariant a) as Hinv by apply agent_run_invariant, agent_create_invariant.
  unfold _updateEndpoint. destruct (isEnabled ep) eqn:Hen.
  - assert (forall b, _addEndpoint ep b = (_removeEndpoint (id ep) ;; added ep) b)
      as Hadd by (intros b; by apply _addEndpoint_enabled).
    destruct (_removeEndpoint_spec (id ep) a Hinv) as [_ Hk].
    assert (Map.get (id ep) (_clients (_removeEndpoint (id ep) a).1) = None) as Hget.
    { apply MapProofs.get_None. fold (tracked (_removeEndpoint (id ep) a).1).
      rewrite Hk. naive_solver. }
    assert (_addEndpoint ep (_removeEndpoint (id ep) a).1
            = added ep (_removeEndpoint (id ep) a).1) as Hinner.
    { rewrite Hadd. unfold seq. rewrite (_removeEndpoint_untracked _ _ Hget).
      by destruct (added ep _). }
    rewrite (Hadd a). unfold seq.
    destruct (_removeEndpoint (id ep) a) as [a1 out1]. simpl in Hinner.
    by rewrite Hinner.
  - unfold seq, skip. destruct (_removeEndpoint (id ep) a). by rewrite app_nil_r.
Qed.

(** *** Adding and refreshing *)

Lemma keys_filter (k : string) (m : Map.t nat) :
  Map.keys (filter (fun kv => kv.1 ≠ k) m) = filter (.≠ k) (Map.keys m).
Proof.
  unfold Map.keys. induction m as [|[k' v] m IH]; [done|].
  rewrite fmap_cons, !filter_cons. simpl.
  destruct (decide (k' ≠ k)); [rewrite fmap_cons|]; by rewrite IH.
Qed.

Lemma get_snoc {V} (k k' : string) (v : V) (m : Map.t V) :
  Map.get k' (m ++ [(k, v)])
  = match Map.get k' m with
    | Some v' => Some v'
    | None => if decide (k = k') then Some v else None
    end.
Proof.
  induction m as [|[k1 v1] m IH]; simpl; [done|].
  destruct (decide (k1 = k')); [done|]. apply IH.
Qed.

Lemma get_filter_ne {V} (k k' : string) (m : Map.t V) :
  k' ≠ k -> Map.get k' (filter (fun kv => kv.1 ≠ k) m) = Map.get k' m.
Proof.
  intros Hne. induction m as [|[k1 v1] m IH]; [done|].
  rewrite filter_cons. simpl. destruct (decide (k1 ≠ k)) as [?|Heq]; simpl.
  - destruct (decide (k1 = k')); [done|]. apply IH.
  - apply dec_stable in Heq. subst. rewrite decide_False by done. apply IH.
Qed.

Lemma get_filter_ne_self {V} (k : string) (m : Map.t V) :
  Map.get k (filter (fun kv => kv.1 ≠ k) m) = None.
Proof.
  induction m as [|[k1 v1] m IH]; [done|].
  rewrite filter_cons. simpl. destruct (decide (k1 ≠ k)); simpl; [|done].
  by rewrite decide_False.
Qed.

(** What [_addEndpoint] of an enabled descriptor leaves. *)
Lemma _addEndpoint_post (ep : EndpointConfig) (a : t) :
  invariant a -> isEnabled ep = true ->
  let r := _addEndpoint ep a in
  let new := length (objects a) in
  invariant r.1 /\
  _clients r.1 = filter (fun kv => kv.1 ≠ id ep) (_clients a) ++ [(id ep, new)] /\
  objects r.1
  = match Map.get (id ep) (_clients a) with
    | Some ref => <[ref := (LocalClient.disconnect
                             (default (LocalClient.create ep) (objects a !! ref))).1]>
                    (objects a)
    | None => objects a
    end ++ [(LocalClient.connect (LocalClient.create ep)).1] /\
  r.2 = match routed (id ep) a with
        | Some c =>
            match LocalClient._client c with
            | None => [AgentTunnel.call_sendStatusUpdate (id ep) disconnected None]
            | Some _ => []
            end
        | None => []
        end ++ ((LocalClient.connect (LocalClient.create ep)).2 ≫= callbacks ep).
Proof.
  intros Hinv Hen r new. unfold r. rewrite _addEndpoint_enabled by done.
  rewrite seq_fst, seq_snd.
  destruct (_removeEndpoint_spec (id ep) a Hinv) as [Hinv1 Hk1].
  assert (id ep ∉ tracked (_removeEndpoint (id ep) a).1) as Hfresh
    by (rewrite Hk1; naive_solver).
  destruct (added_spec ep _ Hinv1 Hfresh Hen) as (Hinv2 & Hclients & Hout).
  rewrite Hclients, Hout, added_objects. split; [done|].
  unfold _removeEndpoint, routed in *.
  destruct (Map.get (id ep) (_clients a)) as [ref|] eqn:Hget.
  - destruct (invariant_lookup a _ _ Hinv Hget) as (c & Hc & _).
    destruct (dropped_spec (id ep) ref a c Hinv Hget Hc)
      as (_ & Hclients1 & Hobjs1 & Hout1).
    fold (dropped (id ep) ref a). rewrite Hclients1, Hobjs1, Hout1, Hc. simpl.
    by rewrite ?Hc, length_insert.
  - simpl. split; [|done].
    rewrite MapProofs.filter_all; [done|]. apply Forall_forall.
    intros [k1 v1] Hin Heq. simpl in Heq. subst.
    apply MapProofs.get_None in Hget. apply Hget.
    by apply (list_elem_of_fmap_2 fst) in Hin.
Qed.

(** An add of an enabled descriptor tracks a new client, constructed from
    the descriptor and asked to connect, under the id, last in the map; a
    client tracked under the id before is disconnected and stays, dropped,
    among the objects; an add of a disabled descriptor does nothing, also
    to a client tracked under its id. *)
Theorem add_replaces (evs : list Event) (ep : EndpointConfig) :
  let a := (run evs create).1 in
  let r := _addEndpoint ep a in
  (isEnabled ep = true ->
     tracked r.1 = filter (.≠ id ep) (tracked a) ++ [id ep] /\
     routed (id ep) r.1 = Some (LocalClient.connect (LocalClient.create ep)).1 /\
     (forall old, routed (id ep) a = Some old ->
        Map.get (id ep) (_clients a) ≫= (objects r.1 !!.)
        = Some (LocalClient.disconnect old).1)) /\
  (isEnabled ep = false -> r = (a, [])).
Proof.
  intros a r. split.
  - intros Hen.
    assert (invariant a) as Hinv by apply agent_run_invariant, agent_create_invariant.
    destruct (_addEndpoint_post ep a Hinv Hen) as (_ & Hclients & Hobjs & _).
    fold r in Hclients, Hobjs.
    assert (id ep ∉ Map.keys (filter (fun kv => kv.1 ≠ id ep) (_clients a)))
      as Hfresh by (rewrite keys_filter; intros [? _]%list_elem_of_filter; done).
    apply MapProofs.get_None in Hfresh.
    split; [|split].
    + unfold tracked, Map.keys. rewrite Hclients, fmap_app.
      fold (Map.keys (filter (fun kv => kv.1 ≠ id ep) (_clients a))).
      by rewrite keys_filter.
    + unfold routed. rewrite Hclients, get_snoc, Hfresh, decide_True by done.
      simpl. rewrite Hobjs. apply list_lookup_middle.
      destruct (Map.get (id ep) (_clients a)); [by rewrite length_insert|done].
    + intros old. unfold routed.
      destruct (Map.get (id ep) (_clients a)) as [ref|] eqn:Hget; [|done].
      simpl. intros Hold. rewrite Hobjs, Hold. simpl.
      rewrite lookup_app_l
        by (rewrite length_insert; by eapply lookup_lt_Some).
      apply list_lookup_insert_eq. by eapply lookup_lt_Some.
  - intros Hen. unfold r, _addEndpoint. by rewrite Hen.
Qed.

(** A refresh of a tracked id replaces its client by a new one
    constructed from the same descriptor, the one the old client was
    constructed from, and disconnects the old one; the tracked ids stay
    the same; a refresh of an id that is not tracked does nothing. *)
Theorem refresh_reconnects (evs : list Event) (k : string) :
  let a := (run evs create).1 in
  let r := _refreshEndpoint k a in
  (forall old, routed k a = Some old ->
     routed k r.1
     = Some (LocalClient.connect
               (LocalClient.create (LocalClient.config old))).1 /\
     Map.get k (_clients a) ≫= (objects r.1 !!.)
     = Some (LocalClient.disconnect old).1 /\
     (forall k', k' ∈ tracked r.1 <-> k' ∈ tracked a)) /\
  (k ∉ tracked a -> r = (a, [])).
Proof.
  intros a r.
  assert (invariant a) as Hinv by apply agent_run_invariant, agent_create_invariant.
  split.
  - intros old. unfold routed at 1.
    destruct (Map.get k (_clients a)) as [ref|] eqn:Hget; [|done].
    simpl. intros Hold.
    destruct (invariant_lookup a _ _ Hinv Hget) as (c & Hc & Hid & Hen & _).
    assert (c = old) as -> by congruence.
    destruct (dropped_spec k ref a old Hinv Hget Hold)
      as (Hinv1 & Hclients1 & Hobjs1 & _).
    assert (r.1 = (_addEndpoint (LocalClient.config old) (dropped k ref a).1).1)
      as Hr.
    { unfold r, _refreshEndpoint. rewrite Hget, Hold.
      by rewrite <-(seq_assoc _ _ _ a), seq_fst. }
    destruct (_addEndpoint_post (LocalClient.config old) _ Hinv1 Hen)
      as (_ & Hclients & Hobjs & _).
    rewrite <-Hr, Hid in Hclients, Hobjs.
    assert (Map.get k (_clients (dropped k ref a).1) = None) as Hnone.
    { rewrite Hclients1. apply MapProofs.get_None. rewrite keys_filter.
      intros [? _]%list_elem_of_filter; done. }
    rewrite Hnone in Hobjs.
    split; [|split].
    + unfold routed. rewrite Hclients, get_snoc.
      rewrite get_filter_ne_self, decide_True by done.
      simpl. rewrite Hobjs. by apply list_lookup_middle.
    + rewrite Hobjs, Hobjs1.
      rewrite lookup_app_l
        by (rewrite length_insert; by eapply lookup_lt_Some).
      apply list_lookup_insert_eq. by eapply lookup_lt_Some.
    + by apply _refreshEndpoint_spec.
  - intros Hun%MapProofs.get_None. unfold r, _refreshEndpoint. by rewrite Hun.
Qed.

(** *** Other endpoints *)

Lemma routed_removed (k k' : string) (a : t) :
  invariant a -> k' ≠ k -> routed k' (_removeEndpoint k a).1 = routed k' a.
Proof.
  intros Hinv Hne. unfold _removeEndpoint.
  destruct (Map.get k (_clients a)) as [ref|] eqn:Hget; [|done].
  destruct (invariant_lookup a _ _ Hinv Hget) as (c & Hc & _).
  destruct (dropped_spec k ref a c Hinv Hget Hc) as (_ & Hclients & Hobjs & _).
  fold (dropped k ref a). unfold routed. rewrite Hclients, Hobjs, get_filter_ne by done.
  destruct (Map.get k' (_clients a)) as [ref'|] eqn:Hget'; [|done]. simpl.
  apply list_lookup_insert_ne. intros <-.
  destruct Hinv as (Hnd & Hr & _).
  apply MapProofs.get_Some in Hget, Hget'; [|done..].
  apply Hne. by eapply (NoDup_fmap_snd_inj (_clients a)).
Qed.

Lemma routed_added (ep : EndpointConfig) (k' : string) (a : t) :
  invariant a -> id ep ∉ tracked a -> isEnabled ep = true -> k' ≠ id ep ->
  routed k' (added ep a).1 = routed k' a.
Proof.
  intros Hinv Hfresh Hen Hne.
  destruct (added_spec ep a Hinv Hfresh Hen) as (_ & Hclients & _).
  unfold routed. rewrite Hclients, added_objects, get_snoc.
  destruct (Map.get k' (_clients a)) as [ref'|] eqn:Hget'; simpl.
  - destruct (invariant_lookup a _ _ Hinv Hget') as (c & Hc & _).
    apply lookup_app_l. by eapply lookup_lt_Some.
  - by rewrite decide_False.
Qed.

Lemma routed_add (ep : EndpointConfig) (k' : string) (a : t) :
  invariant a -> k' ≠ id ep -> routed k' (_addEndpoint ep a).1 = routed k' a.
Proof.
  intros Hinv Hne. destruct (isEnabled ep) eqn:Hen.
  - rewrite _addEndpoint_enabled, seq_fst by done.
    destruct (_removeEndpoint_spec (id ep) a Hinv) as [Hinv1 Hk1].
    rewrite routed_added; [by apply routed_removed|done| |done..].
    rewrite Hk1. naive_solver.
  - unfold _addEndpoint. by rewrite Hen.
Qed.

(** An event that names an endpoint leaves every other id routed to the
    same object in the same state, and so does a signal of an object the
    id is not routed to: a tool call for another endpoint is answered as
    before. *)
Theorem other_endpoints_untouched (evs : list Event) (ev : Event)
    (payload : ToolCallPayload) :
  let a := (run evs create).1 in
  let k' := endpointId payload in
  (exists k, subject ev = Some k /\ k ≠ k') \/
  (exists ref s, ev = client_signal ref s /\ Map.get k' (_clients a) ≠ Some ref) ->
  routed k' (step ev a).1 = routed k' a /\
  _handleToolCall payload (step ev a).1 = _handleToolCall payload a.
Proof.
  intros a k' Hev.
  assert (invariant a) as Hinv by apply agent_run_invariant, agent_create_invariant.
  assert (routed k' (step ev a).1 = routed k' a) as Hrouted.
  { destruct Hev as [(k & Hsub & Hne)|(ref & s & -> & Hne)].
    - destruct ev as [eps|ep|k0|k0 enabled|ep|k0|ref s]; simpl in Hsub;
        simplify_eq; simpl.
      + by apply routed_add.
      + by apply routed_removed.
      + assert ((_toggleEndpoint k enabled a).1
                = if enabled then a else (_removeEndpoint k a).1) as ->.
        { unfold _toggleEndpoint, _removeEndpoint.
          destruct enabled, (Map.get k (_clients a)); simpl; try done.
          by rewrite <-(seq_assoc _ _ _ a), seq_fst. }
        destruct enabled; [done|by apply routed_removed].
      + unfold _updateEndpoint. rewrite seq_fst.
        destruct (_removeEndpoint_spec (id ep) a Hinv) as [Hinv1 _].
        destruct (isEnabled ep).
        * rewrite routed_add by done. by apply routed_removed.
        * by apply routed_removed.
      + unfold _refreshEndpoint.
        destruct (Map.get k (_clients a)) as [ref|] eqn:Hget; [|done].
        destruct (invariant_lookup a _ _ Hinv Hget) as (c & Hc & Hid & _).
        rewrite Hc, <-(seq_assoc _ _ _ a), seq_fst.
        pose proof (routed_removed k k' a Hinv) as Hrem.
        destruct (_removeEndpoint_spec k a Hinv) as [Hinv1 _].
        unfold _removeEndpoint in Hrem, Hinv1. rewrite Hget in Hrem, Hinv1.
        rewrite routed_add by (by rewrite ?Hid). by apply Hrem.
    - simpl. unfold routed, on_client.
      destruct (objects a !! ref) as [c|] eqn:Hc; [|done].
      destruct (LocalClient.signal s c) as [c' out]. simpl.
      destruct (Map.get k' (_clients a)) as [ref'|]; [|done]. simpl.
      apply list_lookup_insert_ne. congruence. }
  split; [done|]. unfold routed in Hrouted. unfold _handleToolCall.
  fold k'. by rewrite Hrouted.
Qed.

End WithHost.

End McpCentralAgentMore.

(** ** [stop()] among the events of the orchestrator *)

Module StopProofs.
Import McpCentralAgent McpCentralAgentCases McpCentralAgentProofs.
Import McpCentralAgentMore LocalClientTactics.

(** *** Lists and maps *)

Lemma elem_of_insert_inv {A} (l : list A) (i : nat) (x y : A) :
  y ∈ <[i := x]> l -> y = x \/ y ∈ l.
Proof.
  intros (j & Hj)%list_elem_of_lookup.
  apply list_lookup_insert_Some in Hj as [(_ & -> & _)|[_ Hj]]; [by left|right].
  by eapply list_elem_of_lookup_2.
Qed.

Lemma elem_of_insert_other {A} (l : list A) (i : nat) (x y z : A) :
  l !! i = Some z -> y ∈ l -> y = z \/ y ∈ <[i := x]> l.
Proof.
  intros Hi (j & Hj)%list_elem_of_lookup. destruct (decide (i = j)) as [->|Hne].
  - left. congruence.
  - right. apply (list_elem_of_lookup_2 _ j). by rewrite list_lookup_insert_ne.
Qed.

Lemma elem_of_delete_other {A} (l : list A) (i : nat) (y z : A) :
  l !! i = Some z -> y ∈ l -> y = z \/ y ∈ delete i l.
Proof.
  intros Hi (j & Hj)%list_elem_of_lookup.
  destruct (decide (j < i)) as [Hlt|Hge].
  { right. apply (list_elem_of_lookup_2 _ j). by rewrite list_lookup_delete_lt. }
  destruct (decide (j = i)) as [->|Hne]; [left; congruence|].
  right. apply (list_elem_of_lookup_2 _ (pred j)).
  rewrite list_lookup_delete_ge by lia. by replace (S (pred j)) with j by lia.
Qed.

Lemma increasing_filter (P : string * nat -> Prop) `{forall x, Decision (P x)}
    (m : Map.t nat) :
  Stop.increasing m -> Stop.increasing (filter P m).
Proof.
  unfold Stop.increasing. induction m as [|e m IH]; [done|].
  intros [Hall Hm]%StronglySorted_cons. rewrite filter_cons.
  case_decide; [|auto]. apply StronglySorted_cons. split; [|auto].
  apply Forall_forall. intros e' [_ Hin]%list_elem_of_filter.
  by eapply Forall_forall in Hall.
Qed.

Lemma increasing_snoc (m : Map.t nat) (k : string) (r : nat) :
  Stop.increasing m -> (forall k' r', (k', r') ∈ m -> r' < r) ->
  Stop.increasing (m ++ [(k, r)]).
Proof.
  intros Hm Hlt. apply StronglySorted_app. split; [|split; [done|]].
  - intros [k1 r1] e2 H1 ->%list_elem_of_singleton. simpl. eauto.
  - repeat constructor.
Qed.

Lemma increasing_first (e e' : string * nat) (m : Map.t nat) :
  Stop.increasing (e :: m) -> e' ∈ e :: m -> e'.2 <= e.2 -> e' = e.
Proof.
  intros [Hall _]%StronglySorted_cons [->|Hin]%elem_of_cons Hle; [done|].
  eapply Forall_forall in Hall; [|done]. simpl in Hall. lia.
Qed.

Lemma increasing_inj (m : Map.t nat) (k k' : string) (r : nat) :
  Stop.increasing m -> (k, r) ∈ m -> (k', r) ∈ m -> k = k'.
Proof.
  unfold Stop.increasing. induction m as [|e m IH]; [by intros _ ?%elem_of_nil|].
  intros [Hall Hm]%StronglySorted_cons [?|H1]%elem_of_cons [?|H2]%elem_of_cons;
    simplify_eq; auto.
  - eapply Forall_forall in Hall; [|done]. simpl in Hall. lia.
  - eapply Forall_forall in Hall; [|done]. simpl in Hall. lia.
Qed.

(** In a map whose references increase, the entries that come after an
    entry are those with a larger reference. *)
Lemma entries_after (l1 l2 : Map.t nat) (k : string) (r : nat) :
  Stop.increasing (l1 ++ (k, r) :: l2) ->
  filter (fun kv : string * nat => r < kv.2) (l1 ++ (k, r) :: l2) = l2.
Proof.
  intros (Hlt & _ & [Hgt _]%StronglySorted_cons)%StronglySorted_app.
  rewrite filter_app, filter_cons_False by (simpl; lia).
  assert (filter (fun kv : string * nat => r < kv.2) l1 = []) as ->.
  { clear Hgt. induction l1 as [|e l1 IH]; [done|].
    rewrite filter_cons_False.
    - apply IH. intros x1 x2 H1 H2. apply Hlt; [by right|done].
    - specialize (Hlt e (k, r)). simpl in Hlt.
      assert (e.2 < r) by (apply Hlt; by left). lia. }
  simpl. by apply MapProofs.filter_all.
Qed.

Lemma delete_not_elem_of (m : Map.t nat) (k : string) (r : nat) :
  NoDup (Map.keys m) -> (k, r) ∉ Map.delete k m.
Proof.
  intros Hnd. rewrite MapProofs.delete_filter by done.
  intros [Hne _]%list_elem_of_filter. by apply Hne.
Qed.

Lemma delete_subseteq (m : Map.t nat) (k : string) (e : string * nat) :
  NoDup (Map.keys m) -> e ∈ Map.delete k m -> e ∈ m.
Proof.
  intros Hnd. rewrite MapProofs.delete_filter by done.
  by intros [_ ?]%list_elem_of_filter.
Qed.

Section WithHost.
Context `{Host}.

Local Open Scope method_scope.

(** *** What holds while calls of [stop()] are suspended *)

(** A method that keeps the descriptor and the flag [_destroyed] of the
    object. *)
Lemma on_client_at (sites : list (string * nat)) (ref : nat) (m : LocalClient.M)
    (a : t) :
  (forall c, LocalClient.config (m c).1 = LocalClient.config c /\
             LocalClient._destroyed (m c).1 = LocalClient._destroyed c) ->
  Stop.invariant_at sites a -> Stop.invariant_at sites (on_client ref m a).1.
Proof.
  intros Hm (Hk & Hs & Hobj & Hsites). unfold on_client.
  destruct (objects a !! ref) as [c|] eqn:Hc; [|done].
  destruct (Hm c) as [Hcfg Hd]. destruct (m c) as [c' out].
  unfold Stop.invariant_at. simpl in *.
  split; [done|]. split; [done|]. split.
  - intros k r Hin. destruct (Hobj _ _ Hin) as (c1 & Hc1 & ? & ? & ?).
    destruct (decide (ref = r)) as [<-|Hne].
    + exists c'. rewrite list_lookup_insert_eq by by eapply lookup_lt_Some.
      assert (c1 = c) as -> by congruence. by rewrite Hcfg, Hd.
    + exists c1. by rewrite list_lookup_insert_ne.
  - intros k' r Hin. destruct (Hsites _ _ Hin) as [(c1 & Hc1 & Hd1) Hle].
    split; [|done]. destruct (decide (ref = r)) as [<-|Hne].
    + exists c'. rewrite list_lookup_insert_eq by by eapply lookup_lt_Some.
      assert (c1 = c) as -> by congruence. by rewrite Hd.
    + exists c1. by rewrite list_lookup_insert_ne.
Qed.

Lemma signal_at (sites : list (string * nat)) (ref : nat) (s : LocalClient.Signal)
    (a : t) :
  Stop.invariant_at sites a ->
  Stop.invariant_at sites (on_client ref (LocalClient.signal s) a).1.
Proof.
  apply on_client_at. intros c. split.
  - apply (LocalClientProofs.step_config (LocalClient.from_env s)).
  - apply signal_destroyed.
Qed.

(** [disconnect()] on the object at [ref]. *)
Lemma disconnect_at (ref : nat) (a : t) (c : LocalClient.t) :
  objects a !! ref = Some c ->
  (on_client ref LocalClient.disconnect a).1
  = {| _clients := _clients a;
       objects := <[ref := (LocalClient.disconnect c).1]> (objects a) |} /\
  LocalClient.config (LocalClient.disconnect c).1 = LocalClient.config c /\
  LocalClient._destroyed (LocalClient.disconnect c).1 = true.
Proof.
  intros Hc. rewrite (on_client_spec _ _ _ _ Hc). split; [done|]. split.
  - apply (LocalClientProofs.step_config LocalClient.call_disconnect).
  - apply disconnect_destroyed.
Qed.

Lemma dropped_at (sites : list (string * nat)) (k : string) (ref : nat) (a : t) :
  Stop.invariant_at sites a -> Map.get k (_clients a) = Some ref ->
  Stop.invariant_at sites (dropped k ref a).1.
Proof.
  intros (Hk & Hs & Hobj & Hsites) Hget.
  apply MapProofs.get_Some in Hget; [|done].
  destruct (Hobj _ _ Hget) as (c & Hc & _).
  destruct (disconnect_at ref a c Hc) as (Ha1 & Hcfg & Hd).
  unfold dropped. rewrite seq_fst, Ha1.
  unfold Stop.invariant_at, modify, set_clients. simpl.
  rewrite MapProofs.delete_filter by done.
  split; [by apply NoDup_fmap_filter|]. split; [by apply increasing_filter|].
  split.
  - intros k' r [Hne Hin]%list_elem_of_filter. simpl in Hne.
    destruct (Hobj _ _ Hin) as (c1 & Hc1 & ?). exists c1. split; [|done].
    rewrite list_lookup_insert_ne; [done|]. intros <-.
    apply Hne. by eapply increasing_inj.
  - intros k' r Hin. destruct (Hsites _ _ Hin) as [(c1 & Hc1 & Hd1) Hle]. split.
    + destruct (decide (ref = r)) as [<-|Hne].
      * eexists. by rewrite list_lookup_insert_eq by by eapply lookup_lt_Some.
      * exists c1. by rewrite list_lookup_insert_ne.
    + intros k1 r1 [_ Hin1]%list_elem_of_filter. eauto.
Qed.

Lemma removed_at (sites : list (string * nat)) (k : string) (a : t) :
  Stop.invariant_at sites a ->
  Stop.invariant_at sites (_removeEndpoint k a).1 /\
  k ∉ tracked (_removeEndpoint k a).1.
Proof.
  intros Hinv. unfold _removeEndpoint.
  destruct (Map.get k (_clients a)) as [ref|] eqn:Hget.
  - split; [by apply dropped_at|]. fold (dropped k ref a).
    destruct Hinv as (Hk & _ & Hobj & _).
    apply MapProofs.get_Some in Hget as Hin; [|done].
    destruct (Hobj _ _ Hin) as (c & Hc & _).
    destruct (disconnect_at ref a c Hc) as (Ha1 & _).
    unfold dropped. rewrite seq_fst, Ha1. unfold tracked, modify, set_clients. simpl.
    rewrite MapProofs.delete_filter by done.
    intros [_ Hne]%keys_filter_ne. done.
  - split; [done|]. by apply MapProofs.get_None.
Qed.

Lemma added_at (sites : list (string * nat)) (ep : EndpointConfig) (a : t) :
  Stop.invariant_at sites a -> id ep ∉ tracked a -> isEnabled ep = true ->
  Stop.invariant_at sites (added ep a).1.
Proof.
  intros (Hk & Hs & Hobj & Hsites) Hfresh Hen.
  assert (forall k ref, (k, ref) ∈ _clients a -> ref < length (objects a)) as Hlt.
  { intros k ref (c & Hc & _)%Hobj. by eapply lookup_lt_Some. }
  assert (_clients (added ep a).1 = _clients a ++ [(id ep, length (objects a))])
    as Hclients.
  { unfold added, seq, modify, set_clients. simpl.
    erewrite on_client_spec; [|apply (list_lookup_middle _ []); done]. simpl.
    by rewrite MapProofs.set_fresh. }
  pose proof (LocalClientProofs.step_config LocalClient.call_connect
                (LocalClient.create ep)) as [_ Hcfg]. simpl in Hcfg.
  unfold Stop.invariant_at. rewrite Hclients, added_objects. split; [|split; [|split]].
  - unfold Map.keys. rewrite fmap_app. apply NoDup_app. split; [done|].
    split; [|apply NoDup_singleton].
    intros k Hin ->%list_elem_of_singleton. by apply Hfresh.
  - by apply increasing_snoc.
  - intros k ref [Hin|Hin%list_elem_of_singleton]%elem_of_app.
    + destruct (Hobj _ _ Hin) as (c & Hc & ?). exists c. split; [|done].
      apply Hlt in Hin. by rewrite lookup_app_l.
    + simplify_eq. eexists. split; [by apply list_lookup_middle|].
      rewrite Hcfg, connect_keeps_destroyed. done.
  - intros k' r Hin. destruct (Hsites _ _ Hin) as [(c1 & Hc1 & Hd1) Hle]. split.
    + exists c1. split; [|done]. rewrite lookup_app_l; [done|].
      by eapply lookup_lt_Some.
    + intros k ref [Hin1|Hin1%list_elem_of_singleton]%elem_of_app; [eauto|].
      simplify_eq. apply lookup_lt_Some in Hc1. lia.
Qed.

Lemma _addEndpoint_at (sites : list (string * nat)) (ep : EndpointConfig) (a : t) :
  Stop.invariant_at sites a -> Stop.invariant_at sites (_addEndpoint ep a).1.
Proof.
  intros Hinv. destruct (isEnabled ep) eqn:Hen.
  - rewrite _addEndpoint_enabled, seq_fst by done.
    destruct (removed_at sites (id ep) a Hinv) as [Hinv1 Hfresh].
    by apply added_at.
  - unfold _addEndpoint. by rewrite Hen.
Qed.

(** Every event of the orchestrator keeps it. *)
Lemma step_at (sites : list (string * nat)) (ev : Event) (a : t) :
  Stop.invariant_at sites a -> Stop.invariant_at sites (step ev a).1.
Proof.
  revert a.
  apply (step_units (fun a a' =>
           Stop.invariant_at sites a -> Stop.invariant_at sites a')).
  - by intros a Ha.
  - intros a b c Hab Hbc Ha. by apply Hbc, Hab.
  - intros ref s a. apply signal_at.
  - intros k ref a Hget Ha. by apply dropped_at.
  - intros ep a. apply _addEndpoint_at.
Qed.

(** Deleting an id keeps it. *)
Lemma delete_at (sites : list (string * nat)) (k : string) (a : t) :
  Stop.invariant_at sites a -> Stop.invariant_at sites (set_clients (Map.delete k) a).
Proof.
  intros (Hk & Hs & Hobj & Hsites). unfold Stop.invariant_at, set_clients. simpl.
  rewrite MapProofs.delete_filter by done.
  split; [by apply NoDup_fmap_filter|]. split; [by apply increasing_filter|].
  split.
  - intros k' r [_ Hin]%list_elem_of_filter. eauto.
  - intros k' r Hin. destruct (Hsites _ _ Hin) as [Hd Hle]. split; [done|].
    intros k1 r1 [_ Hin1]%list_elem_of_filter. eauto.
Qed.

(** A [stop()] comes to a tracked client and calls [disconnect()] on
    it. *)
Lemma visit_at (sites : list (string * nat)) (k : string) (ref : nat) (a : t) :
  Stop.invariant_at sites a -> (k, ref) ∈ _clients a ->
  (forall k1 r1, (k1, r1) ∈ _clients a -> r1 <= ref -> k1 = k /\ r1 = ref) ->
  Stop.invariant_at ((k, ref) :: sites) (on_client ref LocalClient.disconnect a).1.
Proof.
  intros (Hk & Hs & Hobj & Hsites) Hin Hfirst.
  destruct (Hobj _ _ Hin) as (c & Hc & Hid & Hen & _).
  destruct (disconnect_at ref a c Hc) as (-> & Hcfg & Hd).
  unfold Stop.invariant_at. simpl.
  split; [done|]. split; [done|]. split.
  - intros k1 r1 Hin1. destruct (Hobj _ _ Hin1) as (c1 & Hc1 & ? & ? & Hd1).
    destruct (decide (ref = r1)) as [<-|Hne].
    + eexists. rewrite list_lookup_insert_eq by by eapply lookup_lt_Some.
      assert (c1 = c) as -> by congruence. rewrite Hcfg.
      repeat (split; [done|]). intros _. exists k. by left.
    + exists c1. rewrite list_lookup_insert_ne by done.
      repeat (split; [done|]). intros (k' & Hk')%Hd1. exists k'. by right.
  - intros k' r [Heq|Hin1]%elem_of_cons.
    + simplify_eq. split; [|done].
      eexists. by rewrite list_lookup_insert_eq by by eapply lookup_lt_Some.
    + destruct (Hsites _ _ Hin1) as [(c1 & Hc1 & Hd1) Hle]. split; [|done].
      destruct (decide (ref = r)) as [<-|Hne].
      * eexists. by rewrite list_lookup_insert_eq by by eapply lookup_lt_Some.
      * exists c1. by rewrite list_lookup_insert_ne.
Qed.

(** The suspended calls change places, or one that is at no entry of the
    map is gone. *)
Lemma sites_at (sites sites' : list (string * nat)) (a : t) :
  Stop.invariant_at sites a ->
  (forall p, p ∈ sites' -> p ∈ sites) ->
  (forall p, p ∈ sites -> p ∈ sites' \/ forall k, (k, p.2) ∉ _clients a) ->
  Stop.invariant_at sites' a.
Proof.
  intros (Hk & Hs & Hobj & Hsites) Hsub Hkept.
  split; [done|]. split; [done|]. split.
  - intros k r Hin. destruct (Hobj _ _ Hin) as (c & Hc & ? & ? & Hd).
    exists c. repeat (split; [done|]). intros (k' & Hk')%Hd.
    destruct (Hkept _ Hk') as [?|Hno]; [by exists k'|].
    by destruct (Hno k).
  - intros k' r Hin. by apply Hsites, Hsub.
Qed.

Lemma on_agent_fst (m : M) (s : Stop.t) :
  (Stop.on_agent m s).1
  = {| Stop.agent := (m (Stop.agent s)).1; Stop.stops := Stop.stops s |}.
Proof. unfold Stop.on_agent. by destruct (m (Stop.agent s)). Qed.

Lemma on_agent_snd (m : M) (s : Stop.t) :
  (Stop.on_agent m s).2 = (m (Stop.agent s)).2.
Proof. unfold Stop.on_agent. by destruct (m (Stop.agent s)). Qed.

Lemma await_disconnect_fst (k : string) (ref : nat)
    (keep : Stop.Suspended -> list Stop.Suspended -> list Stop.Suspended)
    (s : Stop.t) :
  exists f,
    Stop.site f = (k, ref) /\
    (Stop.await_disconnect k ref keep s).1
    = {| Stop.agent := (on_client ref LocalClient.disconnect (Stop.agent s)).1;
         Stop.stops := keep f (Stop.stops s) |}.
Proof.
  unfold Stop.await_disconnect. eexists. split; [|rewrite seq_fst, on_agent_fst; done].
  done.
Qed.

Lemma await_disconnect_snd (k : string) (ref : nat)
    (keep : Stop.Suspended -> list Stop.Suspended -> list Stop.Suspended)
    (s : Stop.t) :
  (Stop.await_disconnect k ref keep s).2
  = (on_client ref LocalClient.disconnect (Stop.agent s)).2.
Proof.
  unfold Stop.await_disconnect. rewrite seq_snd, on_agent_snd. simpl.
  by rewrite app_nil_r.
Qed.

(** A [stop()] that resumes at [f] has deleted what was left at or before
    [f]: the entries left come after. *)
Lemma resumed_entries (sites : list (string * nat)) (f : Stop.Suspended) (a : t)
    (e : string * nat) :
  Stop.invariant_at sites a -> Stop.site f ∈ sites ->
  e ∈ Map.delete (Stop.at_id f) (_clients a) -> Stop.at_client f < e.2.
Proof.
  intros (Hk & Hs & Hobj & Hsites) Hf He.
  destruct (Hsites _ _ Hf) as [_ Hle]. destruct e as [k r]. simpl.
  destruct (decide (Stop.at_client f < r)) as [?|Hge]; [done|].
  destruct (Hle k r) as [-> ->]; [by eapply delete_subseteq|lia|].
  by apply delete_not_elem_of in He.
Qed.

Lemma stop_invariant (s : Stop.t) :
  Stop.invariant s -> Stop.invariant (Stop.stop s).1.
Proof.
  intros Hinv. unfold Stop.stop.
  destruct (_clients (Stop.agent s)) as [|[k ref] rest] eqn:Hm; [done|]. simpl.
  destruct (await_disconnect_fst k ref (fun f l => l ++ [f]) s) as (f & Hf & ->).
  unfold Stop.invariant in *. simpl. rewrite fmap_app. simpl. rewrite Hf.
  pose proof Hinv as (_ & Hs & _). rewrite Hm in Hs.
  eapply sites_at.
  - apply (visit_at (Stop.site <$> Stop.stops s) k ref);
      [done|rewrite Hm; by left|].
    intros k1 r1 Hin Hle. rewrite Hm in Hin.
    pose proof (increasing_first (k, ref) (k1, r1) rest Hs Hin Hle) as Heq.
    by simplify_eq.
  - intros p [?|Hp%list_elem_of_singleton]%elem_of_app; [by right|].
    subst. by left.
  - intros p [->|?]%elem_of_cons; left; apply elem_of_app; [right|by left].
    by apply list_elem_of_singleton.
Qed.

Lemma disconnect_returns_invariant (i : nat) (s : Stop.t) :
  Stop.invariant s -> Stop.invariant (Stop.disconnect_returns i s).1.
Proof.
  intros Hinv. unfold Stop.disconnect_returns.
  destruct (Stop.stops s !! i) as [f|] eqn:Hf; [|done].
  destruct (Stop.awaits_close f); [|done].
  rewrite seq_fst, on_agent_fst. unfold Stop.invariant, modify, Stop.set_stops. simpl.
  rewrite list_fmap_insert. unfold Stop.site at 1. simpl.
  rewrite list_insert_id by (by rewrite list_lookup_fmap, Hf).
  by apply (signal_at _ _ LocalClient.close_settles).
Qed.

Lemma stop_resume_invariant (i : nat) (s : Stop.t) :
  Stop.invariant s -> Stop.invariant (Stop.stop_resume i s).1.
Proof.
  intros Hinv. unfold Stop.stop_resume.
  destruct (Stop.stops s !! i) as [f|] eqn:Hf; [|done].
  destruct (Stop.awaits_close f); [done|].
  assert ((Stop.site <$> Stop.stops s) !! i = Some (Stop.site f)) as Hsite
    by by rewrite list_lookup_fmap, Hf.
  assert (Stop.site f ∈ Stop.site <$> Stop.stops s) as Hin
    by by eapply list_elem_of_lookup_2.
  pose proof Hinv as (Hk & Hs & _).
  pose proof (delete_at _ (Stop.at_id f) _ Hinv) as Hinv1.
  assert (forall k, (k, Stop.at_client f)
            ∉ Map.delete (Stop.at_id f) (_clients (Stop.agent s))) as Hgone.
  { intros k Hk1. pose proof (resumed_entries _ f _ _ Hinv Hin Hk1) as Hlt.
    simpl in Hlt. lia. }
  rewrite seq_fst, on_agent_fst. unfold modify at 1. simpl.
  set (a1 := set_clients (Map.delete (Stop.at_id f)) (Stop.agent s)) in *.
  set (s1 := {| Stop.agent := a1; Stop.stops := Stop.stops s |}).
  change (Map.delete (Stop.at_id f) (_clients (Stop.agent s)))
    with (_clients a1) in *.
  destruct (head (filter (fun kv : string * nat => Stop.at_client f < kv.2)
                    (_clients a1))) as [[k ref]|] eqn:Hhead.
  - destruct (await_disconnect_fst k ref (fun f' l => <[i := f']> l) s1)
      as (f' & Hf' & ->).
    unfold Stop.invariant. simpl. rewrite list_fmap_insert, Hf'.
    apply head_Some in Hhead as [rest Hrest].
    assert ((k, ref) ∈ _clients a1) as Hin1.
    { apply (list_elem_of_filter (fun kv : string * nat => Stop.at_client f < kv.2)).
      rewrite Hrest. by left. }
    eapply sites_at.
    + apply (visit_at (Stop.site <$> Stop.stops s) k ref); [exact Hinv1|done|].
      intros k1 r1 Hin2 Hle.
      pose proof (resumed_entries _ f _ (k1, r1) Hinv Hin Hin2) as Hlt.
      assert (Stop.increasing ((k, ref) :: rest)) as Hs1.
      { rewrite <-Hrest. apply increasing_filter. apply Hinv1. }
      assert ((k1, r1) ∈ (k, ref) :: rest) as Hin3.
      { rewrite <-Hrest. by apply list_elem_of_filter. }
      pose proof (increasing_first _ _ _ Hs1 Hin3 Hle) as Heq. by simplify_eq.
    + intros p [->|?]%elem_of_insert_inv; [by left|by right].
    + intros p [->|Hp]%elem_of_cons.
      * left. apply list_elem_of_insert. by eapply lookup_lt_Some.
      * destruct (elem_of_insert_other _ i (k, ref) p _ Hsite Hp) as [->|?];
          [right|by left].
        intros k1 Hk1. simpl in Hk1.
        assert (_clients (on_client ref LocalClient.disconnect a1).1 = _clients a1)
          as Hsame.
        { unfold on_client. destruct (objects a1 !! ref) as [c|]; [|done].
          by destruct (LocalClient.disconnect c). }
        rewrite Hsame in Hk1. by apply (Hgone k1).
  - rewrite seq_fst. unfold Stop.invariant, modify, Stop.set_stops. simpl.
    rewrite list_fmap_delete.
    eapply sites_at; [exact Hinv1|intros p; apply list_elem_of_delete_inv|].
    intros p Hp.
    destruct (elem_of_delete_other _ i p _ Hsite Hp) as [->|?]; [right|by left].
    intros k1 Hk1. by apply (Hgone k1).
Qed.

Lemma stops_create_invariant : Stop.invariant Stop.create.
Proof.
  unfold Stop.invariant, Stop.invariant_at. simpl.
  split; [constructor|]. split; [constructor|].
  split; [by intros k ref ?%elem_of_nil|by intros k r ?%elem_of_nil].
Qed.

Lemma stops_step_invariant (ev : Stop.Event) (s : Stop.t) :
  Stop.invariant s -> Stop.invariant (Stop.step ev s).1.
Proof.
  intros Hinv. destruct ev as [ev| |i|i]; simpl.
  - rewrite on_agent_fst. by apply step_at.
  - by apply stop_invariant.
  - by apply disconnect_returns_invariant.
  - by apply stop_resume_invariant.
Qed.

Lemma stops_run_invariant (evs : list Stop.Event) (s : Stop.t) :
  Stop.invariant s -> Stop.invariant (Stop.run evs s).1.
Proof.
  revert s. induction evs as [|ev evs IH]; intros s Hinv; [done|].
  simpl. rewrite seq_fst. by apply IH, stops_step_invariant.
Qed.

(** *** When [stop()] returns *)

Lemma callbacks_not_disconnect (ep : EndpointConfig) (x : LocalClient.Call) :
  Forall (.≠ AgentTunnel.call_disconnect) (callbacks ep x).
Proof. destruct x; repeat constructor; done. Qed.

Lemma on_client_not_disconnect (ref : nat) (m : LocalClient.M) (a : t) :
  AgentTunnel.call_disconnect ∉ (on_client ref m a).2.
Proof.
  unfold on_client. destruct (objects a !! ref) as [c|]; [|apply not_elem_of_nil].
  destruct (m c) as [c' out]. simpl.
  intros (x & Hx & _)%list_elem_of_bind.
  pose proof (callbacks_not_disconnect (LocalClient.config c) x) as Hall.
  eapply Forall_forall in Hall; [|exact Hx]. done.
Qed.

Lemma step_not_disconnect (ev : Event) (a : t) :
  AgentTunnel.call_disconnect ∉ (step ev a).2.
Proof.
  intros Hin.
  pose proof (step_calls (.≠ AgentTunnel.call_disconnect)
                callbacks_not_disconnect (fun _ _ _ => ltac:(done)) ev a) as Hall.
  eapply Forall_forall in Hall; [|exact Hin]. done.
Qed.

(** The step in which a [stop()] returns leaves nothing tracked. *)
Lemma returns_empty (ev : Stop.Event) (s : Stop.t) :
  Stop.invariant s -> AgentTunnel.call_disconnect ∈ (Stop.step ev s).2 ->
  _clients (Stop.agent (Stop.step ev s).1) = [].
Proof.
  intros Hinv. destruct ev as [ev| |i|i]; simpl.
  - rewrite on_agent_snd. by intros ?%step_not_disconnect.
  - unfold Stop.stop.
    destruct (_clients (Stop.agent s)) as [|[k ref] rest] eqn:Hm; [done|]. simpl.
    rewrite await_disconnect_snd. by intros ?%on_client_not_disconnect.
  - unfold Stop.disconnect_returns.
    destruct (Stop.stops s !! i) as [f|]; [|by intros ?%elem_of_nil].
    destruct (Stop.awaits_close f); [|by intros ?%elem_of_nil].
    rewrite seq_snd, on_agent_snd. simpl. rewrite app_nil_r.
    by intros ?%on_client_not_disconnect.
  - unfold Stop.stop_resume.
    destruct (Stop.stops s !! i) as [f|] eqn:Hf; [|by intros ?%elem_of_nil].
    destruct (Stop.awaits_close f); [by intros ?%elem_of_nil|].
    assert (Stop.site f ∈ Stop.site <$> Stop.stops s) as Hin.
    { apply (list_elem_of_lookup_2 _ i). by rewrite list_lookup_fmap, Hf. }
    rewrite seq_snd, seq_fst, on_agent_fst. unfold modify at 1 3. simpl.
    destruct (head (filter (fun kv : string * nat => Stop.at_client f < kv.2)
                      (Map.delete (Stop.at_id f) (_clients (Stop.agent s)))))
      as [[k ref]|] eqn:Hhead.
    + rewrite await_disconnect_snd. by intros ?%on_client_not_disconnect.
    + intros _. rewrite seq_fst. simpl.
      apply head_None in Hhead.
      destruct (Map.delete (Stop.at_id f) (_clients (Stop.agent s)))
        as [|e m1] eqn:Hm1; [done|]. exfalso.
      assert (e ∈ Map.delete (Stop.at_id f) (_clients (Stop.agent s))) as He
        by (rewrite Hm1; by left).
      pose proof (resumed_entries _ f _ e Hinv Hin He) as Hlt.
      eapply (filter_nil_not_elem_of _ _ e); [exact Hhead|exact Hlt|by left].
Qed.

(** A suspended [stop()] whose entry is still in the map is at the first
    entry of the map. *)
Lemma suspended_at_first (s : Stop.t) (f : Stop.Suspended) :
  Stop.invariant s -> f ∈ Stop.stops s ->
  Stop.site f ∈ _clients (Stop.agent s) ->
  head (_clients (Stop.agent s)) = Some (Stop.site f).
Proof.
  intros (_ & Hs & _ & Hsites) Hf Hin.
  destruct (Hsites (Stop.at_id f) (Stop.at_client f)) as [_ Hle].
  { apply list_elem_of_fmap. by exists f. }
  destruct (_clients (Stop.agent s)) as [|[k ref] rest]; [by apply elem_of_nil in Hin|].
  simpl. f_equal. destruct (Hle k ref) as [-> ->]; [by left| |done].
  destruct (decide (ref <= Stop.at_client f)) as [?|Hgt]; [done|].
  pose proof (increasing_first (k, ref) (Stop.site f) rest Hs Hin) as Heq.
  unfold Stop.site in Heq. simpl in Heq.
  assert ((Stop.at_id f, Stop.at_client f) = (k, ref)) by (apply Heq; lia).
  simplify_eq. lia.
Qed.

(** A [stop()] that finds the map not empty calls [disconnect()] on the
    client of its first entry. *)
Lemma stop_first (s : Stop.t) (k : string) (ref : nat) :
  Stop.invariant s -> head (_clients (Stop.agent s)) = Some (k, ref) ->
  exists c, objects (Stop.agent s) !! ref = Some c /\
    (Stop.stop s).2
    = match LocalClient._client c with
      | None => [AgentTunnel.call_sendStatusUpdate k disconnected None]
      | Some _ => []
      end /\
    objects (Stop.agent (Stop.stop s).1) !! ref = Some (LocalClient.disconnect c).1 /\
    (LocalClient._client c <> None ->
       (on_client ref LocalClient.disconnect_resume (Stop.agent (Stop.stop s).1)).2
       = [AgentTunnel.call_sendStatusUpdate k disconnected None]).
Proof.
  intros (_ & _ & Hobj & _) Hhead. unfold Stop.stop. rewrite Hhead.
  destruct (Hobj k ref) as (c & Hc & Hid & _); [by apply head_Some_elem_of|].
  exists c. split; [done|].
  destruct (await_disconnect_fst k ref (fun f l => l ++ [f]) s) as (f & _ & ->).
  rewrite await_disconnect_snd. simpl.
  destruct (disconnect_at ref _ c Hc) as (-> & Hcfg & _). simpl.
  rewrite (on_client_spec _ _ _ _ Hc). simpl.
  rewrite disconnect_callbacks, Hid.
  assert (<[ref := (LocalClient.disconnect c).1]> (objects (Stop.agent s)) !! ref
          = Some (LocalClient.disconnect c).1) as Hnew
    by (apply list_lookup_insert_eq; by eapply lookup_lt_Some).
  split; [done|]. split; [done|].
  intros Hclient. erewrite on_client_spec; [|exact Hnew]. simpl.
  by rewrite disconnect_resume_callbacks, Hcfg, Hid.
Qed.

(** C7, as the code has it.  A second [disconnect()], after the first ran
    to its end, changes nothing in the object and calls [onStatusChanged]
    with [disconnected] once more.  In every state the orchestrator can
    reach, calls of [stop()] included: the step in which a [stop()]
    returns leaves nothing tracked, so that a [stop()] called then
    changes nothing, sends no status update and only disconnects the
    tunnel again; but a [stop()] called while another is suspended at a
    client that is still tracked calls [disconnect()] on that client
    again, which is destroyed already, and "disconnected" is sent for it
    once more, at once when the client holds no SDK client and when its
    [close()] settles when it holds one.  Disconnecting the tunnel again
    does nothing on a tunnel whose socket is gone.  None of these can
    throw: [disconnect()] swallows what [close()] throws, and [stop()]
    calls nothing else. *)
Theorem C7_second_disconnect_and_stop (c : LocalClient.t) (evs : list Stop.Event)
    (tn : AgentTunnel.t) :
  let s := (Stop.run evs Stop.create).1 in
  (let c1 := (LocalClient.disconnect_to_end c).1 in
   LocalClient.disconnect c1
   = (c1, [LocalClient.onStatusChanged disconnected None])) /\
  (forall ev, AgentTunnel.call_disconnect ∈ (Stop.step ev s).2 ->
     let s1 := (Stop.step ev s).1 in
     tracked (Stop.agent s1) = [] /\
     Stop.stop s1 = (s1, [AgentTunnel.call_disconnect]) /\
     status_updates (Stop.stop s1).2 = []) /\
  (forall f, f ∈ Stop.stops s -> Stop.site f ∈ _clients (Stop.agent s) ->
     exists c0,
       objects (Stop.agent s) !! Stop.at_client f = Some c0 /\
       LocalClient._destroyed c0 = true /\
       (Stop.stop s).2
       = match LocalClient._client c0 with
         | None => [AgentTunnel.call_sendStatusUpdate (Stop.at_id f)
                      disconnected None]
         | Some _ => []
         end /\
       objects (Stop.agent (Stop.stop s).1) !! Stop.at_client f
       = Some (LocalClient.disconnect c0).1 /\
       (LocalClient._client c0 <> None ->
          (on_client (Stop.at_client f) LocalClient.disconnect_resume
             (Stop.agent (Stop.stop s).1)).2
          = [AgentTunnel.call_sendStatusUpdate (Stop.at_id f) disconnected None])) /\
  (let tn1 := AgentTunnel.perform AgentTunnel.call_disconnect tn in
   AgentTunnel.perform AgentTunnel.call_disconnect tn1 = tn1).
Proof.
  intros s.
  assert (Stop.invariant s) as Hinv
    by apply stops_run_invariant, stops_create_invariant.
  split; [apply LocalClientProofs.disconnect_again|]. split; [|split; [|done]].
  - intros ev Hev s1.
    pose proof (returns_empty ev s Hinv Hev) as Hempty. fold s1 in Hempty.
    unfold tracked. rewrite Hempty. split; [done|].
    assert (Stop.stop s1 = (s1, [AgentTunnel.call_disconnect])) as ->; [|done].
    unfold Stop.stop. by rewrite Hempty.
  - intros f Hf Hin.
    pose proof (suspended_at_first s f Hinv Hf Hin) as Hhead.
    destruct (stop_first s _ _ Hinv Hhead) as (c0 & Hc0 & Hout & Hobj & Hlater).
    exists c0. split; [done|]. split; [|done].
    destruct Hinv as (_ & _ & _ & Hsites).
    destruct (Hsites (Stop.at_id f) (Stop.at_client f)) as [(c1 & Hc1 & Hd) _].
    { apply list_elem_of_fmap. by exists f. }
    congruence.
Qed.

(** In every state the orchestrator can reach, calls of [stop()]
    included, no id is tracked twice; an id is untracked exactly when
    routing finds nothing; and a tracked id is routed to an object that
    was constructed from an enabled descriptor with that id, and that is
    destroyed only while a suspended [stop()] is at its entry, awaiting
    its [disconnect()]. *)
Theorem tracked_clients_stopping (evs : list Stop.Event) :
  let s := (Stop.run evs Stop.create).1 in
  let a := Stop.agent s in
  NoDup (tracked a) /\
  (forall k, k ∉ tracked a <-> routed k a = None) /\
  (forall k, k ∈ tracked a ->
     exists c, routed k a = Some c /\
       id (LocalClient.config c) = k /\
       isEnabled (LocalClient.config c) = true /\
       (LocalClient._destroyed c = true ->
          exists f, f ∈ Stop.stops s /\ Stop.at_id f = k /\
            Map.get k (_clients a) = Some (Stop.at_client f))).
Proof.
  intros s a.
  assert (Stop.invariant s) as (Hk & Hs & Hobj & Hsites)
    by apply stops_run_invariant, stops_create_invariant.
  fold a in Hk, Hs, Hobj, Hsites.
  assert (forall k, k ∈ tracked a ->
     exists c, routed k a = Some c /\
       id (LocalClient.config c) = k /\
       isEnabled (LocalClient.config c) = true /\
       (LocalClient._destroyed c = true ->
          exists f, f ∈ Stop.stops s /\ Stop.at_id f = k /\
            Map.get k (_clients a) = Some (Stop.at_client f))) as Htracked.
  { intros k Hin. destruct (Map.get k (_clients a)) as [ref|] eqn:Hget;
      [|by apply MapProofs.get_None in Hget].
    apply MapProofs.get_Some in Hget as Hentry; [|done].
    destruct (Hobj _ _ Hentry) as (c & Hc & Hid & Hen & Hd).
    exists c. unfold routed. rewrite Hget. simpl.
    repeat (split; [done|]). intros (k' & Hk')%Hd.
    apply list_elem_of_fmap in Hk' as (f & Hsite & Hf).
    destruct (Hsites k' ref) as [_ Hle]; [apply list_elem_of_fmap; by exists f|].
    destruct (Hle k ref) as [-> _]; [done..|].
    unfold Stop.site in Hsite. simplify_eq. by exists f. }
  split; [done|]. split; [|done].
  intros k. split.
  - intros Hun%MapProofs.get_None. unfold routed. by rewrite Hun.
  - intros Hr Hin. destruct (Htracked k Hin) as (c & Hc & _). congruence.
Qed.

(** *** A [stop()] with nothing in between *)

Lemma gone_disconnect (c : LocalClient.t) :
  LocalClient._client c = None -> Stop.gone (LocalClient.disconnect c).1.
Proof.
  destruct c as [? ? client ? ? ? ? ? timer ? ? ? ? ?]. simpl. intros ->.
  unfold Stop.gone. methods. by destruct timer.
Qed.

Lemma gone_disconnect_resume (c : LocalClient.t) :
  LocalClient._client c <> None ->
  Stop.gone (LocalClient.disconnect_resume (LocalClient.disconnect c).1).1.
Proof.
  destruct c as [? ? client ? ? ? ? ? timer ? ? ? ? ?]. simpl. intros Hc.
  unfold Stop.gone. methods. by destruct client, timer.
Qed.

(** The [close()] settles that the only suspended [stop()] waits for. *)
Lemma disconnect_returns_alone (s : Stop.t) (f : Stop.Suspended) (c0 : LocalClient.t) :
  Stop.stops s = [f] -> Stop.awaits_close f = true ->
  objects (Stop.agent s) !! Stop.at_client f = Some (LocalClient.disconnect c0).1 ->
  LocalClient._client c0 <> None ->
  id (LocalClient.config c0) = Stop.at_id f ->
  Stop.disconnect_returns 0 s
  = ({| Stop.agent :=
          {| _clients := _clients (Stop.agent s);
             objects := <[Stop.at_client f :=
                            (LocalClient.disconnect_resume
                               (LocalClient.disconnect c0).1).1]>
                          (objects (Stop.agent s)) |};
        Stop.stops := [{| Stop.at_id := Stop.at_id f;
                          Stop.at_client := Stop.at_client f;
                          Stop.awaits_close := false |}] |},
     [AgentTunnel.call_sendStatusUpdate (Stop.at_id f) disconnected None]).
Proof.
  intros Hstops Hwaits Hobj Hclient Hid.
  unfold Stop.disconnect_returns. rewrite Hstops. simpl. rewrite Hwaits.
  unfold seq, Stop.on_agent. rewrite (on_client_spec _ _ _ _ Hobj).
  unfold modify, Stop.set_stops. simpl. rewrite Hstops. simpl.
  rewrite app_nil_r, disconnect_resume_callbacks by done.
  pose proof (LocalClientProofs.step_config LocalClient.call_disconnect c0)
    as [_ Hcfg]. simpl in Hcfg.
  by rewrite Hcfg, Hid.
Qed.

Lemma stop_resume_last (s : Stop.t) (f : Stop.Suspended) :
  Stop.stops s = [f] -> Stop.awaits_close f = false ->
  _clients (Stop.agent s) = [Stop.site f] ->
  Stop.stop_resume 0 s
  = ({| Stop.agent := {| _clients := []; objects := objects (Stop.agent s) |};
        Stop.stops := [] |},
     [AgentTunnel.call_disconnect]).
Proof.
  intros Hstops Hwaits Hm. unfold Stop.stop_resume. rewrite Hstops. simpl.
  rewrite Hwaits. unfold seq, Stop.on_agent, modify, set_clients, Stop.set_stops.
  simpl. rewrite Hm, Hstops. unfold Stop.site. simpl.
  by rewrite decide_True.
Qed.

Lemma stop_resume_next (s : Stop.t) (f : Stop.Suspended) (k : string) (ref : nat)
    (rest : Map.t nat) (c : LocalClient.t) :
  Stop.stops s = [f] -> Stop.awaits_close f = false ->
  _clients (Stop.agent s) = Stop.site f :: (k, ref) :: rest ->
  Stop.increasing (_clients (Stop.agent s)) ->
  objects (Stop.agent s) !! ref = Some c ->
  Stop.stop_resume 0 s
  = ({| Stop.agent :=
          {| _clients := (k, ref) :: rest;
             objects := <[ref := (LocalClient.disconnect c).1]>
                          (objects (Stop.agent s)) |};
        Stop.stops := [{| Stop.at_id := k; Stop.at_client := ref;
                          Stop.awaits_close :=
                            bool_decide (LocalClient._client c <> None) |}] |},
     (LocalClient.disconnect c).2 ≫= callbacks (LocalClient.config c)).
Proof.
  intros Hstops Hwaits Hm Hs Hc. rewrite Hm in Hs.
  apply StronglySorted_cons in Hs as [Hall _].
  apply Forall_cons in Hall as [Hlt _]. simpl in Hlt.
  unfold Stop.stop_resume. rewrite Hstops. simpl. rewrite Hwaits.
  unfold seq at 1, Stop.on_agent at 1, modify at 1, set_clients. simpl.
  rewrite Hm. unfold Stop.site at 1. simpl. rewrite decide_True by done.
  rewrite filter_cons_True by done. simpl.
  unfold Stop.await_disconnect, seq, Stop.on_agent. simpl.
  rewrite Hc. erewrite on_client_spec by exact Hc. simpl.
  unfold modify, Stop.set_stops. simpl. rewrite Hstops. simpl.
  by rewrite !app_nil_r.
Qed.

(** A [stop()] that is the only one suspended, at the first entry of the
    map, and goes on with nothing in between: "disconnected" is sent once
    for each remaining entry, in the order of the map, then the tunnel is
    disconnected; nothing is tracked any more, no [stop()] is suspended,
    and the client of every entry is left as a [disconnect()] that ran to
    its end leaves it. *)
Lemma finish_alone (rest : Map.t nat) (s : Stop.t) (f : Stop.Suspended) :
  Stop.stops s = [f] -> _clients (Stop.agent s) = Stop.site f :: rest ->
  Stop.increasing (_clients (Stop.agent s)) ->
  (forall k r, (k, r) ∈ _clients (Stop.agent s) ->
     exists c, objects (Stop.agent s) !! r = Some c /\ id (LocalClient.config c) = k) ->
  (if Stop.awaits_close f
   then exists c0, objects (Stop.agent s) !! Stop.at_client f
                   = Some (LocalClient.disconnect c0).1 /\
          LocalClient._client c0 <> None
   else exists c, objects (Stop.agent s) !! Stop.at_client f = Some c /\
          Stop.gone c) ->
  let r := Stop.finish (S (length rest)) 0 s in
  r.2 = (if Stop.awaits_close f
         then [AgentTunnel.call_sendStatusUpdate (Stop.at_id f) disconnected None]
         else []) ++
        ((fun kv : string * nat =>
            AgentTunnel.call_sendStatusUpdate kv.1 disconnected None) <$> rest) ++
        [AgentTunnel.call_disconnect] /\
  _clients (Stop.agent r.1) = [] /\ Stop.stops r.1 = [] /\
  (forall ref c, objects (Stop.agent s) !! ref = Some c -> Stop.gone c ->
     exists c', objects (Stop.agent r.1) !! ref = Some c' /\ Stop.gone c') /\
  (forall k ref, (k, ref) ∈ Stop.site f :: rest ->
     exists c', objects (Stop.agent r.1) !! ref = Some c' /\ Stop.gone c').
Proof.
  revert s f. induction rest as [|[k2 r2] rest IH]; intros s f Hstops Hm Hs Hobj Hf.
  - (* the last entry *)
    destruct (Hobj (Stop.at_id f) (Stop.at_client f)) as (cf & Hcf & Hidf);
      [rewrite Hm; by left|].
    assert (exists s1,
      Stop.disconnect_returns 0 s
      = (s1, if Stop.awaits_close f
             then [AgentTunnel.call_sendStatusUpdate (Stop.at_id f) disconnected None]
             else []) /\
      (exists f1, Stop.stops s1 = [f1] /\ Stop.awaits_close f1 = false /\
         Stop.site f1 = Stop.site f) /\
      _clients (Stop.agent s1) = _clients (Stop.agent s) /\
      (exists c, objects (Stop.agent s1) !! Stop.at_client f = Some c /\ Stop.gone c) /\
      (forall ref c, objects (Stop.agent s) !! ref = Some c -> Stop.gone c ->
         exists c', objects (Stop.agent s1) !! ref = Some c' /\ Stop.gone c'))
      as (s1 & Hstep & (f1 & Hstops1 & Hwaits1 & Hsite1) & Hm1 & Hgone1 & Hstay1).
    { destruct (Stop.awaits_close f) eqn:Hwaits.
      - destruct Hf as (c0 & Hc0 & Hclient).
        assert (id (LocalClient.config c0) = Stop.at_id f) as Hid0.
        { pose proof (LocalClientProofs.step_config LocalClient.call_disconnect c0)
            as [_ Hcfg]. simpl in Hcfg. rewrite <-Hcfg.
          assert (cf = (LocalClient.disconnect c0).1) as <- by congruence. done. }
        eexists. split; [by eapply disconnect_returns_alone|]. simpl.
        split; [by eexists|]. split; [done|]. split.
        + eexists. rewrite list_lookup_insert_eq by by eapply lookup_lt_Some.
          split; [done|]. by apply gone_disconnect_resume.
        + intros ref c Hc Hg. destruct (decide (Stop.at_client f = ref)) as [<-|Hne].
          * eexists. rewrite list_lookup_insert_eq by by eapply lookup_lt_Some.
            split; [done|]. by apply gone_disconnect_resume.
          * exists c. by rewrite list_lookup_insert_ne.
      - exists s. split.
        { unfold Stop.disconnect_returns. rewrite Hstops. simpl. by rewrite Hwaits. }
        split; [by exists f|]. split; [done|]. split; [done|]. eauto. }
    simpl. rewrite !seq_snd, !seq_fst, Hstep. simpl.
    assert (Stop.stop_resume 0 s1
            = ({| Stop.agent := {| _clients := []; objects := objects (Stop.agent s1) |};
                  Stop.stops := [] |}, [AgentTunnel.call_disconnect])) as ->.
    { apply (stop_resume_last s1 f1); [done..|]. by rewrite Hm1, Hm, Hsite1. }
    simpl. split; [done|]. split; [done|]. split; [done|]. split; [done|].
    intros k ref Hin%list_elem_of_singleton. unfold Stop.site in Hin. by simplify_eq.
  - (* an entry follows *)
    destruct (Hobj (Stop.at_id f) (Stop.at_client f)) as (cf & Hcf & Hidf);
      [rewrite Hm; by left|].
    destruct (Hobj k2 r2) as (c2 & Hc2 & Hid2); [rewrite Hm; right; by left|].
    assert (Stop.at_client f <> r2) as Hne2.
    { rewrite Hm in Hs. apply StronglySorted_cons in Hs as [Hall _].
      apply Forall_cons in Hall as [Hlt _]. simpl in Hlt. lia. }
    assert (exists s1,
      Stop.disconnect_returns 0 s
      = (s1, if Stop.awaits_close f
             then [AgentTunnel.call_sendStatusUpdate (Stop.at_id f) disconnected None]
             else []) /\
      (exists f1, Stop.stops s1 = [f1] /\ Stop.awaits_close f1 = false /\
         Stop.site f1 = Stop.site f) /\
      _clients (Stop.agent s1) = _clients (Stop.agent s) /\
      (exists c, objects (Stop.agent s1) !! Stop.at_client f = Some c /\ Stop.gone c) /\
      (forall ref c, objects (Stop.agent s) !! ref = Some c -> Stop.gone c ->
         exists c', objects (Stop.agent s1) !! ref = Some c' /\ Stop.gone c') /\
      (forall ref, ref <> Stop.at_client f ->
         objects (Stop.agent s1) !! ref = objects (Stop.agent s) !! ref))
      as (s1 & Hstep & (f1 & Hstops1 & Hwaits1 & Hsite1) & Hm1 & Hgone1 & Hstay1 & Hsame1).
    { destruct (Stop.awaits_close f) eqn:Hwaits.
      - destruct Hf as (c0 & Hc0 & Hclient).
        assert (id (LocalClient.config c0) = Stop.at_id f) as Hid0.
        { pose proof (LocalClientProofs.step_config LocalClient.call_disconnect c0)
            as [_ Hcfg]. simpl in Hcfg. rewrite <-Hcfg.
          assert (cf = (LocalClient.disconnect c0).1) as <- by congruence. done. }
        eexists. split; [by eapply disconnect_returns_alone|]. simpl.
        split; [by eexists|]. split; [done|]. split; [|split].
        + eexists. rewrite list_lookup_insert_eq by by eapply lookup_lt_Some.
          split; [done|]. by apply gone_disconnect_resume.
        + intros ref c Hc Hg. destruct (decide (Stop.at_client f = ref)) as [<-|Hne].
          * eexists. rewrite list_lookup_insert_eq by by eapply lookup_lt_Some.
            split; [done|]. by apply gone_disconnect_resume.
          * exists c. by rewrite list_lookup_insert_ne.
        + intros ref Hne. by rewrite list_lookup_insert_ne.
      - exists s. split.
        { unfold Stop.disconnect_returns. rewrite Hstops. simpl. by rewrite Hwaits. }
        split; [by exists f|]. split; [done|]. split; [done|]. split; [eauto|done]. }
    assert (objects (Stop.agent s1) !! r2 = Some c2) as Hc2'
      by (rewrite Hsame1; [done|congruence]).
    assert (_clients (Stop.agent s1) = Stop.site f1 :: (k2, r2) :: rest) as Hm1'
      by by rewrite Hm1, Hm, Hsite1.
    assert (Stop.increasing (_clients (Stop.agent s1))) as Hs1 by by rewrite Hm1.
    pose proof (stop_resume_next s1 f1 k2 r2 rest c2 Hstops1 Hwaits1 Hm1' Hs1 Hc2')
      as Hnext.
    set (f2 := {| Stop.at_id := k2; Stop.at_client := r2;
                  Stop.awaits_close := bool_decide (LocalClient._client c2 <> None) |})
      in *.
    set (s2 := {| Stop.agent :=
                    {| _clients := (k2, r2) :: rest;
                       objects := <[r2 := (LocalClient.disconnect c2).1]>
                                    (objects (Stop.agent s1)) |};
                  Stop.stops := [f2] |}) in *.
    pose proof (LocalClientProofs.step_config LocalClient.call_disconnect c2)
      as [_ Hcfg2]. simpl in Hcfg2.
    destruct (IH s2 f2) as (Hout & Hempty & Hnone & Hstay & Hentries).
    { done. }
    { done. }
    { simpl. rewrite Hm in Hs. by apply StronglySorted_cons in Hs as [_ ?]. }
    { simpl. intros k r Hin.
      destruct (Hobj k r) as (c & Hc & Hid); [rewrite Hm; by right|].
      destruct (decide (r2 = r)) as [<-|Hne].
      - eexists. rewrite list_lookup_insert_eq by by eapply lookup_lt_Some.
        split; [done|]. rewrite Hcfg2.
        assert (k = k2) as ->; [|done].
        eapply increasing_inj; [exact Hs|rewrite Hm; by right|rewrite Hm; right; by left].
      - destruct (decide (r = Stop.at_client f)) as [->|Hnf].
        + exfalso. rewrite Hm in Hs. apply StronglySorted_cons in Hs as [Hall _].
          eapply Forall_forall in Hall; [|exact Hin]. simpl in Hall. lia.
        + exists c. rewrite list_lookup_insert_ne by done. by rewrite Hsame1. }
    { simpl. case_bool_decide as Hclient2.
      - eexists. rewrite list_lookup_insert_eq by by eapply lookup_lt_Some. done.
      - eexists. rewrite list_lookup_insert_eq by by eapply lookup_lt_Some.
        split; [done|]. apply gone_disconnect.
        by destruct (LocalClient._client c2); [destruct Hclient2|]. }
    change (Stop.finish (S (length ((k2, r2) :: rest))) 0 s)
      with ((Stop.disconnect_returns 0 ;; Stop.stop_resume 0 ;;
             Stop.finish (S (length rest)) 0) s).
    cbv zeta. rewrite !seq_snd, !seq_fst, Hstep. cbn [fst snd].
    rewrite Hnext. cbn [fst snd].
    rewrite disconnect_callbacks, Hid2, Hout. simpl.
    split.
    { f_equal. unfold f2. simpl.
      destruct (LocalClient._client c2) as [cl|] eqn:Hcl2.
      - by rewrite bool_decide_eq_true_2.
      - by rewrite bool_decide_eq_false_2 by (intros Hx; by apply Hx). }
    split; [done|]. split; [done|].
    assert (forall ref c, objects (Stop.agent s1) !! ref = Some c -> Stop.gone c ->
              exists c', objects (Stop.agent s2) !! ref = Some c' /\ Stop.gone c')
      as Hstay2.
    { simpl. intros ref c Hc Hg. destruct (decide (r2 = ref)) as [<-|Hne].
      - eexists. rewrite list_lookup_insert_eq by by eapply lookup_lt_Some.
        split; [done|]. assert (c = c2) as -> by congruence.
        apply gone_disconnect, Hg.
      - exists c. by rewrite list_lookup_insert_ne. }
    split.
    + intros ref c Hc Hg.
      destruct (Hstay1 _ _ Hc Hg) as (c1 & Hc1 & Hg1).
      destruct (Hstay2 _ _ Hc1 Hg1) as (c3 & Hc3 & Hg3). eauto.
    + intros k ref [Heq|Hin]%elem_of_cons.
      * unfold Stop.site in Heq. simplify_eq.
        destruct Hgone1 as (c1 & Hc1 & Hg1).
        destruct (Hstay2 _ _ Hc1 Hg1) as (c3 & Hc3 & Hg3). eauto.
      * by apply (Hentries k).
Qed.

Lemma stop_alone_spec (s : Stop.t) :
  Stop.invariant s -> Stop.stops s = [] ->
  let r := Stop.stop_alone s in
  r.2 = ((fun k => AgentTunnel.call_sendStatusUpdate k disconnected None)
           <$> tracked (Stop.agent s)) ++ [AgentTunnel.call_disconnect] /\
  tracked (Stop.agent r.1) = [] /\ Stop.stops r.1 = [] /\
  (forall k ref, (k, ref) ∈ _clients (Stop.agent s) ->
     exists c, objects (Stop.agent r.1) !! ref = Some c /\ Stop.gone c).
Proof.
  intros (Hk & Hs & Hobj & _) Hstops. unfold Stop.stop_alone. rewrite Hstops.
  destruct (_clients (Stop.agent s)) as [|[k ref] rest] eqn:Hm.
  - assert (Stop.stop s = (s, [AgentTunnel.call_disconnect])) as Hstop
      by (unfold Stop.stop; by rewrite Hm).
    cbv zeta. simpl length. rewrite seq_snd, seq_fst, Hstop.
    unfold tracked. simpl. rewrite Hm, Hstops.
    split; [done|]. split; [done|]. split; [done|]. by intros k ref ?%elem_of_nil.
  - destruct (Hobj k ref) as (c & Hc & Hid & _); [by left|].
    destruct (disconnect_at ref _ c Hc) as (Ha1 & Hcfg & _).
    set (f := {| Stop.at_id := k; Stop.at_client := ref;
                 Stop.awaits_close := bool_decide (LocalClient._client c <> None) |}).
    set (s1 := {| Stop.agent :=
                    {| _clients := (k, ref) :: rest;
                       objects := <[ref := (LocalClient.disconnect c).1]>
                                    (objects (Stop.agent s)) |};
                  Stop.stops := [f] |}).
    assert (Stop.stop s
            = (s1, (LocalClient.disconnect c).2 ≫= callbacks (LocalClient.config c)))
      as Hstop.
    { unfold Stop.stop. rewrite Hm. simpl.
      unfold Stop.await_disconnect, seq, Stop.on_agent.
      rewrite Hc, (on_client_spec _ _ _ _ Hc). unfold modify, Stop.set_stops. simpl.
      by rewrite Hstops, Hm, app_nil_r. }
    destruct (finish_alone rest s1 f) as (Hout & Hempty & Hnone & _ & Hentries).
    { done. }
    { done. }
    { done. }
    { simpl. intros k1 r1 Hin. destruct (Hobj k1 r1 Hin) as (c1 & Hc1 & Hid1 & _).
      destruct (decide (ref = r1)) as [<-|Hne].
      - eexists. rewrite list_lookup_insert_eq by by eapply lookup_lt_Some.
        split; [done|]. rewrite Hcfg. by assert (c1 = c) as -> by congruence.
      - exists c1. by rewrite list_lookup_insert_ne. }
    { simpl. case_bool_decide as Hclient.
      - eexists. rewrite list_lookup_insert_eq by by eapply lookup_lt_Some. done.
      - eexists. rewrite list_lookup_insert_eq by by eapply lookup_lt_Some.
        split; [done|]. apply gone_disconnect.
        by destruct (LocalClient._client c); [destruct Hclient|]. }
    cbv zeta. simpl length. rewrite seq_snd, seq_fst, Hstop. cbn [fst snd].
    rewrite disconnect_callbacks, Hid, Hout. unfold tracked. rewrite Hempty, Hm.
    split; [|done]. unfold Map.keys. rewrite <-list_fmap_compose. simpl.
    destruct (LocalClient._client c) as [cl|] eqn:Hcl.
    + by rewrite bool_decide_eq_true_2.
    + by rewrite bool_decide_eq_false_2 by (intros Hx; by apply Hx).
Qed.

(** A [stop()] called when none is suspended, and running with nothing
    in between: it sends "disconnected" once for each tracked id, in the
    order of the map, then disconnects the tunnel, and calls nothing
    else; it leaves nothing tracked and is not suspended any more. *)
Theorem stop_reports_each (evs : list Stop.Event) :
  let s := (Stop.run evs Stop.create).1 in
  Stop.stops s = [] ->
  (Stop.stop_alone s).2
  = ((fun k => AgentTunnel.call_sendStatusUpdate k disconnected None)
       <$> tracked (Stop.agent s)) ++ [AgentTunnel.call_disconnect] /\
  tracked (Stop.agent (Stop.stop_alone s).1) = [] /\
  Stop.stops (Stop.stop_alone s).1 = [].
Proof.
  intros s Hstops.
  destruct (stop_alone_spec s) as (? & ? & ? & _);
    [apply stops_run_invariant, stops_create_invariant|done..].
Qed.

(** After such a [stop()] every client that was tracked when it was
    called is destroyed, disconnected and without SDK client. *)
Theorem stop_disconnects_all (evs : list Stop.Event) (k : string) (ref : nat) :
  let s := (Stop.run evs Stop.create).1 in
  Stop.stops s = [] -> Map.get k (_clients (Stop.agent s)) = Some ref ->
  exists c, objects (Stop.agent (Stop.stop_alone s).1) !! ref = Some c /\
    LocalClient._destroyed c = true /\
    LocalClient._status c = disconnected /\
    LocalClient._client c = None.
Proof.
  intros s Hstops Hget.
  assert (Stop.invariant s) as Hinv
    by apply stops_run_invariant, stops_create_invariant.
  destruct (stop_alone_spec s Hinv Hstops) as (_ & _ & _ & Hentries).
  apply MapProofs.get_Some in Hget; [|apply Hinv].
  destruct (Hentries k ref Hget) as (c & Hc & Hgone). by exists c.
Qed.

End WithHost.

End StopProofs.

(** ** Instances with [stop()] *)

Module StopExamples.
Import McpCentralAgent Examples.

(** A [stop()] is suspended at the client of "a" when [stop()] is called
    again: "disconnected" is sent for "a" a second time. *)
Lemma stop_twice_reports_again :
  status_updates
    (@Stop.run host
       [Stop.handles (onEndpoints [endpoint "a" stdio true]);
        Stop.call_stop; Stop.call_stop]
       Stop.create).2
  = [("a", connecting); ("a", disconnected); ("a", disconnected)].
Proof. reflexivity. Qed.

Lemma C7_second_disconnect_and_stop_witness :
  let s := (@Stop.run host
              [Stop.handles (onEndpoints [endpoint "a" stdio true]);
               Stop.call_stop]
              Stop.create).1 in
  let f := {| Stop.at_id := "a"; Stop.at_client := 0;
              Stop.awaits_close := false |} in
  f ∈ Stop.stops s /\ Stop.site f ∈ _clients (Stop.agent s) /\
  exists c0,
    objects (Stop.agent s) !! 0 = Some c0 /\
    LocalClient._destroyed c0 = true /\
    (Stop.stop s).2
    = match LocalClient._client c0 with
      | None => [AgentTunnel.call_sendStatusUpdate "a" disconnected None]
      | Some _ => []
      end.
Proof.
  intros s f.
  assert (f ∈ Stop.stops s) as Hf by (vm_compute; set_solver).
  assert (Stop.site f ∈ _clients (Stop.agent s)) as Hin by (vm_compute; set_solver).
  split; [exact Hf|]. split; [exact Hin|].
  destruct (@StopProofs.C7_second_disconnect_and_stop host
              (LocalClient.create (endpoint "a" stdio true))
              [Stop.handles (onEndpoints [endpoint "a" stdio true]); Stop.call_stop]
              {| AgentTunnel._socket := None |})
    as (_ & _ & Hagain & _).
  destruct (Hagain f Hf Hin) as (c0 & Hc0 & Hd & Hout & _).
  exists c0. split; [exact Hc0|]. split; [exact Hd|exact Hout].
Defined.

End StopExamples.

(** ** The tunnel, alone and under the orchestrator *)

Module TunnelMore.
Import AgentTunnel AgentTunnelConnect System.

Lemma strip_trailing_slash_cons (c : Ascii.ascii) (s : string) :
  s ≠ "" -> strip_trailing_slash (String c s) = String c (strip_trailing_slash s).
Proof. by destruct s. Qed.

Lemma append_not_empty (s : string) (c : Ascii.ascii) : s +:+ String c "" ≠ "".
Proof. by destruct s. Qed.

Lemma strip_trailing_slash_snoc (s : string) :
  strip_trailing_slash (s +:+ "/") = s.
Proof.
  induction s as [|c s IH]; [done|].
  change (String c s +:+ "/") with (String c (s +:+ "/")).
  by rewrite strip_trailing_slash_cons, IH by apply append_not_empty.
Qed.

Lemma strip_trailing_slash_other (s : string) (c : Ascii.ascii) :
  String c "" ≠ "/" ->
  strip_trailing_slash (s +:+ String c "") = s +:+ String c "".
Proof.
  intros Hc. induction s as [|c' s IH].
  - simpl. by rewrite bool_decide_eq_false_2.
  - change (String c' s +:+ String c "") with (String c' (s +:+ String c "")).
    by rewrite strip_trailing_slash_cons, IH by apply append_not_empty.
Qed.

(** The socket is opened on the server URL followed by "/agent-tunnel";
    one slash at the end of the server URL is dropped first, so a URL
    gives the same address with and without it; only one is dropped. *)
Theorem namespace_url_slash (s : string) (c : Ascii.ascii) :
  let url := s +:+ String c "" in
  namespace_url (s +:+ "/") = s +:+ "/agent-tunnel" /\
  (String c "" ≠ "/" ->
     namespace_url url = url +:+ "/agent-tunnel" /\
     namespace_url (url +:+ "/") = namespace_url url) /\
  namespace_url "" = "/agent-tunnel".
Proof.
  intros url. unfold namespace_url.
  split; [by rewrite strip_trailing_slash_snoc|].
  split; [|done]. intros Hc. unfold url.
  by rewrite strip_trailing_slash_snoc, strip_trailing_slash_other.
Qed.

Lemma deliver_closed (out : list Call) : deliver out {| _socket := None |} = {| _socket := None |}.
Proof. induction out as [|x out IH]; [done|]. simpl. by destruct x. Qed.

(** While the socket is open every call on the tunnel but [disconnect()]
    emits one event, after those emitted before; without a socket, before
    the tunnel is connected or after [disconnect()], calls emit nothing
    and do not fail. *)
Theorem deliver_in_order (out : list Call) (sent : list Emitted) :
  (call_disconnect ∉ out ->
     exists emitted,
       deliver out {| _socket := Some sent |} = {| _socket := Some (sent ++ emitted) |} /\
       length emitted = length out) /\
  (forall out', deliver (out ++ call_disconnect :: out') {| _socket := Some sent |}
                = {| _socket := None |}).
Proof.
  split.
  - revert sent. induction out as [|x out IH]; intros sent Hno.
    + exists []. by rewrite app_nil_r.
    + apply not_elem_of_cons in Hno as [Hx Hno]. simpl.
      assert (exists e, perform x {| _socket := Some sent |}
                        = {| _socket := Some (sent ++ [e]) |}) as [e ->].
      { destruct x; try done; by eexists. }
      destruct (IH (sent ++ [e]) Hno) as (emitted & -> & Hlen).
      exists (e :: emitted). rewrite <-app_assoc. simpl. by rewrite Hlen.
  - intros out'. unfold deliver. rewrite foldl_app. simpl.
    apply deliver_closed.
Qed.

Lemma deliver_disconnect (out out' : list Call) (tn : AgentTunnel.t) :
  deliver (out ++ call_disconnect :: out') tn = {| _socket := None |}.
Proof. unfold deliver. rewrite foldl_app. simpl. apply deliver_closed. Qed.

Section WithHost.
Context `{Host}.

(** When a [stop()] returns, the tunnel has no socket, and whatever
    happens then (suspended connects that resume, timers, late events of
    the server, further calls of [stop()]) nothing is emitted.  A
    [stop()] returns in the step that disconnects the tunnel; one that
    runs with nothing in between, called while none is suspended,
    does. *)
Theorem nothing_sent_after_stop (s : System.t) (ev : Stop.Event)
    (evs : list Stop.Event) :
  (call_disconnect ∈ (Stop.step ev (orchestrator s)).2 ->
     _socket (tunnel (handle (Stop.step ev) s)) = None /\
     _socket (tunnel (System.run evs (handle (Stop.step ev) s))) = None) /\
  (Stop.invariant (orchestrator s) -> Stop.stops (orchestrator s) = [] ->
     _socket (tunnel (handle Stop.stop_alone s)) = None /\
     _socket (tunnel (System.run evs (handle Stop.stop_alone s))) = None).
Proof.
  assert (forall m : Stop.M, call_disconnect ∈ (m (orchestrator s)).2 ->
     _socket (tunnel (handle m s)) = None /\
     _socket (tunnel (System.run evs (handle m s))) = None) as Hafter.
  { intros m (out & out' & Hout)%list_elem_of_split.
    assert (tunnel (handle m s) = {| _socket := None |}) as Hstop.
    { unfold handle. destruct (m (orchestrator s)) as [o calls].
      simpl in *. subst. apply deliver_disconnect. }
    split; [by rewrite Hstop|].
    unfold System.run, handle at 1.
    destruct (Stop.run evs _) as [o calls]. simpl.
    by rewrite Hstop, deliver_closed. }
  split; [apply Hafter|].
  intros Hinv Hstops. apply Hafter.
  destruct (StopProofs.stop_alone_spec (orchestrator s) Hinv Hstops) as [-> _].
  apply elem_of_app. right. by left.
Qed.

End WithHost.

End TunnelMore.

(** ** Instances of the further properties *)

Module MoreExamples.
Import Examples MoreData.

Lemma connect_incomplete_witness :
  let c := LocalClient.create (no_url "h") in
  (@LocalClient.connect host c).2 = [LocalClient.onStatusChanged connecting None] /\
  (@LocalClient.run host
     [LocalClient.call_connect;
      LocalClient.from_env (LocalClient.settles (LocalClient.resolved None))] c).2
  = [LocalClient.onStatusChanged connecting None;
     LocalClient.onStatusChanged error
       (Some "streamable-http endpoint h has no URL");
     LocalClient.setTimeout 1000].
Proof.
  intros c.
  destruct (@LocalClientMore.connect_incomplete host (no_url "h") []
              (LocalClient.resolved None))
    as ((Hout & _) & _ & Hhttp); [reflexivity..|].
  destruct (Hhttp eq_refl) as (Hfirst & _).
  split; [exact Hfirst|exact Hout].
Defined.

(** A full replace lists a streamable-http endpoint without url and then
    a stdio endpoint without command: the second fails within the
    handler, the first when its [connect()] resumes. *)
Lemma incomplete_endpoints_order :
  McpCentralAgent.status_updates
    (@McpCentralAgent.run host
       [McpCentralAgent.onEndpoints [no_url "h"; no_command "m"];
        McpCentralAgent.client_signal 0
          (LocalClient.settles (LocalClient.resolved None))]
       McpCentralAgent.create).2
  = [("h", connecting); ("m", connecting); ("m", error); ("h", error)].
Proof. reflexivity. Qed.

Lemma connect_complete_witness :
  let c := LocalClient.create (endpoint "s" sse true) in
  (@LocalClient.connect host c).2
  = [LocalClient.onStatusChanged connecting None;
     LocalClient.client_connect
       (LocalClient.SSEClientTransport "http://localhost:3000/mcp" [])].
Proof.
  intros c.
  destruct (@LocalClientMore.connect_complete host (endpoint "s" sse true) []
              "http://localhost:3000/mcp" "http://localhost:3000/mcp")
    as [Hout _]; [reflexivity|discriminate|reflexivity..|exact Hout].
Defined.

Lemma connect_succeeds_witness :
  let c := LocalClient.create (endpoint "h" streamable_http true) in
  LocalClient._status
    (@LocalClient.run host
       [LocalClient.call_connect;
        LocalClient.from_env (LocalClient.settles (LocalClient.resolved None));
        LocalClient.from_env (LocalClient.settles (LocalClient.resolved None))]
       c).1 = connected.
Proof.
  intros c.
  destruct (@LocalClientMore.connect_succeeds host
              (endpoint "h" streamable_http true) []
              "http://localhost:3000/mcp" "http://localhost:3000/mcp" None None)
    as (_ & Hstatus & _); [reflexivity|discriminate|reflexivity..|exact Hstatus].
Defined.

Lemma retry_forever_witness :
  LocalClient.delays
    (seq (seq (@LocalClient.connect host)
              (LocalClient.connect_resume (LocalClient.resolved None)))
         (@LocalClientCases.retries host (LocalClient.resolved None) 6)
         (LocalClient.create (no_url "h"))).2
  = [1000; 2000; 5000; 10000; 30000; 30000; 30000]%Z.
Proof.
  destruct (@LocalClientMore.retry_forever host (no_url "h")
              (LocalClient.resolved None) 6)
    as [Hdelays _]; [reflexivity|exact Hdelays].
Defined.

(** Both observers of a transport fire for one fault, the second after
    the reconnect has completed: two reconnects are scheduled. *)
Lemma observers_one_shot_witness :
  let c := (@LocalClient.run host
    [LocalClient.call_connect;
     LocalClient.from_env (LocalClient.settles (LocalClient.resolved None));
     LocalClient.from_env (LocalClient.settles (LocalClient.resolved None))]
    (LocalClient.create (endpoint "a" stdio true))).1 in
  let evs :=
    [LocalClient.from_env (LocalClient.transport_errors 0 None);
     LocalClient.from_env (LocalClient.timer_fires 1);
     LocalClient.from_env (LocalClient.settles (LocalClient.resolved None));
     LocalClient.from_env (LocalClient.settles (LocalClient.resolved None))] in
  (0, LocalClient.onclose) ∈ LocalClient.handlers (@LocalClient.run host evs c).1 /\
  LocalClient.delays
    (@LocalClient.run host
       (evs ++ [LocalClient.from_env (LocalClient.transport_closes 0)]) c).2
  = [1000; 1000]%Z.
Proof.
  intros c evs. split; [|reflexivity].
  destruct (@LocalClientMore.observers_one_shot host c evs 0 0 None None)
    as (_ & _ & _ & _ & _ & Hstays & _).
  apply Hstays; [vm_compute; set_solver|repeat constructor].
Defined.

Lemma observer_reaction_witness :
  let c := (@LocalClient.run host
    [LocalClient.call_connect;
     LocalClient.from_env (LocalClient.settles (LocalClient.resolved None));
     LocalClient.from_env (LocalClient.settles (LocalClient.resolved None))]
    (LocalClient.create (endpoint "a" stdio true))).1 in
  (LocalClient._onClose 0 c).2
  = [LocalClient.onStatusChanged error (Some "Transport closed unexpectedly");
     LocalClient.setTimeout 1000].
Proof.
  intros c.
  destruct (LocalClientMore.observer_reaction c 0 None) as ((Hout & _) & _);
    [vm_compute; set_solver|reflexivity..|exact Hout].
Defined.

Lemma disconnect_cancels_timer_witness :
  let c := (@LocalClient.connect host (LocalClient.create (no_command "m"))).1 in
  LocalClient._reconnectTimer c = Some 0 /\
  @LocalClient.timer_callback host 0 (LocalClient.disconnect c).1
  = ((LocalClient.disconnect c).1, []).
Proof.
  intros c. split; [reflexivity|].
  destruct (@LocalClientMore.disconnect_cancels_timer host c 0 0) as [Hcancel _].
  destruct (Hcancel eq_refl) as (_ & _ & _ & Hfire). exact Hfire.
Defined.

Lemma run_destroyed_witness :
  let c := (LocalClient.disconnect (LocalClient.create (endpoint "a" stdio true))).1 in
  let evs := [LocalClient.call_connect; LocalClient.from_env (LocalClient.timer_fires 0)] in
  LocalClient._destroyed c = true /\
  LocalClient._destroyed (@LocalClient.run host evs c).1 = true /\
  LocalClient.delays (@LocalClient.run host evs c).2 = [].
Proof.
  intros c evs. split; [reflexivity|].
  apply (@LocalClientProofs.run_destroyed host evs c). reflexivity.
Defined.

Lemma one_reconnect_timer_witness :
  let a := (@McpCentralAgent.run host
              [McpCentralAgent.onEndpoints [no_command "m"]]
              McpCentralAgent.create).1 in
  exists c, McpCentralAgent.objects a !! 0 = Some c /\
    length (LocalClient.timers c) <= 1.
Proof.
  intros a. eexists. split; [reflexivity|].
  destruct (@McpCentralAgentMore.one_reconnect_timer host
              [McpCentralAgent.onEndpoints [no_command "m"]] 0 _ eq_refl)
    as [Hlen _].
  exact Hlen.
Defined.

Lemma objects_persist_witness :
  let a := (@McpCentralAgent.run host
              [McpCentralAgent.onEndpoints [endpoint "a" stdio true]]
              McpCentralAgent.create).1 in
  exists c c',
    McpCentralAgent.objects a !! 0 = Some c /\
    McpCentralAgent.objects
      (@McpCentralAgent.run host [McpCentralAgent.onEndpointRemove "a"] a).1 !! 0
    = Some c' /\
    LocalClient.config c' = LocalClient.config c.
Proof.
  intros a. eexists.
  destruct (@McpCentralAgentMore.objects_persist host
              [McpCentralAgent.onEndpointRemove "a"] a 0 _ eq_refl)
    as (c' & Hc' & Hcfg & _).
  exists c'. split; [reflexivity|]. split; [exact Hc'|exact Hcfg].
Defined.

Lemma tracked_clients_stopping_witness :
  let s := (@Stop.run host
              [Stop.handles (McpCentralAgent.onEndpoints [endpoint "a" stdio true]);
               Stop.call_stop]
              Stop.create).1 in
  "a" ∈ McpCentralAgent.tracked (Stop.agent s) /\
  exists c, McpCentralAgentCases.routed "a" (Stop.agent s) = Some c /\
    id (LocalClient.config c) = "a".
Proof.
  intros s.
  assert ("a" ∈ McpCentralAgent.tracked (Stop.agent s)) as Hin
    by (vm_compute; set_solver).
  split; [exact Hin|].
  destruct (@StopProofs.tracked_clients_stopping host
              [Stop.handles (McpCentralAgent.onEndpoints [endpoint "a" stdio true]);
               Stop.call_stop])
    as (_ & _ & Htracked).
  destruct (Htracked "a" Hin) as (c & Hc & Hid & _).
  exists c. split; [exact Hc|exact Hid].
Defined.

Lemma removed_has_no_client_witness :
  let a := (@McpCentralAgent.run host
              [McpCentralAgent.onEndpoints [endpoint "a" stdio true]]
              McpCentralAgent.create).1 in
  McpCentralAgent._handleToolCall (call_for "a")
    (@McpCentralAgent.step host (McpCentralAgent.onEndpointRemove "a") a).1
  = McpCentralAgent.answered
      [AgentTunnel.call_sendToolError "call-2" "No local client for endpoint a"].
Proof.
  intros a.
  apply (@McpCentralAgentMore.removed_has_no_client host
           [McpCentralAgent.onEndpoints [endpoint "a" stdio true]]
           (McpCentralAgent.onEndpointRemove "a") (call_for "a")).
  left. reflexivity.
Defined.

Lemma add_replaces_witness :
  let a := (@McpCentralAgent.run host
              [McpCentralAgent.onEndpoints [endpoint "a" stdio true;
                                            endpoint "b" stdio true]]
              McpCentralAgent.create).1 in
  McpCentralAgent.tracked
    (@McpCentralAgent._addEndpoint host (endpoint "a" sse true) a).1
  = ["b"; "a"].
Proof.
  intros a.
  destruct (@McpCentralAgentMore.add_replaces host
              [McpCentralAgent.onEndpoints [endpoint "a" stdio true;
                                            endpoint "b" stdio true]]
              (endpoint "a" sse true)) as [Hadd _].
  destruct (Hadd eq_refl) as [Htracked _]. exact Htracked.
Defined.

Lemma refresh_reconnects_witness :
  let a := (@McpCentralAgent.run host
              [McpCentralAgent.onEndpoints [endpoint "a" stdio true]]
              McpCentralAgent.create).1 in
  McpCentralAgentCases.routed "a"
    (@McpCentralAgent._refreshEndpoint host "a" a).1
  = Some (@LocalClient.connect host
            (LocalClient.create (endpoint "a" stdio true))).1.
Proof.
  intros a.
  destruct (@McpCentralAgentMore.refresh_reconnects host
              [McpCentralAgent.onEndpoints [endpoint "a" stdio true]] "a")
    as [Hrefresh _].
  destruct (Hrefresh _ eq_refl) as [Hnew _]. exact Hnew.
Defined.

Lemma other_endpoints_untouched_witness :
  let a := (@McpCentralAgent.run host
              [McpCentralAgent.onEndpoints [endpoint "a" stdio true;
                                            endpoint "b" stdio true]]
              McpCentralAgent.create).1 in
  McpCentralAgent._handleToolCall (call_for "b")
    (@McpCentralAgent.step host (McpCentralAgent.onEndpointRemove "a") a).1
  = McpCentralAgent._handleToolCall (call_for "b") a.
Proof.
  intros a.
  destruct (@McpCentralAgentMore.other_endpoints_untouched host
              [McpCentralAgent.onEndpoints [endpoint "a" stdio true;
                                            endpoint "b" stdio true]]
              (McpCentralAgent.onEndpointRemove "a") (call_for "b"))
    as [_ Hcall]; [|exact Hcall].
  left. exists "a". split; [reflexivity|discriminate].
Defined.

Lemma stop_reports_each_witness :
  let s := (@Stop.run host
              [Stop.handles (McpCentralAgent.onEndpoints
                               [endpoint "a" stdio true; endpoint "b" sse true])]
              Stop.create).1 in
  (Stop.stop_alone s).2
  = [AgentTunnel.call_sendStatusUpdate "a" disconnected None;
     AgentTunnel.call_sendStatusUpdate "b" disconnected None;
     AgentTunnel.call_disconnect].
Proof.
  intros s.
  destruct (@StopProofs.stop_reports_each host
              [Stop.handles (McpCentralAgent.onEndpoints
                               [endpoint "a" stdio true; endpoint "b" sse true])])
    as (Hout & _); [reflexivity|exact Hout].
Defined.

Lemma stop_disconnects_all_witness :
  let s := (@Stop.run host
              [Stop.handles (McpCentralAgent.onEndpoints [endpoint "a" stdio true])]
              Stop.create).1 in
  exists c,
    McpCentralAgent.objects (Stop.agent (Stop.stop_alone s).1) !! 0 = Some c /\
    LocalClient._destroyed c = true.
Proof.
  intros s.
  destruct (@StopProofs.stop_disconnects_all host
              [Stop.handles (McpCentralAgent.onEndpoints [endpoint "a" stdio true])]
              "a" 0 eq_refl eq_refl)
    as (c & Hc & Hd & _).
  exists c. split; [exact Hc|exact Hd].
Defined.

Lemma nothing_sent_after_stop_witness :
  let s := {| System.orchestrator := Stop.create;
              System.tunnel := {| AgentTunnel._socket := Some [] |} |} in
  AgentTunnel._socket
    (System.tunnel
       (@System.run host
          [Stop.handles (McpCentralAgent.onEndpoints [endpoint "a" stdio true])]
          (System.handle (@Stop.step host Stop.call_stop) s))) = None.
Proof.
  intros s.
  destruct (@TunnelMore.nothing_sent_after_stop host s Stop.call_stop
              [Stop.handles (McpCentralAgent.onEndpoints [endpoint "a" stdio true])])
    as [Hreturns _].
  destruct Hreturns as [_ Hafter]; [vm_compute; set_solver|exact Hafter].
Defined.

Lemma deliver_in_order_witness :
  exists emitted,
    System.deliver
      [AgentTunnel.call_sendStatusUpdate "a" connecting None;
       AgentTunnel.call_sendToolError "call-2" "boom"]
      {| AgentTunnel._socket := Some [] |}
    = {| AgentTunnel._socket := Some ([] ++ emitted) |} /\
    length emitted = 2.
Proof.
  destruct (TunnelMore.deliver_in_order
              [AgentTunnel.call_sendStatusUpdate "a" connecting None;
               AgentTunnel.call_sendToolError "call-2" "boom"] []) as [Hopen _].
  apply Hopen. intros Hin. repeat (apply elem_of_cons in Hin as [Hin|Hin]; [discriminate|]).
  by apply elem_of_nil in Hin.
Defined.

Lemma namespace_url_slash_witness :
  AgentTunnelConnect.namespace_url "https://mcp.example.com/"
  = AgentTunnelConnect.namespace_url "https://mcp.example.com".
Proof.
  destruct (TunnelMore.namespace_url_slash "https://mcp.example.co"
              (Ascii.Ascii true false true true false true true false))
    as (_ & Hother & _).
  destruct Hother as [_ Hsame]; [discriminate|exact Hsame].
Defined.

End MoreExamples.
